(** * Safetensors reader (qwen_asr_safetensors.c): model and properties

    The model follows the C file top to bottom: the minimal JSON parser for
    the header, the single-file operations (POSIX branch), the BF16
    widening, and the multi-shard operations.  It is followed by the notions
    the statements are written with, and by the properties: termination of
    the parser, the arithmetic of ["data_offsets"], the bound on ["shape"],
    the skipping of unknown values, what opening a file checks and releases,
    lookup by name, and the discovery of shards.

    Conventions.
    - A [const char *] into a NUL-terminated buffer is the [string] of the
      bytes from the pointer to the end of the buffer, the terminator being
      implicit: [peek] of the empty string is NUL.  A buffer may hold NUL
      bytes of its own (the header is copied from the file verbatim).
    - [size_t] and [uint64_t] are 64-bit; [int64_t] arithmetic wraps in two's
      complement.
    - A function returning [-1] or [NULL] returns [Fail] or [None].
    - Calls to the system go through a [world]: the files and directories
      there are, the allocations that will succeed, the resources the
      process holds, and what it has printed and opened so far. *)

From Stdlib Require Import ZArith Lia Bool Ascii String.
From Stdlib Require Import Floats.SpecFloat QArith.QArith_base QArith.Qpower
  QArith.Qreduction.
From stdpp Require Import base option list sorting strings gmap.

Local Open Scope Z_scope.

(** ** Characters and C strings *)

Definition NUL : ascii := Ascii.zero.
Definition DQUOTE : ascii := "034".
Definition BACKSLASH : ascii := "092".
Definition NL : string := String "010" EmptyString.

Definition peek (p : string) : ascii :=
  match p with
  | String c _ => c
  | EmptyString => NUL
  end.

(** Moving the pointer one byte forward, at a position that holds a byte of
    the buffer. *)
Definition advance (p : string) : string :=
  match p with
  | String _ p' => p'
  | EmptyString => EmptyString
  end.

Definition is_char (c d : ascii) : bool := Ascii.eqb c d.

Definition code (c : ascii) : Z := Z.of_N (N_of_ascii c).

(** [strcmp]: the difference of the first bytes that differ, as unsigned
    chars; both arguments end at their first NUL. *)
Fixpoint strcmp (a b : string) : Z :=
  match a, b with
  | String c a', String d b' =>
      if is_char c d then (if is_char c NUL then 0 else strcmp a' b')
      else code c - code d
  | String c _, EmptyString => code c
  | EmptyString, String d _ => - code d
  | EmptyString, EmptyString => 0
  end.

Definition streq (a b : string) : bool := strcmp a b =? 0.

(** The C string held in a buffer: the bytes before the first NUL. *)
Fixpoint cstr (a : string) : string :=
  match a with
  | String c a' => if is_char c NUL then EmptyString else String c (cstr a')
  | EmptyString => EmptyString
  end.

(** [strncmp(a, b, n) == 0]. *)
Fixpoint strncmp_eq (a b : string) (n : nat) : bool :=
  match n with
  | O => true
  | S n' =>
      match a, b with
      | String c a', String d b' =>
          is_char c d && (is_char c NUL || strncmp_eq a' b' n')
      | String c _, EmptyString => is_char c NUL
      | EmptyString, String d _ => is_char d NUL
      | EmptyString, EmptyString => true
      end
  end.

(** [strstr(h, n) != NULL] on NUL-free arguments. *)
Fixpoint strstr_found (h n : string) : bool :=
  String.prefix n h ||
  match h with
  | String _ h' => strstr_found h' n
  | EmptyString => false
  end.

(** The first [n] bytes of [s].  [snprintf(buf, size, "%s", s)] leaves
    [truncate (size - 1) (cstr s)] in [buf]. *)
Fixpoint truncate (n : nat) (s : string) : string :=
  match n, s with
  | S n', String c s' => String c (truncate n' s')
  | _, _ => EmptyString
  end.

(** ** Results of the parsing functions *)

Inductive res (A : Type) : Type :=
| Ok (a : A)      (* the function returns 0 *)
| Fail            (* the function returns -1 *)
| Undef           (* the function reads beyond the end of the buffer *)
| OutOfFuel.      (* the model ran out of fuel; never the case, see
                     [parse_header_terminates] *)
Arguments Ok {A} a.
Arguments Fail {A}.
Arguments Undef {A}.
Arguments OutOfFuel {A}.

Definition res_bind {A B} (r : res A) (k : A -> res B) : res B :=
  match r with
  | Ok a => k a
  | Fail => Fail
  | Undef => Undef
  | OutOfFuel => OutOfFuel
  end.

Infix ">>=" := res_bind (at level 50, left associativity).

(** ** Minimal JSON parser for the safetensors header *)

Definition is_space (c : ascii) : bool :=
  is_char c " " || is_char c "010" || is_char c "013" || is_char c "009".

Fixpoint skip_whitespace (p : string) : string :=
  match p with
  | String c p' => if is_space c then skip_whitespace p' else p
  | EmptyString => p
  end.

Definition unescape (c : ascii) : ascii :=
  if is_char c "n" then "010"%char
  else if is_char c "t" then "009"%char
  else if is_char c DQUOTE then DQUOTE
  else if is_char c BACKSLASH then BACKSLASH
  else c.

(** The loop of [parse_string]; [room] is [max_len - 1 - i].  The bytes
    written to [out] are returned in order. *)
Fixpoint parse_string_loop (p : string) (room : nat) : res (string * string) :=
  match p with
  | EmptyString => Fail                       (* the closing quote is missing *)
  | String c p' =>
      if is_char c NUL then Fail
      else if is_char c DQUOTE then Ok (EmptyString, p')
      else
        match room with
        | O => Fail                           (* [i == max_len - 1], no quote *)
        | S room' =>
            if is_char c BACKSLASH then
              match p' with
              | EmptyString => Undef    (* the pointer leaves the buffer *)
              | String d p'' =>
                  parse_string_loop p'' room' >>= fun '(out, rest) =>
                  Ok (String (unescape d) out, rest)
              end
            else
              parse_string_loop p' room' >>= fun '(out, rest) =>
              Ok (String c out, rest)
        end
  end.

Definition parse_string (p : string) (max_len : nat) : res (string * string) :=
  let p := skip_whitespace p in
  if negb (is_char (peek p) DQUOTE) then Fail
  else parse_string_loop (advance p) (max_len - 1).

Definition wrap_s64 (z : Z) : Z := (z + 2^63) mod 2^64 - 2^63.
Definition wrap_u64 (z : Z) : Z := z mod 2^64.

Definition is_digit (c : ascii) : bool := (48 <=? code c) && (code c <=? 57).

Fixpoint parse_digits (p : string) (val : Z) : Z * string :=
  match p with
  | String c p' =>
      if is_digit c then parse_digits p' (wrap_s64 (val * 10 + (code c - 48)))
      else (val, p)
  | EmptyString => (val, p)
  end.

Definition parse_int (p : string) : Z * string :=
  let p := skip_whitespace p in
  let neg := is_char (peek p) "-" in
  let p := if neg then advance p else p in
  let '(val, p) := parse_digits p 0 in
  (if neg then wrap_s64 (- val) else val, p).

Inductive safetensor_dtype_t : Set :=
| DTYPE_F32 | DTYPE_F16 | DTYPE_BF16 | DTYPE_I32 | DTYPE_I64 | DTYPE_BOOL
| DTYPE_UNKNOWN.

Definition parse_dtype (s : string) : safetensor_dtype_t :=
  if streq s "F32" then DTYPE_F32
  else if streq s "F16" then DTYPE_F16
  else if streq s "BF16" then DTYPE_BF16
  else if streq s "I32" then DTYPE_I32
  else if streq s "I64" then DTYPE_I64
  else if streq s "BOOL" then DTYPE_BOOL
  else DTYPE_UNKNOWN.

(** The tensor descriptor.  [shape] is the array [int64_t shape[8]]; the
    entries from [ndim] on keep what the array held before. *)
Record safetensor_t : Type := mk_tensor {
  name : string;
  dtype : safetensor_dtype_t;
  ndim : nat;
  shape : list Z;
  data_offset : Z;
  data_size : Z
}.

Definition set_dtype (t : safetensor_t) (d : safetensor_dtype_t) :=
  mk_tensor (name t) d (ndim t) (shape t) (data_offset t) (data_size t).
Definition set_ndim (t : safetensor_t) (n : nat) :=
  mk_tensor (name t) (dtype t) n (shape t) (data_offset t) (data_size t).
(** [t->shape[t->ndim++] = v] *)
Definition push_dim (t : safetensor_t) (v : Z) :=
  mk_tensor (name t) (dtype t) (S (ndim t)) (<[ndim t := v]> (shape t))
            (data_offset t) (data_size t).
Definition set_offsets (t : safetensor_t) (off size : Z) :=
  mk_tensor (name t) (dtype t) (ndim t) (shape t) off size.

(** The loop over the elements of ["shape"]; [free] is [8 - t->ndim], the
    number of free slots, so that [free = 0] is the exit on [t->ndim < 8]. *)
Fixpoint shape_loop (free : nat) (p : string) (t : safetensor_t)
  : string * safetensor_t :=
  match free with
  | O => (p, t)
  | S free' =>
      if is_char (peek p) NUL || is_char (peek p) "]" then (p, t)
      else
        let p := skip_whitespace p in
        if is_char (peek p) "]" then (p, t)
        else
          let '(v, p) := parse_int p in
          let t := push_dim t v in
          let p := skip_whitespace p in
          let p := if is_char (peek p) "," then advance p else p in
          shape_loop free' p t
  end.

(** Skipping the value of an unknown key.  [depth] is an [int]; it stays far
    below [2^31] on any header that fits in memory. *)
Fixpoint skip_value (p : string) (depth : Z) (in_string : bool) : string :=
  match p with
  | EmptyString => p
  | String c p' =>
      if is_char c NUL then p
      else if negb in_string then
        if is_char c DQUOTE then skip_value p' depth true
        else if is_char c "{" || is_char c "[" then
          skip_value p' (depth + 1) false
        else if is_char c "}" || is_char c "]" then
          (if depth =? 0 then p else skip_value p' (depth - 1) false)
        else if is_char c "," && (depth =? 0) then p
        else skip_value p' depth false
      else
        if is_char c BACKSLASH && negb (is_char (peek p') NUL) then
          match p' with
          | String _ p'' => skip_value p'' depth true
          | EmptyString => p'
          end
        else if is_char c DQUOTE then skip_value p' depth false
        else skip_value p' depth true
  end.

(** The value of one key of a tensor entry: the [if]/[else if] chain on
    [key] in the loop of [parse_tensor_entry]. *)
Definition entry_value (key p : string) (t : safetensor_t)
  : res (string * safetensor_t) :=
  if streq key "dtype" then
    parse_string p 32 >>= fun '(dtype_str, p) =>
    Ok (p, set_dtype t (parse_dtype dtype_str))
  else if streq key "shape" then
    if negb (is_char (peek p) "[") then Fail
    else
      let '(p, t) := shape_loop 8 (advance p) (set_ndim t 0) in
      let p := if is_char (peek p) "]" then advance p else p in
      Ok (p, t)
  else if streq key "data_offsets" then
    if negb (is_char (peek p) "[") then Fail
    else
      let p := skip_whitespace (advance p) in
      let '(v, p) := parse_int p in
      let start := wrap_u64 v in
      let p := skip_whitespace p in
      let p := if is_char (peek p) "," then advance p else p in
      let p := skip_whitespace p in
      let '(v, p) := parse_int p in
      let end_ := wrap_u64 v in
      let p := skip_whitespace p in
      let p := if is_char (peek p) "]" then advance p else p in
      Ok (p, set_offsets t start (wrap_u64 (end_ - start)))
  else
    Ok (skip_value p 0 false, t).

(** The [while] loop of [parse_tensor_entry]. *)
Fixpoint entry_loop (fuel : nat) (p : string) (t : safetensor_t)
  : res (string * safetensor_t) :=
  match fuel with
  | O => OutOfFuel
  | S fuel' =>
      if is_char (peek p) NUL || is_char (peek p) "}" then Ok (p, t)
      else
        let p := skip_whitespace p in
        if is_char (peek p) "}" then Ok (p, t)
        else
          parse_string p 64 >>= fun '(key, p) =>
          let p := skip_whitespace p in
          if negb (is_char (peek p) ":") then Fail
          else
            let p := skip_whitespace (advance p) in
            entry_value key p t >>= fun '(p, t) =>
            let p := skip_whitespace p in
            let p := if is_char (peek p) "," then advance p else p in
            entry_loop fuel' p t
  end.

Definition parse_tensor_entry (p : string) (t : safetensor_t)
  : res (string * safetensor_t) :=
  let p := skip_whitespace p in
  if negb (is_char (peek p) "{") then Fail
  else
    let p := advance p in
    let t := mk_tensor (name t) DTYPE_UNKNOWN 0 (shape t) 0 0 in
    entry_loop (S (String.length p)) p t >>= fun '(p, t) =>
    let p := if is_char (peek p) "}" then advance p else p in
    Ok (p, t).

(** Skipping the value of ["__metadata__"]: braces are counted, strings are
    not looked at. *)
Fixpoint skip_metadata (p : string) (depth : Z) : string :=
  match p with
  | EmptyString => p
  | String c p' =>
      if is_char c NUL then p
      else if is_char c "{" then skip_metadata p' (depth + 1)
      else if is_char c "}" then
        (if depth - 1 =? 0 then p' else skip_metadata p' (depth - 1))
      else skip_metadata p' depth
  end.

(** ** The environment: file system, process resources, diagnostics

    What [open], [fstat], [mmap], [malloc], [opendir] and [readdir] answer is
    fixed by the world the program runs in. *)

Record file : Type := mk_file {
  f_bytes : string;          (* the content; [st_size] is its length *)
  f_fstat_ok : bool;         (* [fstat] succeeds *)
  f_mmap_ok : bool           (* [mmap] succeeds *)
}.

Inductive resource : Set :=
| Fd (id : nat)              (* a file descriptor *)
| Mapping (id : nat)         (* a mapped region *)
| Heap (id : nat)            (* a block from [malloc], [calloc] or [strdup] *)
| DirStream (id : nat).      (* a [DIR *] *)

Definition resource_eqb (a b : resource) : bool :=
  match a, b with
  | Fd i, Fd j | Mapping i, Mapping j | Heap i, Heap j
  | DirStream i, DirStream j => Nat.eqb i j
  | _, _ => false
  end.

Record world : Type := mk_world {
  w_files : gmap string file;            (* the paths [open] succeeds on *)
  w_dirs : gmap string (list string);    (* entries, in [readdir] order *)
  w_budget : nat;                        (* allocations that still succeed *)
  w_next : nat;                          (* the next fresh resource id *)
  w_live : list resource;                (* resources held by the process *)
  w_stderr : list string;                (* lines on [stderr], latest first *)
  w_opens : list string                  (* paths given to [open], same order *)
}.

Definition acquire (mk : nat -> resource) (w : world) : nat * world :=
  (w_next w,
   mk_world (w_files w) (w_dirs w) (w_budget w) (S (w_next w))
            (mk (w_next w) :: w_live w) (w_stderr w) (w_opens w)).

Fixpoint remove_first (r : resource) (l : list resource) : list resource :=
  match l with
  | [] => []
  | x :: l' => if resource_eqb r x then l' else x :: remove_first r l'
  end.

Definition release (r : resource) (w : world) : world :=
  mk_world (w_files w) (w_dirs w) (w_budget w) (w_next w)
           (remove_first r (w_live w)) (w_stderr w) (w_opens w).

(** [malloc], [calloc], [strdup]: [None] is [NULL]. *)
Definition malloc (w : world) : option nat * world :=
  match w_budget w with
  | O => (None, w)
  | S b =>
      let '(id, w) :=
        acquire Heap (mk_world (w_files w) (w_dirs w) b (w_next w) (w_live w)
                               (w_stderr w) (w_opens w)) in
      (Some id, w)
  end.

(** [free]; [free(NULL)] does nothing. *)
Definition free (b : option nat) (w : world) : world :=
  match b with
  | Some id => release (Heap id) w
  | None => w
  end.

Definition fprintf_stderr (line : string) (w : world) : world :=
  mk_world (w_files w) (w_dirs w) (w_budget w) (w_next w) (w_live w)
           (line :: w_stderr w) (w_opens w).

(** [open(path, O_RDONLY)] *)
Definition sys_open (path : string) (w : world) : option (nat * file) * world :=
  let w := mk_world (w_files w) (w_dirs w) (w_budget w) (w_next w) (w_live w)
                    (w_stderr w) (path :: w_opens w) in
  match w_files w !! path with
  | Some f => let '(fd, w) := acquire Fd w in (Some (fd, f), w)
  | None => (None, w)
  end.

(** ** Single file operations (POSIX) *)

(** The little-endian value of [memcpy(&header_size, data, 8)]. *)
Fixpoint le_uint (n : nat) (bytes : string) : Z :=
  match n, bytes with
  | S n', String c rest => code c + 256 * le_uint n' rest
  | _, _ => 0
  end.

Fixpoint skipn_string (n : nat) (s : string) : string :=
  match n, s with
  | S n', String _ s' => skipn_string n' s'
  | _, _ => s
  end.

Record safetensors_file_t : Type := mk_sf {
  sf_block : nat;                      (* the block of the struct itself *)
  path : option (nat * string);        (* [strdup(path)]; [None] is [NULL] *)
  data : nat * string;                 (* the mapping and the bytes it shows *)
  file_size : Z;
  header_size : Z;
  header_json : option (nat * string); (* the copy of the header *)
  tensors : list safetensor_t          (* [tensors[0 .. num_tensors)] *)
}.

Definition num_tensors (sf : safetensors_file_t) : nat := length (tensors sf).

Definition safetensors_close (sf : option safetensors_file_t) (w : world)
  : world :=
  match sf with
  | None => w
  | Some sf =>
      let w := release (Mapping (fst (data sf))) w in
      let w := free (fst <$> path sf) w in
      let w := free (fst <$> header_json sf) w in
      free (Some (sf_block sf)) w
  end.

(** What a call that touches the world comes to: it returns, or it reads
    outside the buffer or the mapping it was given. *)
Inductive run (A : Type) : Type :=
| Done (a : A) (w : world)
| Crash.
Arguments Done {A} a w.
Arguments Crash {A}.

(** The order [qsort] is given: [strcmp(a, b) <= 0]. *)
Definition name_le (a b : string) : Prop := strcmp a b <= 0.

#[global] Instance name_le_dec : RelDecision name_le.
Proof. intros a b. unfold name_le. apply _. Defined.

Section Reader.

(** The header [qwen_asr_safetensors.h] fixes three sizes: the capacity of the
    tensor table, the capacity of the shard table, and the size of the
    [name] array of a descriptor. *)
Variable SAFETENSORS_MAX_TENSORS : nat.
Variable SAFETENSORS_MAX_SHARDS : nat.
Variable NAME_SIZE : nat.

(** A slot of the tensor table as [calloc] leaves it, after the
    [strncpy] of the name. *)
Definition fresh_slot (tensor_name : string) : safetensor_t :=
  mk_tensor (truncate (NAME_SIZE - 1) (cstr tensor_name)) DTYPE_F32 0
            (replicate 8 0) 0 0.

(** The [while] loop of [parse_header]; [acc] is
    [sf->tensors[0 .. num_tensors)]. *)
Fixpoint header_loop (fuel : nat) (p : string) (acc : list safetensor_t)
  : res (list safetensor_t) :=
  match fuel with
  | O => OutOfFuel
  | S fuel' =>
      if is_char (peek p) NUL || is_char (peek p) "}"
         || negb (length acc <? SAFETENSORS_MAX_TENSORS)%nat
      then Ok acc
      else
        let p := skip_whitespace p in
        if is_char (peek p) "}" then Ok acc
        else
          parse_string p 256 >>= fun '(tensor_name, p) =>
          let p := skip_whitespace p in
          if negb (is_char (peek p) ":") then Fail
          else
            let p := advance p in
            if streq tensor_name "__metadata__" then
              let p := skip_metadata p 0 in
              let p := skip_whitespace p in
              let p := if is_char (peek p) "," then advance p else p in
              header_loop fuel' p acc
            else
              parse_tensor_entry p (fresh_slot tensor_name) >>= fun '(p, t) =>
              let acc := acc ++ [t] in
              let p := skip_whitespace p in
              let p := if is_char (peek p) "," then advance p else p in
              header_loop fuel' p acc
  end.

Definition parse_header (header_json : string) : res (list safetensor_t) :=
  let p := skip_whitespace header_json in
  if negb (is_char (peek p) "{") then Fail
  else
    let p := advance p in
    header_loop (S (String.length p)) p [].

Definition safetensors_open (path : string) (w : world)
  : run (option safetensors_file_t) :=
  match sys_open path w with
  | (None, w) => Done None w
  | (Some (fd, f), w) =>
      if negb (f_fstat_ok f) then Done None (release (Fd fd) w)
      else
        let file_size := Z.of_nat (String.length (f_bytes f)) in
        if file_size <? 8 then Done None (release (Fd fd) w)
        else
          let '(data, w) :=
            if f_mmap_ok f then
              let '(m, w) := acquire Mapping w in (Some m, w)
            else (None, w) in
          let w := release (Fd fd) w in
          match data with
          | None => Done None w
          | Some m =>
              let header_size := le_uint 8 (f_bytes f) in
              if header_size >? file_size - 8 then
                Done None (release (Mapping m) w)
              else
                match malloc w with
                | (None, w) => Done None (release (Mapping m) w)
                | (Some b, w) =>
                    let '(dup, w) := malloc w in
                    let sf json ts :=
                      mk_sf b ((fun i => (i, path)) <$> dup) (m, f_bytes f)
                            file_size header_size json ts in
                    match malloc w with
                    | (None, w) =>
                        Done None (safetensors_close (Some (sf None [])) w)
                    | (Some h, w) =>
                        let json :=
                          truncate (Z.to_nat header_size)
                                   (skipn_string 8 (f_bytes f)) in
                        match parse_header json with
                        | Ok ts => Done (Some (sf (Some (h, json)) ts)) w
                        | Fail =>
                            let sf := sf (Some (h, json)) [] in
                            Done None (safetensors_close (Some sf) w)
                        | Undef | OutOfFuel => Crash
                        end
                    end
                end
          end
  end.

(** [safetensors_data]: the offset of the tensor's bytes from the start of
    the mapping.  The sum is made on a pointer and wraps at 64 bits. *)
Definition safetensors_data (sf : safetensors_file_t) (t : safetensor_t) : Z :=
  wrap_u64 (8 + header_size sf + data_offset t).

Definition safetensor_numel (t : safetensor_t) : Z :=
  foldl (fun n d => wrap_s64 (n * d)) 1 (take (ndim t) (shape t)).

(** [bf16_to_f32]: the bits of the [float] that the [memcpy] fills. *)
Definition bf16_to_f32 (bf16 : Z) : Z := Z.shiftl bf16 16 mod 2^32.

(** [n] little-endian values of [width] bytes each, read from [bytes];
    [None] when they are not all there. *)
Fixpoint read_le (width n : nat) (bytes : string) : option (list Z) :=
  match n with
  | O => Some []
  | S n' =>
      if (String.length bytes <? width)%nat then None
      else
        vs ← read_le width n' (skipn_string width bytes);
        Some (le_uint width bytes :: vs)
  end.

(** [safetensors_get_f32]: the block returned and the bits of its floats.
    Reading outside the mapping is a [Crash]. *)
Definition safetensors_get_f32 (sf : safetensors_file_t) (t : safetensor_t)
    (w : world) : run (option (nat * list Z)) :=
  let n := safetensor_numel t in
  if n <=? 0 then Done None w
  else
    match malloc w with
    | (None, w) => Done None w
    | (Some out, w) =>
        let src :=
          skipn_string (Z.to_nat (safetensors_data sf t)) (snd (data sf)) in
        match dtype t with
        | DTYPE_F32 =>
            match read_le 4 (Z.to_nat n) src with
            | Some vs => Done (Some (out, vs)) w
            | None => Crash
            end
        | DTYPE_BF16 =>
            match read_le 2 (Z.to_nat n) src with
            | Some vs => Done (Some (out, bf16_to_f32 <$> vs)) w
            | None => Crash
            end
        | _ => Done None (free (Some out) w)
        end
    end.

(** ** Multi-shard operations *)

(** [shards] lists the slots of the array that hold a handle; they are
    filled from slot 0 on, every other slot is [NULL] from [calloc]. *)
Record multi_safetensors_t : Type := mk_ms {
  ms_block : nat;
  shards : list safetensors_file_t;
  num_shards : nat
}.

Definition multi_safetensors_close (ms : option multi_safetensors_t)
    (w : world) : world :=
  match ms with
  | None => w
  | Some ms =>
      let w := foldl (fun w sf => safetensors_close (Some sf) w) w
                     (take (num_shards ms) (shards ms)) in
      free (Some (ms_block ms)) w
  end.

Definition snprintf (size : nat) (formatted : string) : string :=
  truncate (size - 1) formatted.

(** The test on a directory entry. *)
Definition shard_pattern (d_name : string) : bool :=
  strncmp_eq d_name "model-" 6 && strstr_found d_name ".safetensors".

(** The [readdir] loop over the entries still to come; [shard_names] holds
    the [n_shards] names collected so far. *)
Fixpoint scan_dir (entries : list string) (shard_names : list string)
  : list string :=
  match entries with
  | [] => shard_names
  | d_name :: entries' =>
      if (length shard_names <? SAFETENSORS_MAX_SHARDS)%nat then
        scan_dir entries'
                 (if shard_pattern (cstr d_name)
                  then shard_names ++ [snprintf 256 (cstr d_name)]
                  else shard_names)
      else shard_names
  end.

(** [qsort] with [strcmp]: the names in ascending order. *)
Definition qsort_names (shard_names : list string) : list string :=
  merge_sort name_le shard_names.

(** The loop that opens the shards, from the names not yet opened. *)
Fixpoint open_shards (model_dir : string) (names : list string)
    (ms : multi_safetensors_t) (w : world) : run (option multi_safetensors_t) :=
  match names with
  | [] => Done (Some ms) w
  | nm :: names' =>
      let path := snprintf 4096 (cstr model_dir +:+ "/" +:+ cstr nm) in
      match safetensors_open path w with
      | Crash => Crash
      | Done (Some sf) w =>
          let ms := mk_ms (ms_block ms) (shards ms ++ [sf]) (num_shards ms) in
          open_shards model_dir names' ms w
      | Done None w =>
          let w := fprintf_stderr
                     ("multi_safetensors_open: failed to open " +:+ path +:+ NL)
                     w in
          Done None (multi_safetensors_close (Some ms) w)
      end
  end.

Definition multi_safetensors_open (model_dir : string) (w : world)
  : run (option multi_safetensors_t) :=
  match malloc w with
  | (None, w) => Done None w
  | (Some b, w) =>
      let ms := mk_ms b [] 0 in
      (* Try single file first *)
      let path := snprintf 4096 (cstr model_dir +:+ "/model.safetensors") in
      match safetensors_open path w with
      | Crash => Crash
      | Done (Some sf) w => Done (Some (mk_ms b [sf] 1)) w
      | Done None w =>
          (* Scan directory for shard files *)
          match w_dirs w !! cstr model_dir with
          | None => Done None (free (Some b) w)
          | Some entries =>
              let '(dir, w) := acquire DirStream w in
              let shard_names := scan_dir entries [] in
              let w := release (DirStream dir) w in
              if (length shard_names =? 0)%nat then
                let w := fprintf_stderr
                           ("multi_safetensors_open: no safetensors files in "
                            +:+ cstr model_dir +:+ NL) w in
                Done None (free (Some b) w)
              else
                let shard_names := qsort_names shard_names in
                match open_shards model_dir shard_names ms w with
                | Done (Some ms) w =>
                    Done (Some (mk_ms (ms_block ms) (shards ms)
                                      (length shard_names))) w
                | r => r
                end
          end
      end
  end.

Fixpoint find_in_tensors (ts : list safetensor_t) (nm : string)
  : option safetensor_t :=
  match ts with
  | [] => None
  | t :: ts' => if streq (name t) nm then Some t else find_in_tensors ts' nm
  end.

Fixpoint find_in_shards (sfs : list safetensors_file_t) (nm : string)
  : option (safetensor_t * safetensors_file_t) :=
  match sfs with
  | [] => None
  | sf :: sfs' =>
      match find_in_tensors (tensors sf) nm with
      | Some t => Some (t, sf)
      | None => find_in_shards sfs' nm
      end
  end.

(** [multi_safetensors_find]: the descriptor found and the shard written to
    [*out_sf]; [None] is [NULL]. *)
Definition multi_safetensors_find (ms : multi_safetensors_t) (nm : string)
  : option (safetensor_t * safetensors_file_t) :=
  find_in_shards (take (num_shards ms) (shards ms)) nm.

End Reader.

(** * Notions used in the statements *)

(** ** Header text *)

(** Header text is written with ['] where the header has a double quote. *)
Fixpoint dq (s : string) : string :=
  match s with
  | String c s' => String (if is_char c "'" then DQUOTE else c) (dq s')
  | EmptyString => EmptyString
  end.

(** Runs of decimal digits and the number they spell. *)
Fixpoint all_digits (ds : string) : bool :=
  match ds with
  | String c ds' => is_digit c && all_digits ds'
  | EmptyString => true
  end.

Fixpoint decimal_from (v : Z) (ds : string) : Z :=
  match ds with
  | String c ds' => decimal_from (v * 10 + (code c - 48)) ds'
  | EmptyString => v
  end.

Definition decimal (ds : string) : Z := decimal_from 0 ds.

(** Skipping white space and then one comma, as the end of each loop body
    of the parser does. *)
Definition skip_comma (p : string) : string :=
  let p := skip_whitespace p in
  if is_char (peek p) "," then advance p else p.

(** The elements of a ["shape"] array, each with its comma, then [more]. *)
Fixpoint shape_elems (ds : list string) (more : string) : string :=
  match ds with
  | [] => more
  | d :: ds' => d +:+ String "," (shape_elems ds' more)
  end.

(** [p] goes on with a number, after white space. *)
Definition starts_number (p : string) : bool :=
  let c := peek (skip_whitespace p) in is_digit c || is_char c "-".

(** Keys and names without escapes: no NUL, quote or backslash. *)
Definition plain_char (c : ascii) : bool :=
  negb (is_char c NUL || is_char c DQUOTE || is_char c BACKSLASH).

Fixpoint plain (s : string) : bool :=
  match s with
  | String c s' => plain_char c && plain s'
  | EmptyString => true
  end.







(** Sample entries, and a nested value with a string that holds an escaped
    quote, a brace and a bracket. *)
Definition nine_dim_entry : string :=
  dq "{'dtype':'F32','shape':[1,2,3,4,5,6,7,8,9],'data_offsets':[0,4]}".

Definition eight_dim_entry : string :=
  dq "{'dtype':'F32','shape':[1,2,3,4,5,6,7,8],'data_offsets':[0,4]}".

Definition one_dim_entry : string :=
  dq "{'dtype':'F32','shape':[1],'data_offsets':[4,8]}".


(** ** Sample worlds *)

(** [n] bytes, little-endian, of [v]. *)
Fixpoint le_bytes (n : nat) (v : Z) : string :=
  match n with
  | O => EmptyString
  | S n' => String (ascii_of_N (Z.to_N (v mod 256))) (le_bytes n' (v / 256))
  end.

(** An archive: length prefix, header, data block. *)
Definition archive (header data : string) : file :=
  mk_file (le_bytes 8 (Z.of_nat (String.length header)) +:+ header +:+ data)
          true true.

Definition empty_world (budget : nat) : world :=
  mk_world ∅ ∅ budget 0 [] [] [].

Definition with_file (path : string) (f : file) (w : world) : world :=
  mk_world (<[path := f]> (w_files w)) (w_dirs w) (w_budget w) (w_next w)
           (w_live w) (w_stderr w) (w_opens w).

Definition with_dir (path : string) (entries : list string) (w : world)
  : world :=
  mk_world (w_files w) (<[path := entries]> (w_dirs w)) (w_budget w)
           (w_next w) (w_live w) (w_stderr w) (w_opens w).

(** A header that declares 100 bytes of data over a block of 50. *)
Definition overrun_header : string :=
  dq "{'a':{'dtype':'F32','shape':[25],'data_offsets':[0,100]}}".

Definition overrun_world : world :=
  with_file "m.safetensors"
            (archive overrun_header
                     "01234567890123456789012345678901234567890123456789")
            (empty_world 8).

(** A set of two shards that both hold ["w"]. *)
Definition two_shard_set : multi_safetensors_t :=
  mk_ms 0
    [ mk_sf 1 None (2%nat, "") 0 0 None
            [mk_tensor "x" DTYPE_F32 0 (replicate 8 0) 0 4;
             mk_tensor "w" DTYPE_F32 0 (replicate 8 0) 4 4];
      mk_sf 3 None (4%nat, "") 0 0 None
            [mk_tensor "w" DTYPE_BF16 0 (replicate 8 0) 0 2] ]
    2.

(** ** Floats *)

(** The IEEE-754 single that a 32-bit word stands for: sign, mantissa and
    exponent from the three fields of the word. *)
Definition f32_decode (bits : Z) : spec_float :=
  let s := Z.testbit bits 31 in
  let e := Z.land (Z.shiftr bits 23) 255 in
  let m := Z.land bits (2^23 - 1) in
  if e =? 0 then
    match m with
    | Zpos p => S754_finite s p (-149)
    | _ => S754_zero s
    end
  else if e =? 255 then
    (if m =? 0 then S754_infinity s else S754_nan)
  else
    match m + 2^23 with
    | Zpos p => S754_finite s p (e - 150)
    | _ => S754_nan
    end.

(** The rational number a finite float stands for, in lowest terms. *)
Definition float_value (x : spec_float) : option Q :=
  match x with
  | S754_zero _ => Some (Qmake 0 1)
  | S754_finite s m e =>
      Some (Qred (Qmult (inject_Z (if s then Zneg m else Zpos m))
                        (Qpower (Qmake 2 1) e)))
  | _ => None
  end.

(** ** Discovery *)

(** [quiet w w']: from [w] to [w'] nothing was opened, nothing was written to
    [stderr], and the file system is the same. *)
Definition quiet (w w' : world) : Prop :=
  w_files w' = w_files w /\ w_dirs w' = w_dirs w /\
  w_opens w' = w_opens w /\ w_stderr w' = w_stderr w.

(** The paths [multi_safetensors_open] builds in [path]. *)
Definition fast_path (model_dir : string) : string :=
  snprintf 4096 (cstr model_dir +:+ "/model.safetensors").

Definition shard_path (model_dir nm : string) : string :=
  snprintf 4096 (cstr model_dir +:+ "/" +:+ cstr nm).

(** A directory whose second shard is too short to be an archive, one that
    holds [model.safetensors] next to two shards, and one without shards. *)
Definition shard1 : string := "model-00001-of-00002.safetensors".
Definition shard2 : string := "model-00002-of-00002.safetensors".

Definition good_archive : file :=
  archive (dq "{'w':{'dtype':'BF16','shape':[2],'data_offsets':[0,4]}}") "abcd".

Definition half_open_world : world :=
  with_dir "m" ["."; ".."; shard2; shard1]
    (with_file ("m/" +:+ shard1) good_archive
       (with_file ("m/" +:+ shard2) (mk_file "abc" true true)
          (empty_world 16))).



(** The entries the scan collects. *)
Definition matching (e : string) : Prop := shard_pattern (cstr e) = true.

#[global] Instance matching_dec e : Decision (matching e).
Proof. unfold matching. apply _. Defined.

(** * Notions used in the further properties *)

(** ** Text *)

(** [r] is what is left of [p] after some bytes: a later position of the
    same pointer. *)
Inductive suffix_of (r : string) : string -> Prop :=
| suffix_here : suffix_of r r
| suffix_skip c p : suffix_of r p -> suffix_of r (String c p).

(** JSON escaping of the four bytes [parse_string] decodes. *)
Fixpoint escape (s : string) : string :=
  match s with
  | EmptyString => EmptyString
  | String c s' =>
      if is_char c DQUOTE then String BACKSLASH (String DQUOTE (escape s'))
      else if is_char c BACKSLASH then
        String BACKSLASH (String BACKSLASH (escape s'))
      else if is_char c "010" then String BACKSLASH (String "n" (escape s'))
      else if is_char c "009" then String BACKSLASH (String "t" (escape s'))
      else String c (escape s')
  end.


Definition quoted (s rest : string) : string :=
  String DQUOTE (s +:+ String DQUOTE rest).

(** A header whose last byte opens an escape sequence. *)
Definition dangling_escape_header : string :=
  dq "{'a" +:+ String BACKSLASH "".

(** ** Descriptors *)

Definition int64_range (z : Z) : Prop := - 2^63 <= z < 2^63.
Definition uint64_range (z : Z) : Prop := 0 <= z < 2^64.

(** What holds of every slot of the tensor table that the parser filled:
    the name is a C string that fits the [name] array, [ndim] is an index
    into [shape] or one past it, and the offsets are [size_t] values. *)
Record descriptor_ok (name_size : nat) (t : safetensor_t) : Prop := {
  ok_name_nul_free : cstr (name t) = name t;
  ok_name_fits : (String.length (name t) <= name_size - 1)%nat;
  ok_ndim : (ndim t <= 8)%nat;
  ok_shape_slots : length (shape t) = 8%nat;
  ok_shape_values : Forall int64_range (shape t);
  ok_data_offset : uint64_range (data_offset t);
  ok_data_size : uint64_range (data_size t)
}.

(** A header with two entries, the first with a long name. *)
Definition two_entry_header : string :=
  dq "{'encoder.w':{'dtype':'F32','shape':[1,2],'data_offsets':[0,8]},'b':{}}".

(** ** Further sample worlds *)

(** A process that already holds two blocks, and a file whose header is not
    an object. *)
Definition busy_world : world :=
  mk_world ∅ ∅ 8 5 [Heap 4; Heap 2] [] [].

Definition bad_header_world : world :=
  with_file "m.safetensors" (archive "[]" "abcd") busy_world.

Definition good_world : world :=
  with_file "m.safetensors" good_archive busy_world.

(** ** Tensor data *)

Definition product (dims : list Z) : Z := foldr Z.mul 1 dims.

(** The bytes one element takes in the mapping, for the two types that
    [safetensors_get_f32] converts. *)
Definition element_width (d : safetensor_dtype_t) : nat :=
  match d with
  | DTYPE_F32 => 4
  | DTYPE_BF16 => 2
  | _ => 0
  end.

(** What [safetensors_get_f32] makes of the bytes of one element. *)
Definition decode_element (d : safetensor_dtype_t) (bytes : string) : Z :=
  match d with
  | DTYPE_BF16 => bf16_to_f32 (le_uint 2 bytes)
  | _ => le_uint 4 bytes
  end.

(** ** Direct access to BF16 data *)

(** [safetensor_is_bf16]; [None] is a [NULL] argument. *)
Definition safetensor_is_bf16 (t : option safetensor_t) : bool :=
  match t with
  | Some t => match dtype t with DTYPE_BF16 => true | _ => false end
  | None => false
  end.

(** [safetensors_get_bf16_direct]: the offset in the mapping of the pointer
    returned; [None] is [NULL]. *)
Definition safetensors_get_bf16_direct (sf : option safetensors_file_t)
    (t : option safetensor_t) : option Z :=
  match sf, t with
  | Some sf, Some t =>
      match dtype t with
      | DTYPE_BF16 => Some (safetensors_data sf t)
      | _ => None
      end
  | _, _ => None
  end.

(** ** Metadata *)





(** ** Resources of a handle *)

(** What a handle holds, in the order [safetensors_open] acquired it, the
    latest first: the copy of the header, the copy of the path, the
    structure itself and the mapping. *)
Definition owned (sf : safetensors_file_t) : list resource :=
  option_list (Heap ∘ fst <$> header_json sf)
  ++ option_list (Heap ∘ fst <$> path sf)
  ++ [Heap (sf_block sf); Mapping (fst (data sf))].

(** What a list of handles holds, the handle opened last first. *)
Definition stack (sfs : list safetensors_file_t) : list resource :=
  concat (owned <$> reverse sfs).

Definition resource_id (r : resource) : nat :=
  match r with
  | Fd i | Mapping i | Heap i | DirStream i => i
  end.

(** Handles opened one after the other from resource id [lo] on: each holds
    the four resources that follow the descriptor its open used. *)
Inductive chain : nat -> list safetensors_file_t -> Prop :=
| chain_nil lo : chain lo []
| chain_cons lo n sf sfs :
    (lo <= n)%nat ->
    owned sf = [Heap (n + 4); Heap (n + 3); Heap (n + 2); Mapping (n + 1)] ->
    chain (n + 5) sfs ->
    chain lo (sf :: sfs).

(** A directory with two shards that open, listed out of order. *)
Definition two_shard_world : world :=
  with_dir "m" [shard2; "."; shard1]
    (with_file ("m/" +:+ shard1) good_archive
       (with_file ("m/" +:+ shard2) good_archive busy_world)).

(** ** Entries as they are written *)

(** A decimal number: one digit at least. *)
Definition number (d : string) : bool :=
  all_digits d && negb (String.length d =? 0)%nat.

(** The elements of an array, with a comma between two of them. *)
Fixpoint comma_separated (ds : list string) (more : string) : string :=
  match ds with
  | [] => more
  | d :: ds' =>
      d +:+ match ds' with
            | [] => more
            | _ :: _ => String "," (comma_separated ds' more)
            end
  end.

(** The text of a tensor entry with its three keys, followed by [more]. *)
Definition entry_text (dtype_str : string) (dims : list string)
    (s e more : string) : string :=
  dq "{'dtype':"
  +:+ quoted dtype_str
        (dq ",'shape':["
         +:+ comma_separated dims
               (dq "],'data_offsets':["
                +:+ s +:+ String "," (e +:+ String "]" (String "}" more)))).

(** A tensor as the writer of a header describes it: name, type string,
    dimensions and the two offsets, as decimal numbers. *)
Record written_entry : Type := mk_written {
  e_name : string;
  e_dtype : string;
  e_dims : list string;
  e_start : string;
  e_end : string
}.

Definition valid_entry (e : written_entry) : bool :=
  plain (e_name e) && (String.length (e_name e) <? 256)%nat
  && negb (streq (e_name e) "__metadata__")
  && plain (e_dtype e) && (String.length (e_dtype e) <? 32)%nat
  && forallb number (e_dims e) && (length (e_dims e) <=? 8)%nat
  && all_digits (e_start e) && all_digits (e_end e).

(** The members of the header object, with a comma between two of them and
    the closing brace at the end. *)
Fixpoint entries_text (es : list written_entry) : string :=
  match es with
  | [] => "}"
  | e :: es' =>
      quoted (e_name e)
        (String ":"
           (entry_text (e_dtype e) (e_dims e) (e_start e) (e_end e)
              match es' with
              | [] => "}"
              | _ :: _ => String "," (entries_text es')
              end))
  end.

Definition header_text (es : list written_entry) : string :=
  String "{" (entries_text es).

(** The descriptor that stands for a written entry. *)
Definition descriptor_of (name_size : nat) (e : written_entry) : safetensor_t :=
  mk_tensor (truncate (name_size - 1) (e_name e))
            (parse_dtype (e_dtype e))
            (length (e_dims e))
            (((fun d => wrap_s64 (decimal d)) <$> e_dims e)
             ++ replicate (8 - length (e_dims e)) 0)
            (decimal (e_start e) mod 2^64)
            ((decimal (e_end e) - decimal (e_start e)) mod 2^64).

(** Two entries as a checkpoint has them. *)
Definition sample_entries : list written_entry :=
  [ mk_written "encoder.w" "BF16" ["2"; "3"] "0" "12";
    mk_written "b" "F32" [] "12" "16" ].

(** ** Members of an entry *)

(** The three members the parser knows, with their values as written. *)
Inductive member : Type :=
| MDtype (s : string)
| MShape (dims : list string)
| MOffsets (s e : string).

Definition valid_member (m : member) : bool :=
  match m with
  | MDtype s => plain s && (String.length s <? 32)%nat
  | MShape dims => forallb number dims && (length dims <=? 8)%nat
  | MOffsets s e => all_digits s && all_digits e
  end.

Definition member_text (m : member) (more : string) : string :=
  match m with
  | MDtype s => dq "'dtype':" +:+ quoted s more
  | MShape dims => dq "'shape':[" +:+ comma_separated dims (String "]" more)
  | MOffsets s e =>
      dq "'data_offsets':[" +:+ s +:+ String "," (e +:+ String "]" more)
  end.

(** The members of an entry with a comma between two of them, the closing
    brace, and [more]. *)
Fixpoint members_text (ms : list member) (more : string) : string :=
  match ms with
  | [] => String "}" more
  | m :: ms' =>
      member_text m
        match ms' with
        | [] => String "}" more
        | _ :: _ => String "," (members_text ms' more)
        end
  end.

(** What a member does to the descriptor. *)
Definition apply_member (t : safetensor_t) (m : member) : safetensor_t :=
  match m with
  | MDtype s => set_dtype t (parse_dtype s)
  | MShape dims =>
      foldl push_dim (set_ndim t 0) ((fun d => wrap_s64 (decimal d)) <$> dims)
  | MOffsets s e =>
      set_offsets t (decimal s mod 2^64) ((decimal e - decimal s) mod 2^64)
  end.

(** ** Data as it is written *)

(** The bytes of a run of elements of type [d], each value little-endian
    in [element_width d] bytes. *)
Definition data_block (d : safetensor_dtype_t) (vs : list Z) : string :=
  foldr (fun v s => le_bytes (element_width d) v +:+ s) "" vs.

(** The bits of the float made of a stored value. *)
Definition widen (d : safetensor_dtype_t) (v : Z) : Z :=
  match d with
  | DTYPE_BF16 => bf16_to_f32 v
  | _ => v
  end.

(** ** Text in front of a member or an entry *)

(** The members [ms], each followed by its comma, in front of [tail]. *)
Definition members_then (ms : list member) (tail : string) : string :=
  foldr (fun m acc => member_text m (String "," acc)) tail ms.

(** The entries [es], each followed by its comma, in front of [tail]. *)
Definition entries_then (es : list written_entry) (tail : string) : string :=
  foldr (fun e acc =>
           quoted (e_name e)
             (String ":"
                (entry_text (e_dtype e) (e_dims e) (e_start e) (e_end e)
                            (String "," acc))))
        tail es.

(** The slot as [parse_tensor_entry] clears it. *)
Definition cleared (t : safetensor_t) : safetensor_t :=
  mk_tensor (name t) DTYPE_UNKNOWN 0 (shape t) 0 0.

(** ** More shards than the shard table holds *)

Definition numbered_shard (d : string) : string :=
  "model-" +:+ d +:+ ".safetensors".

Definition nine_shards : list string :=
  numbered_shard <$> ["1"; "2"; "3"; "4"; "5"; "6"; "7"; "8"; "9"].

(** A directory with the nine shards, all of them archives that open,
    listed in the order [listing]. *)
Definition nine_shard_world (listing : list string) : world :=
  with_dir "m" listing
    (foldr (fun nm w => with_file ("m/" +:+ nm) good_archive w)
           (empty_world 40) nine_shards).

(** ** A key that fills the key buffer *)


(** * Properties *)

(** ** The parser consumes its input: lengths and fuel *)

Local Open Scope nat_scope.

Lemma skip_whitespace_length p :
  String.length (skip_whitespace p) <= String.length p.
Proof.
  induction p as [|c p IH]; simpl; [lia|].
  destruct (is_space c); simpl; lia.
Qed.

Lemma advance_length p : String.length (advance p) <= String.length p.
Proof. destruct p; simpl; lia. Qed.

Lemma advance_length_lt p :
  peek p <> NUL -> String.length (advance p) < String.length p.
Proof. destruct p; simpl; [congruence | lia]. Qed.

Lemma is_char_eq c d : is_char c d = true <-> c = d.
Proof. apply Ascii.eqb_eq. Qed.

Lemma is_char_neq c d : is_char c d = false <-> c <> d.
Proof. apply Ascii.eqb_neq. Qed.

Lemma parse_string_loop_length p room out rest :
  parse_string_loop p room = Ok (out, rest) ->
  String.length rest < String.length p.
Proof.
  remember (String.length p) as n eqn:Hn.
  revert p Hn room out rest.
  induction n as [n IH] using lt_wf_ind; intros p -> room out rest.
  destruct p as [|c p]; simpl; [done|].
  destruct (is_char c NUL); [done|].
  destruct (is_char c DQUOTE); [intros [= <- <-]; lia|].
  destruct room as [|room]; [done|].
  destruct (is_char c BACKSLASH).
  - destruct p as [|d p]; [done|].
    destruct (parse_string_loop p room) as [[o r]| | |] eqn:E; simpl; try done.
    intros [= <- <-]. eapply IH in E; [| |reflexivity]; simpl in *; lia.
  - destruct (parse_string_loop p room) as [[o r]| | |] eqn:E; simpl; try done.
    intros [= <- <-]. eapply IH in E; [| |reflexivity]; simpl in *; lia.
Qed.

Lemma parse_string_length p max_len out rest :
  parse_string p max_len = Ok (out, rest) ->
  String.length rest < String.length p.
Proof.
  unfold parse_string. destruct (negb _); [done|].
  intros H%parse_string_loop_length.
  pose proof (skip_whitespace_length p).
  pose proof (advance_length (skip_whitespace p)). lia.
Qed.

Lemma parse_digits_length p v :
  String.length (snd (parse_digits p v)) <= String.length p.
Proof.
  revert v. induction p as [|c p IH]; intros v; simpl; [lia|].
  destruct (is_digit c); simpl; [|lia].
  specialize (IH (wrap_s64 (v * 10 + (code c - 48)))). lia.
Qed.

Lemma parse_int_length p :
  String.length (snd (parse_int p)) <= String.length p.
Proof.
  unfold parse_int.
  pose proof (skip_whitespace_length p).
  pose proof (advance_length (skip_whitespace p)).
  destruct (is_char _ "-");
    match goal with |- context [parse_digits ?q ?v] =>
      pose proof (parse_digits_length q v);
      destruct (parse_digits q v) end; simpl in *; lia.
Qed.

Lemma skip_comma_length p :
  String.length (if is_char (peek (skip_whitespace p)) ","
                 then advance (skip_whitespace p) else skip_whitespace p)
  <= String.length p.
Proof.
  pose proof (skip_whitespace_length p).
  pose proof (advance_length (skip_whitespace p)).
  destruct (is_char _ _); lia.
Qed.

Lemma shape_loop_length free p t :
  String.length (fst (shape_loop free p t)) <= String.length p.
Proof.
  revert p t. induction free as [|free IH]; intros p t; simpl; [lia|].
  destruct (_ || _); simpl; [lia|].
  pose proof (skip_whitespace_length p).
  destruct (is_char (peek (skip_whitespace p)) "]"); simpl; [lia|].
  pose proof (parse_int_length (skip_whitespace p)).
  destruct (parse_int (skip_whitespace p)) as [v p1]; simpl in *.
  pose proof (skip_comma_length p1).
  match goal with |- context [shape_loop free ?q ?u] =>
    specialize (IH q u) end. lia.
Qed.

Lemma skip_value_length p depth in_string :
  String.length (skip_value p depth in_string) <= String.length p.
Proof.
  remember (String.length p) as n eqn:Hn.
  revert p Hn depth in_string.
  induction n as [n IH] using lt_wf_ind; intros p -> depth in_string.
  assert (Hrec : forall q d b, String.length q < String.length p ->
                 String.length (skip_value q d b) <= String.length q)
    by (intros q d b Hq; eapply IH; [exact Hq | reflexivity]).
  clear IH. destruct p as [|c p]; simpl in *; [lia|].
  repeat (case_match; simpl; try lia);
    try (match goal with |- context [skip_value ?q ?d ?b] =>
           specialize (Hrec q d b) end; simpl in *; lia).
Qed.

Lemma entry_value_length key p t p' t' :
  entry_value key p t = Ok (p', t') -> String.length p' <= String.length p.
Proof.
  unfold entry_value.
  destruct (streq key "dtype").
  { destruct (parse_string p 32) as [[d p1]| | |] eqn:E; simpl; try done.
    intros [= <- <-]. apply parse_string_length in E. lia. }
  destruct (streq key "shape").
  { destruct (negb _); [done|].
    pose proof (shape_loop_length 8 (advance p) (set_ndim t 0)) as Hs.
    destruct (shape_loop 8 (advance p) (set_ndim t 0)) as [p1 t1]; simpl in Hs.
    pose proof (advance_length p). pose proof (advance_length p1).
    intros [= <- <-]. destruct (is_char (peek p1) "]"); lia. }
  destruct (streq key "data_offsets").
  { destruct (negb _); [done|].
    pose proof (advance_length p).
    pose proof (skip_whitespace_length (advance p)).
    pose proof (parse_int_length (skip_whitespace (advance p))) as Hi1.
    destruct (parse_int (skip_whitespace (advance p))) as [v1 p1]; simpl in Hi1.
    pose proof (skip_comma_length p1) as Hc.
    set (p2 := if is_char (peek (skip_whitespace p1)) ","
               then advance (skip_whitespace p1) else skip_whitespace p1) in *.
    pose proof (skip_whitespace_length p2).
    pose proof (parse_int_length (skip_whitespace p2)) as Hi2.
    destruct (parse_int (skip_whitespace p2)) as [v2 p3]; simpl in Hi2.
    pose proof (skip_whitespace_length p3).
    pose proof (advance_length (skip_whitespace p3)).
    intros [= <- <-]. destruct (is_char _ "]"); lia. }
  intros [= <- <-]. apply skip_value_length.
Qed.

(** Any fuel above the length of the input gives the same run of the loop
    of [parse_tensor_entry]. *)
Lemma entry_loop_fuel f1 :
  forall f2 p t,
    String.length p < f1 -> String.length p < f2 ->
    entry_loop f1 p t = entry_loop f2 p t.
Proof.
  induction f1 as [|f1 IH]; intros [|f2] p t H1 H2; try lia. simpl.
  destruct (_ || _); [done|].
  destruct (is_char (peek (skip_whitespace p)) "}"); [done|].
  pose proof (skip_whitespace_length p).
  destruct (parse_string _ 64) as [[key p1]| | |] eqn:E1; simpl; try done.
  apply parse_string_length in E1.
  destruct (negb _); [done|].
  pose proof (skip_whitespace_length p1).
  pose proof (advance_length (skip_whitespace p1)).
  pose proof (skip_whitespace_length (advance (skip_whitespace p1))).
  destruct (entry_value key _ t) as [[p3 t3]| | |] eqn:E2; simpl; try done.
  apply entry_value_length in E2.
  pose proof (skip_comma_length p3).
  apply IH; lia.
Qed.

Lemma entry_loop_length f :
  forall p t p' t',
    entry_loop f p t = Ok (p', t') -> String.length p' <= String.length p.
Proof.
  induction f as [|f IH]; intros p t p' t'; simpl; [done|].
  destruct (_ || _); [intros [= <- <-]; lia|].
  pose proof (skip_whitespace_length p).
  destruct (is_char (peek (skip_whitespace p)) "}"); [intros [= <- <-]; lia|].
  destruct (parse_string _ 64) as [[key p1]| | |] eqn:E1; simpl; try done.
  apply parse_string_length in E1.
  destruct (negb _); [done|].
  pose proof (skip_whitespace_length p1).
  pose proof (advance_length (skip_whitespace p1)).
  pose proof (skip_whitespace_length (advance (skip_whitespace p1))).
  destruct (entry_value key _ t) as [[p3 t3]| | |] eqn:E2; simpl; try done.
  apply entry_value_length in E2.
  pose proof (skip_comma_length p3).
  intros E3%IH. lia.
Qed.

Lemma parse_string_loop_fuel p :
  forall room, parse_string_loop p room <> OutOfFuel.
Proof.
  remember (String.length p) as n eqn:Hn. revert p Hn.
  induction n as [n IH] using lt_wf_ind; intros p -> room.
  destruct p as [|c p]; simpl; [done|].
  destruct (is_char c NUL); [done|].
  destruct (is_char c DQUOTE); [done|].
  destruct room as [|room]; [done|].
  destruct (is_char c BACKSLASH).
  - destruct p as [|d p]; [done|].
    pose proof (IH (String.length p) ltac:(simpl; lia) p eq_refl room).
    destruct (parse_string_loop p room) as [[o r]| | |]; done.
  - pose proof (IH (String.length p) ltac:(simpl; lia) p eq_refl room).
    destruct (parse_string_loop p room) as [[o r]| | |]; done.
Qed.

Lemma parse_string_fuel p max_len : parse_string p max_len <> OutOfFuel.
Proof.
  unfold parse_string. case_match; [done|]. apply parse_string_loop_fuel.
Qed.

Lemma entry_value_fuel key p t : entry_value key p t <> OutOfFuel.
Proof.
  unfold entry_value. repeat (case_match; try done).
  pose proof (parse_string_fuel p 32).
  destruct (parse_string p 32) as [[? ?]| | |]; done.
Qed.

Lemma entry_loop_enough_fuel f :
  forall p t, String.length p < f -> entry_loop f p t <> OutOfFuel.
Proof.
  induction f as [|f IH]; intros p t Hf; [lia|]. simpl.
  destruct (_ || _); [done|].
  destruct (is_char (peek (skip_whitespace p)) "}"); [done|].
  pose proof (skip_whitespace_length p).
  pose proof (parse_string_fuel (skip_whitespace p) 64).
  destruct (parse_string _ 64) as [[key p1]| | |] eqn:E1; simpl; try done.
  apply parse_string_length in E1.
  destruct (negb _); [done|].
  pose proof (skip_whitespace_length p1).
  pose proof (advance_length (skip_whitespace p1)).
  pose proof (skip_whitespace_length (advance (skip_whitespace p1))).
  match goal with |- context [entry_value ?k ?q ?u] =>
    pose proof (entry_value_fuel k q u) end.
  destruct (entry_value key _ t) as [[p3 t3]| | |] eqn:E2; simpl; try done.
  apply entry_value_length in E2.
  pose proof (skip_comma_length p3). apply IH; lia.
Qed.

Lemma parse_tensor_entry_length p t p' t' :
  parse_tensor_entry p t = Ok (p', t') -> String.length p' < String.length p.
Proof.
  unfold parse_tensor_entry.
  destruct (negb _) eqn:E; [done|].
  apply negb_false_iff, is_char_eq in E.
  pose proof (skip_whitespace_length p).
  assert (String.length (advance (skip_whitespace p))
          < String.length (skip_whitespace p))
    by (apply advance_length_lt; rewrite E; done).
  destruct (entry_loop _ _ _) as [[p1 t1]| | |] eqn:E1; simpl; try done.
  apply entry_loop_length in E1. pose proof (advance_length p1).
  intros [= <- <-]. destruct (is_char _ _); lia.
Qed.

Lemma parse_tensor_entry_fuel p t : parse_tensor_entry p t <> OutOfFuel.
Proof.
  unfold parse_tensor_entry. case_match; [done|].
  match goal with |- context [entry_loop ?f ?q ?u] =>
    pose proof (entry_loop_enough_fuel f q u ltac:(lia));
    destruct (entry_loop f q u) as [[? ?]| | |] end; done.
Qed.

Lemma skip_metadata_length p depth :
  String.length (skip_metadata p depth) <= String.length p.
Proof.
  revert depth. induction p as [|c p IH]; intros depth; simpl; [lia|].
  repeat (case_match; simpl; try lia);
    match goal with |- context [skip_metadata p ?d] => specialize (IH d) end;
    lia.
Qed.

Section ReaderFuel.

Variable SAFETENSORS_MAX_TENSORS : nat.
Variable NAME_SIZE : nat.

(** Any fuel above the length of the input gives the same run of the loop
    of [parse_header]. *)
Lemma header_loop_fuel f1 :
  forall f2 p acc,
    String.length p < f1 -> String.length p < f2 ->
    header_loop SAFETENSORS_MAX_TENSORS NAME_SIZE f1 p acc
    = header_loop SAFETENSORS_MAX_TENSORS NAME_SIZE f2 p acc.
Proof.
  induction f1 as [|f1 IH]; intros [|f2] p acc H1 H2; try lia. simpl.
  destruct (_ || _); [done|].
  destruct (is_char (peek (skip_whitespace p)) "}"); [done|].
  pose proof (skip_whitespace_length p).
  destruct (parse_string _ 256) as [[nm p1]| | |] eqn:E1; simpl; try done.
  apply parse_string_length in E1.
  destruct (negb _); [done|].
  pose proof (skip_whitespace_length p1).
  pose proof (advance_length (skip_whitespace p1)).
  destruct (streq nm "__metadata__").
  - pose proof (skip_metadata_length (advance (skip_whitespace p1)) 0%Z).
    pose proof (skip_comma_length
                  (skip_metadata (advance (skip_whitespace p1)) 0)).
    apply IH; lia.
  - destruct (parse_tensor_entry _ _) as [[p3 t3]| | |] eqn:E2; simpl; try done.
    apply parse_tensor_entry_length in E2.
    pose proof (skip_comma_length p3). apply IH; lia.
Qed.

Lemma header_loop_enough_fuel f :
  forall p acc,
    String.length p < f ->
    header_loop SAFETENSORS_MAX_TENSORS NAME_SIZE f p acc <> OutOfFuel.
Proof.
  induction f as [|f IH]; intros p acc Hf; [lia|]. simpl.
  destruct (_ || _); [done|].
  destruct (is_char (peek (skip_whitespace p)) "}"); [done|].
  pose proof (skip_whitespace_length p).
  pose proof (parse_string_fuel (skip_whitespace p) 256).
  destruct (parse_string _ 256) as [[nm p1]| | |] eqn:E1; simpl; try done.
  apply parse_string_length in E1.
  destruct (negb _); [done|].
  pose proof (skip_whitespace_length p1).
  pose proof (advance_length (skip_whitespace p1)).
  destruct (streq nm "__metadata__").
  - pose proof (skip_metadata_length (advance (skip_whitespace p1)) 0%Z).
    pose proof (skip_comma_length
                  (skip_metadata (advance (skip_whitespace p1)) 0)).
    apply IH; lia.
  - match goal with |- context [parse_tensor_entry ?q ?u] =>
      pose proof (parse_tensor_entry_fuel q u) end.
    destruct (parse_tensor_entry _ _) as [[p3 t3]| | |] eqn:E2; simpl; try done.
    apply parse_tensor_entry_length in E2.
    pose proof (skip_comma_length p3). apply IH; lia.
Qed.

(** The fuel given to the loops is enough on every header. *)
Lemma parse_header_terminates json :
  parse_header SAFETENSORS_MAX_TENSORS NAME_SIZE json <> OutOfFuel.
Proof.
  unfold parse_header. case_match; [done|].
  apply header_loop_enough_fuel. lia.
Qed.

End ReaderFuel.

Local Open Scope Z_scope.

(** ** Numbers: [parse_int] and ["data_offsets"] *)

Lemma wrap_s64_mod z : wrap_s64 z mod 2^64 = z mod 2^64.
Proof.
  unfold wrap_s64.
  rewrite Zminus_mod_idemp_l. f_equal. lia.
Qed.

Lemma wrap_s64_eq_mod a b : a mod 2^64 = b mod 2^64 -> wrap_s64 a = wrap_s64 b.
Proof.
  intros H. unfold wrap_s64. f_equal.
  rewrite <- (Zplus_mod_idemp_l a), <- (Zplus_mod_idemp_l b). by rewrite H.
Qed.

Lemma wrap_s64_step a d :
  wrap_s64 (wrap_s64 a * 10 + d) = wrap_s64 (a * 10 + d).
Proof.
  apply wrap_s64_eq_mod.
  rewrite <- Zplus_mod_idemp_l, <- Zmult_mod_idemp_l, wrap_s64_mod.
  by rewrite Zmult_mod_idemp_l, Zplus_mod_idemp_l.
Qed.

Lemma parse_digits_app ds rest v :
  all_digits ds = true -> is_digit (peek rest) = false ->
  parse_digits (ds +:+ rest) (wrap_s64 v)
  = (wrap_s64 (decimal_from v ds), rest).
Proof.
  intros Hd Hr. revert v Hd.
  induction ds as [|c ds IH]; intros v Hd; simpl in *.
  - destruct rest as [|c r]; simpl in *.
    + reflexivity.
    + by rewrite Hr.
  - apply andb_true_iff in Hd as [-> Hd].
    rewrite wrap_s64_step. by apply IH.
Qed.

Lemma all_digits_peek ds rest :
  all_digits ds = true ->
  is_space (peek rest) = false -> is_char (peek rest) "-" = false ->
  is_space (peek (ds +:+ rest)) = false /\
  is_char (peek (ds +:+ rest)) "-" = false.
Proof.
  destruct ds as [|c ds]; simpl; [done|].
  intros [Hc _]%andb_true_iff _ _. unfold is_digit in Hc.
  apply andb_true_iff in Hc as [H1 H2].
  apply Z.leb_le in H1, H2.
  split.
  - unfold is_space. rewrite !orb_false_iff. repeat split;
      apply is_char_neq; intros ->; vm_compute in H1; done.
  - apply is_char_neq; intros ->. vm_compute in H1. done.
Qed.

Lemma skip_whitespace_id p : is_space (peek p) = false -> skip_whitespace p = p.
Proof. destruct p as [|c p]; simpl; [done|]. by intros ->. Qed.

(** [parse_int] on a run of digits followed by a byte that is no digit. *)
Lemma parse_int_digits ds rest :
  all_digits ds = true ->
  is_digit (peek rest) = false ->
  is_space (peek rest) = false -> is_char (peek rest) "-" = false ->
  parse_int (ds +:+ rest) = (wrap_s64 (decimal ds), rest).
Proof.
  intros Hd H1 H2 H3. unfold parse_int.
  destruct (all_digits_peek ds rest Hd H2 H3) as [Hs Hm].
  rewrite (skip_whitespace_id _ Hs), Hm.
  change 0 with (wrap_s64 0). by rewrite parse_digits_app.
Qed.

Lemma entry_loop_member f key p p1 t :
  is_char (peek p) NUL || is_char (peek p) "}" = false ->
  is_space (peek p) = false ->
  parse_string p 64 = Ok (key, String ":" p1) ->
  entry_loop (S f) p t
  = entry_value key (skip_whitespace p1) t >>= fun '(p, t) =>
    entry_loop f (skip_comma p) t.
Proof.
  intros H1 H2 H3. simpl. rewrite H1, (skip_whitespace_id _ H2).
  apply orb_false_iff in H1 as [_ ->]. rewrite H3. reflexivity.
Qed.

Lemma entry_loop_end f p t :
  is_char (peek p) NUL || is_char (peek p) "}" = true ->
  entry_loop (S f) p t = Ok (p, t).
Proof. intros H. simpl. by rewrite H. Qed.

#[local] Arguments entry_loop : simpl never.
#[local] Arguments String.length : simpl never.

#[local] Arguments String.append !_ _ / : simpl nomatch.

Lemma length_String c p : String.length (String c p) = S (String.length p).
Proof. reflexivity. Qed.

Lemma wrap_u64_s64 z : wrap_u64 (wrap_s64 z) = z mod 2^64.
Proof. apply wrap_s64_mod. Qed.


(** The ["data_offsets"] branch on two runs of digits. *)
Lemma entry_value_data_offsets s e rest t :
  all_digits s = true -> all_digits e = true ->
  entry_value "data_offsets"
              (String "[" (s +:+ String "," (e +:+ String "]" rest))) t
  = Ok (rest, set_offsets t (decimal s mod 2^64)
                          ((decimal e - decimal s) mod 2^64)).
Proof.
  intros Hs He. unfold entry_value.
  change (streq "data_offsets" "dtype") with false.
  change (streq "data_offsets" "shape") with false.
  change (streq "data_offsets" "data_offsets") with true.
  cbn [peek advance is_char Ascii.eqb Bool.eqb negb].
  destruct (all_digits_peek s (String "," (e +:+ String "]" rest)) Hs
              eq_refl eq_refl) as [Hsp _].
  rewrite (skip_whitespace_id _ Hsp).
  rewrite (parse_int_digits s (String "," (e +:+ String "]" rest)) Hs
             eq_refl eq_refl eq_refl).
  cbn [skip_whitespace is_space is_char Ascii.eqb Bool.eqb orb peek advance].
  destruct (all_digits_peek e (String "]" rest) He eq_refl eq_refl) as [Hep _].
  rewrite (skip_whitespace_id _ Hep).
  rewrite (parse_int_digits e (String "]" rest) He eq_refl eq_refl eq_refl).
  cbn [skip_whitespace is_space is_char Ascii.eqb Bool.eqb orb peek advance].
  rewrite !wrap_u64_s64. unfold wrap_u64.
  by rewrite Zminus_mod_idemp_l, Zminus_mod_idemp_r.
Qed.



(** ** The bound on ["shape"] *)

Lemma peek_digits_app (P : ascii -> bool) ds rest :
  (forall c, is_digit c = true -> P c = false) ->
  all_digits ds = true -> P (peek rest) = false ->
  P (peek (ds +:+ rest)) = false.
Proof.
  intros HP. destruct ds as [|c ds]; simpl; [done|].
  intros [Hc _]%andb_true_iff _. by apply HP.
Qed.

Ltac digit_is_not :=
  let c := fresh "c" in let Hc := fresh "Hc" in
  intros c Hc; unfold is_space; rewrite ?orb_false_iff; repeat split;
  apply is_char_neq; intros ->; vm_compute in Hc; discriminate Hc.

Lemma shape_loop_elems ds more t :
  forallb all_digits ds = true ->
  shape_loop (length ds) (shape_elems ds more) t
  = (more, foldl push_dim t ((fun d => wrap_s64 (decimal d)) <$> ds)).
Proof.
  revert t. induction ds as [|d ds IH]; intros t Hds; [done|].
  simpl in Hds. apply andb_true_iff in Hds as [Hd Hds].
  cbn [length shape_elems shape_loop].
  set (rest := String "," (shape_elems ds more)).
  rewrite (peek_digits_app (fun c => is_char c NUL || is_char c "]") d rest)
    by (try done; digit_is_not).
  rewrite skip_whitespace_id
    by (apply (peek_digits_app is_space); try done; digit_is_not).
  rewrite (peek_digits_app (fun c => is_char c "]") d rest)
    by (try done; digit_is_not).
  rewrite (parse_int_digits d rest Hd eq_refl eq_refl eq_refl).
  subst rest.
  cbn [skip_whitespace is_space is_char Ascii.eqb Bool.eqb orb peek advance].
  rewrite IH by done. reflexivity.
Qed.

Lemma foldl_push_dim vs :
  forall t,
    (ndim t + length vs <= length (shape t))%nat ->
    ndim (foldl push_dim t vs) = (ndim t + length vs)%nat /\
    shape (foldl push_dim t vs)
    = take (ndim t) (shape t) ++ vs ++ drop (ndim t + length vs) (shape t).
Proof.
  induction vs as [|v vs IH]; intros t Hlen; simpl in *.
  - rewrite Nat.add_0_r. split; [done|]. by rewrite take_drop.
  - destruct (IH (push_dim t v)) as [-> ->].
    { simpl. rewrite length_insert. lia. }
    simpl. split; [lia|].
    rewrite (take_S_r _ _ v) by (apply list_lookup_insert_eq; lia).
    rewrite take_insert_ge by lia.
    rewrite drop_insert_lt by lia.
    rewrite <- app_assoc. simpl. by rewrite Nat.add_succ_r.
Qed.

(** [parse_string] on a quoted run of plain bytes that fits the buffer. *)
Lemma parse_string_loop_plain s rest :
  forall room,
    plain s = true -> (String.length s <= room)%nat ->
    parse_string_loop (s +:+ String DQUOTE rest) room = Ok (s, rest).
Proof.
  induction s as [|c s IH]; intros room Hs Hlen.
  - reflexivity.
  - cbn [plain] in Hs. apply andb_true_iff in Hs as [Hc Hs].
    unfold plain_char in Hc. apply negb_true_iff in Hc.
    rewrite !orb_false_iff in Hc. destruct Hc as [[H1 H2] H3].
    rewrite length_String in Hlen. destruct room as [|room]; [lia|].
    cbn [String.append parse_string_loop]. rewrite H1, H2, H3.
    rewrite IH by (done || lia). reflexivity.
Qed.

Lemma parse_string_quoted s rest max_len :
  plain s = true -> (String.length s < max_len)%nat ->
  parse_string (String DQUOTE (s +:+ String DQUOTE rest)) max_len
  = Ok (s, rest).
Proof.
  intros Hs Hlen. unfold parse_string.
  cbn [skip_whitespace is_space is_char Ascii.eqb Bool.eqb orb peek advance
       DQUOTE negb].
  apply parse_string_loop_plain; [done | lia].
Qed.

Lemma skip_whitespace_idem p :
  skip_whitespace (skip_whitespace p) = skip_whitespace p.
Proof.
  induction p as [|c p IH]; simpl; [done|].
  destruct (is_space c) eqn:E; [done|]. simpl. by rewrite E.
Qed.

Lemma starts_number_peek (P : ascii -> bool) p :
  (forall c, is_digit c = true -> P c = false) -> P "-"%char = false ->
  starts_number p = true -> P (peek (skip_whitespace p)) = false.
Proof.
  intros Hd Hm. unfold starts_number.
  intros [H|H%is_char_eq]%orb_true_iff; [by apply Hd | by rewrite H].
Qed.

Lemma starts_number_not_bracket p :
  starts_number p = true -> is_char (peek p) "]" = false.
Proof.
  intros H. destruct p as [|c p]; [done|]. simpl.
  destruct (is_char c "]") eqn:E; [|done].
  apply is_char_eq in E. subst. discriminate H.
Qed.

(** A number where a key is expected: [parse_string] finds no quote. *)
Lemma entry_loop_number f p t :
  starts_number p = true -> entry_loop (S f) (skip_comma p) t = Fail.
Proof.
  intros H. unfold skip_comma.
  rewrite (starts_number_peek (fun c => is_char c ",") p)
    by (done || digit_is_not).
  change (entry_loop (S f) ?q t) with
    (if is_char (peek q) NUL || is_char (peek q) "}" then Ok (q, t)
     else if is_char (peek (skip_whitespace q)) "}"
          then Ok (skip_whitespace q, t)
          else parse_string (skip_whitespace q) 64 >>= fun '(key, p) =>
               if negb (is_char (peek (skip_whitespace p)) ":") then Fail
               else entry_value
                      key (skip_whitespace (advance (skip_whitespace p))) t
                    >>= fun '(p, t) => entry_loop f (skip_comma p) t).
  rewrite skip_whitespace_idem.
  rewrite (starts_number_peek (fun c => is_char c NUL || is_char c "}") p)
    by (done || digit_is_not).
  rewrite (starts_number_peek (fun c => is_char c "}") p)
    by (done || digit_is_not).
  unfold parse_string. rewrite skip_whitespace_idem.
  rewrite (starts_number_peek (fun c => is_char c DQUOTE) p)
    by (done || digit_is_not).
  reflexivity.
Qed.

Section ShapeCap.

Variable SAFETENSORS_MAX_TENSORS : nat.
Variable NAME_SIZE : nat.

Lemma header_loop_entry f nm p p1 acc :
  (length acc < SAFETENSORS_MAX_TENSORS)%nat ->
  is_char (peek p) NUL || is_char (peek p) "}" = false ->
  is_space (peek p) = false ->
  parse_string p 256 = Ok (nm, String ":" p1) ->
  streq nm "__metadata__" = false ->
  header_loop SAFETENSORS_MAX_TENSORS NAME_SIZE (S f) p acc
  = parse_tensor_entry p1 (fresh_slot NAME_SIZE nm) >>= fun '(p, t) =>
    header_loop SAFETENSORS_MAX_TENSORS NAME_SIZE f (skip_comma p) (acc ++ [t]).
Proof.
  intros Hacc H1 H2 H3 H4. cbn [header_loop].
  apply Nat.ltb_lt in Hacc. rewrite Hacc, H1, (skip_whitespace_id _ H2).
  apply orb_false_iff in H1 as [_ ->]. cbn [negb orb].
  rewrite H3. cbn [res_bind skip_whitespace is_space is_char Ascii.eqb
                   Bool.eqb orb peek advance negb].
  rewrite H4. reflexivity.
Qed.

End ShapeCap.

(** C3 does not hold: nine elements in ["shape"] make the entry, and the
    header, a parse failure; eight elements parse. *)
Lemma nine_dimensions_fail_the_parse :
  parse_tensor_entry nine_dim_entry
                     (mk_tensor "w" DTYPE_F32 0 (replicate 8 0) 0 0)
  = Fail /\
  parse_header 16 256
    (dq "{'w':" +:+ nine_dim_entry +:+ dq ",'v':" +:+ one_dim_entry +:+ "}")
  = Fail /\
  parse_header 16 256
    (dq "{'w':" +:+ eight_dim_entry +:+ dq ",'v':" +:+ one_dim_entry +:+ "}")
  = Ok [mk_tensor "w" DTYPE_F32 8 [1; 2; 3; 4; 5; 6; 7; 8] 0 4;
        mk_tensor "v" DTYPE_F32 1 [1; 0; 0; 0; 0; 0; 0; 0] 4 4].
Proof. repeat split; vm_compute; reflexivity. Qed.

(** ** Values of unknown keys *)






Lemma length_append a b :
  String.length (a +:+ b) = (String.length a + String.length b)%nat.
Proof.
  induction a as [|c a IH]; [done|].
  cbn [String.append]. rewrite !length_String. lia.
Qed.



Section UnknownInHeader.

Variable SAFETENSORS_MAX_TENSORS : nat.
Variable NAME_SIZE : nat.



End UnknownInHeader.


(** ** Opening one file *)

Lemma resource_eqb_refl r : resource_eqb r r = true.
Proof. destruct r; simpl; apply Nat.eqb_refl. Qed.

Lemma remove_first_head r l : remove_first r (r :: l) = l.
Proof. simpl. by rewrite resource_eqb_refl. Qed.

Section SingleFile.

Variable SAFETENSORS_MAX_TENSORS : nat.
Variable NAME_SIZE : nat.

Local Open Scope Z_scope.

(** C7.  A file of fewer than 8 bytes, and a file whose length prefix
    exceeds [file_size - 8], give no handle; the descriptor and the mapping
    acquired on the way are released. *)
Theorem short_file_or_long_header_gives_no_handle
    (path : string) (w : world) (f : file) :
  w_files w !! path = Some f ->
  Z.of_nat (String.length (f_bytes f)) < 8 \/
  le_uint 8 (f_bytes f) > Z.of_nat (String.length (f_bytes f)) - 8 ->
  exists w',
    safetensors_open SAFETENSORS_MAX_TENSORS NAME_SIZE path w = Done None w' /\
    w_live w' = w_live w /\ w_budget w' = w_budget w.
Proof.
  intros Hf Hbad. unfold safetensors_open, sys_open. cbn [w_files].
  rewrite Hf. cbn [acquire].
  destruct (f_fstat_ok f); cbn [negb].
  2:{ eexists; split; [done|]. cbn. by rewrite Nat.eqb_refl. }
  destruct (Z.of_nat (String.length (f_bytes f)) <? 8) eqn:Esz.
  { eexists; split; [done|]. cbn. by rewrite Nat.eqb_refl. }
  apply Z.ltb_ge in Esz. destruct Hbad as [Hbad|Hbad]; [lia|].
  replace (le_uint 8 (f_bytes f) >? Z.of_nat (String.length (f_bytes f)) - 8)
    with true by (symmetry; apply Z.gtb_lt; lia).
  destruct (f_mmap_ok f);
    (eexists; split; [reflexivity|]; cbn; rewrite ?Nat.eqb_refl; done).
Qed.

End SingleFile.

Lemma short_file_or_long_header_gives_no_handle_witness :
  exists w',
    safetensors_open 16 256 "m.safetensors"
      (with_file "m.safetensors"
                 (mk_file (le_bytes 8 100 +:+ "{}") true true)
                 (empty_world 8))
    = Done None w' /\ w_live w' = [] /\ w_budget w' = 8%nat.
Proof.
  apply (short_file_or_long_header_gives_no_handle 16 256 "m.safetensors"
           (with_file "m.safetensors"
                      (mk_file (le_bytes 8 100 +:+ "{}") true true)
                      (empty_world 8))
           (mk_file (le_bytes 8 100 +:+ "{}") true true)).
  - reflexivity.
  - right. vm_compute. reflexivity.
Defined.

Section NoBoundsCheck.

Variable SAFETENSORS_MAX_TENSORS : nat.
Variable NAME_SIZE : nat.

Local Open Scope Z_scope.

(** C1, as the code has it.  [safetensors_open] compares the length prefix
    with the file size and runs the parser; the byte ranges of the entries
    are compared with nothing.  Whenever the prefix fits and the header
    parses, the handle is returned with the table exactly as parsed. *)
Theorem open_keeps_every_parsed_range
    (path : string) (w : world) (f : file) (ts : list safetensor_t) :
  let size := Z.of_nat (String.length (f_bytes f)) in
  let hsize := le_uint 8 (f_bytes f) in
  w_files w !! path = Some f ->
  f_fstat_ok f = true -> f_mmap_ok f = true ->
  8 <= size -> hsize <= size - 8 -> (3 <= w_budget w)%nat ->
  parse_header SAFETENSORS_MAX_TENSORS NAME_SIZE
    (truncate (Z.to_nat hsize) (skipn_string 8 (f_bytes f))) = Ok ts ->
  exists sf w',
    safetensors_open SAFETENSORS_MAX_TENSORS NAME_SIZE path w
    = Done (Some sf) w' /\
    tensors sf = ts /\ file_size sf = size /\ header_size sf = hsize.
Proof.
  intros size hsize Hf Hstat Hmap Hsize Hh Hbudget Hparse.
  unfold safetensors_open, sys_open. cbn [w_files]. rewrite Hf.
  cbn [acquire]. rewrite Hstat, Hmap. cbn [negb]. fold size hsize.
  replace (size <? 8) with false by (symmetry; apply Z.ltb_ge; lia).
  replace (hsize >? size - 8) with false
    by (symmetry; apply not_true_is_false; rewrite Z.gtb_lt; lia).
  destruct (w_budget w) as [|[|[|b]]] eqn:Eb; try lia.
  cbn [acquire release malloc w_budget w_files w_dirs w_next w_live w_stderr
       w_opens].
  rewrite Hparse. eexists _, _. split; [reflexivity|]. done.
Qed.

End NoBoundsCheck.

Lemma open_keeps_every_parsed_range_witness :
  exists sf w',
    safetensors_open 16 256 "m.safetensors" overrun_world = Done (Some sf) w' /\
    tensors sf = [mk_tensor "a" DTYPE_F32 1 [25; 0; 0; 0; 0; 0; 0; 0] 0 100] /\
    file_size sf = 115 /\ header_size sf = 57.
Proof.
  refine (open_keeps_every_parsed_range 16 256 "m.safetensors" overrun_world
            (archive overrun_header
                     "01234567890123456789012345678901234567890123456789")
            [mk_tensor "a" DTYPE_F32 1 [25; 0; 0; 0; 0; 0; 0; 0] 0 100]
            _ _ _ _ _ _ _);
    try reflexivity; vm_compute; (discriminate || lia).
Defined.

(** C1 does not hold: a header declaring [data_offsets: [0,100]] over a data block
    of 50 bytes is opened, and reading the tensor leaves the mapping. *)
Lemma open_accepts_range_beyond_file :
  exists sf w' t,
    safetensors_open 16 256 "m.safetensors" overrun_world = Done (Some sf) w' /\
    tensors sf = [t] /\
    (file_size sf - 8 - header_size sf = 50)%Z /\
    (data_offset t + data_size t = 100)%Z /\
    safetensors_get_f32 sf t w' = Crash.
Proof.
  eexists _, _, _. split; [vm_compute; reflexivity|].
  split; [reflexivity|]. split; [reflexivity|]. split; [reflexivity|].
  vm_compute. reflexivity.
Qed.

Local Open Scope Z_scope.

(** ** Names and lookup *)

Lemma code_inj c d : code c = code d -> c = d.
Proof.
  unfold code. intros H%Z2N.inj_iff; [| lia | lia].
  rewrite !N2Z.id in H.
  rewrite <- (ascii_N_embedding c), <- (ascii_N_embedding d). by rewrite H.
Qed.

Lemma code_range c : 0 <= code c < 256.
Proof.
  unfold code. pose proof (N_ascii_bounded c). lia.
Qed.

Lemma code_NUL c : code c = 0 <-> c = NUL.
Proof.
  split; [|by intros ->]. intros H. apply code_inj. by rewrite H.
Qed.

(** [strcmp] is zero exactly on equal C strings. *)
Lemma strcmp_eq a : forall b, strcmp a b = 0 <-> cstr a = cstr b.
Proof.
  induction a as [|c a IH]; intros [|d b]; cbn [strcmp cstr].
  - done.
  - destruct (is_char d NUL) eqn:E.
    + apply is_char_eq in E. subst. done.
    + apply is_char_neq in E. split; [|done].
      intros H. destruct E. apply code_NUL. lia.
  - destruct (is_char c NUL) eqn:E.
    + apply is_char_eq in E. subst. done.
    + apply is_char_neq in E. split; [|done].
      intros H. destruct E. by apply code_NUL.
  - destruct (is_char c d) eqn:Ecd.
    + apply is_char_eq in Ecd. subst d.
      destruct (is_char c NUL); [done|].
      rewrite IH. split; [by intros -> | by intros [= ->]].
    + apply is_char_neq in Ecd. split.
      * intros H. destruct Ecd. apply code_inj. lia.
      * intros H. destruct (is_char c NUL) eqn:Ec, (is_char d NUL) eqn:Ed;
          try done.
        -- apply is_char_eq in Ec, Ed. congruence.
        -- injection H as -> _. done.
Qed.

Lemma streq_true a b : streq a b = true <-> cstr a = cstr b.
Proof. unfold streq. rewrite Z.eqb_eq. apply strcmp_eq. Qed.

Lemma streq_false a b : streq a b = false <-> cstr a <> cstr b.
Proof.
  rewrite <- streq_true. destruct (streq a b); split; congruence.
Qed.

Lemma find_in_tensors_spec ts nm :
  match find_in_tensors ts nm with
  | Some t =>
      exists i, ts !! i = Some t /\ cstr (name t) = cstr nm /\
                forall i' t', (i' < i)%nat -> ts !! i' = Some t' ->
                              cstr (name t') <> cstr nm
  | None => forall t, t ∈ ts -> cstr (name t) <> cstr nm
  end.
Proof.
  induction ts as [|t ts IH]; cbn [find_in_tensors].
  - intros t Ht. by apply elem_of_nil in Ht.
  - destruct (streq (name t) nm) eqn:E.
    + apply streq_true in E. exists 0%nat. split; [done|]. split; [done|].
      intros i' t' Hi. lia.
    + apply streq_false in E. destruct (find_in_tensors ts nm) as [u|].
      * destruct IH as (i & Hi & Hu & Hfirst). exists (S i).
        split; [done|]. split; [done|].
        intros [|i'] t' Hlt Hl; simpl in Hl.
        -- by injection Hl as <-.
        -- apply (Hfirst i'); [lia | done].
      * intros u [->|Hu]%elem_of_cons; [done | by apply IH].
Qed.

Lemma find_in_shards_spec sfs nm :
  match find_in_shards sfs nm with
  | Some (t, sf) =>
      exists s i,
        sfs !! s = Some sf /\ tensors sf !! i = Some t /\
        cstr (name t) = cstr nm /\
        (forall i' t', (i' < i)%nat -> tensors sf !! i' = Some t' ->
                       cstr (name t') <> cstr nm) /\
        (forall s' sf' t', (s' < s)%nat -> sfs !! s' = Some sf' ->
                           t' ∈ tensors sf' -> cstr (name t') <> cstr nm)
  | None =>
      forall sf t, sf ∈ sfs -> t ∈ tensors sf -> cstr (name t) <> cstr nm
  end.
Proof.
  induction sfs as [|sf sfs IH]; cbn [find_in_shards].
  - intros sf t Hsf. by apply elem_of_nil in Hsf.
  - pose proof (find_in_tensors_spec (tensors sf) nm) as Ht.
    destruct (find_in_tensors (tensors sf) nm) as [t|].
    + destruct Ht as (i & Hi & Hn & Hfirst).
      exists 0%nat, i. repeat split; try done. intros s' sf' t' Hs. lia.
    + destruct (find_in_shards sfs nm) as [[t sf0]|].
      * destruct IH as (s & i & Hs & Hi & Hn & Hfi & Hfs).
        exists (S s), i. repeat split; try done.
        intros [|s'] sf' t' Hlt Hl Hin; simpl in Hl.
        -- injection Hl as <-. by apply Ht.
        -- apply (Hfs s' sf'); [lia | done | done].
      * intros sf' t' [->|Hsf]%elem_of_cons Hin; [by apply Ht|].
        by apply (IH sf').
Qed.

(** C4.  [multi_safetensors_find] walks the shards in the order of the set
    and the table of each shard in parse order, and returns the first
    descriptor whose name is the one asked for, with the shard that holds
    it; a name held by two shards comes from the earlier of them; [NULL] is
    returned exactly when no shard holds the name. *)
Theorem find_returns_first_match (ms : multi_safetensors_t) (nm : string) :
  let sfs := take (num_shards ms) (shards ms) in
  match multi_safetensors_find ms nm with
  | Some (t, sf) =>
      exists s i,
        sfs !! s = Some sf /\ tensors sf !! i = Some t /\
        cstr (name t) = cstr nm /\
        (forall i' t', (i' < i)%nat -> tensors sf !! i' = Some t' ->
                       cstr (name t') <> cstr nm) /\
        (forall s' sf' t', (s' < s)%nat -> sfs !! s' = Some sf' ->
                           t' ∈ tensors sf' -> cstr (name t') <> cstr nm)
  | None =>
      forall sf t, sf ∈ sfs -> t ∈ tensors sf -> cstr (name t) <> cstr nm
  end /\
  (forall s1 s2 sf1 sf2 t1 t2,
     (s1 < s2)%nat -> sfs !! s1 = Some sf1 -> sfs !! s2 = Some sf2 ->
     t1 ∈ tensors sf1 -> t2 ∈ tensors sf2 ->
     cstr (name t1) = cstr nm -> cstr (name t2) = cstr nm ->
     exists t sf s,
       multi_safetensors_find ms nm = Some (t, sf) /\
       sfs !! s = Some sf /\ (s <= s1)%nat /\ cstr (name t) = cstr nm).
Proof.
  intros sfs. pose proof (find_in_shards_spec sfs nm) as Hspec.
  split; [exact Hspec|].
  intros s1 s2 sf1 sf2 t1 t2 Hlt Hs1 Hs2 Ht1 Ht2 Hn1 Hn2.
  unfold multi_safetensors_find. fold sfs.
  destruct (find_in_shards sfs nm) as [[t sf]|].
  - destruct Hspec as (s & i & Hs & Hi & Hn & _ & Hfirst).
    exists t, sf, s. repeat split; try done.
    destruct (decide (s <= s1)%nat) as [|Hgt]; [done|].
    destruct (Hfirst s1 sf1 t1 ltac:(lia) Hs1 Ht1 Hn1).
  - destruct (Hspec sf1 t1 (list_elem_of_lookup_2 _ _ _ Hs1) Ht1 Hn1).
Qed.

Lemma find_returns_first_match_witness :
  exists t sf s,
    multi_safetensors_find two_shard_set "w" = Some (t, sf) /\
    take (num_shards two_shard_set) (shards two_shard_set) !! s = Some sf /\
    (s <= 0)%nat /\ cstr (name t) = cstr "w".
Proof.
  destruct (find_returns_first_match two_shard_set "w") as [_ H].
  apply (H 0%nat 1%nat
           (mk_sf 1 None (2%nat, "") 0 0 None
                  [mk_tensor "x" DTYPE_F32 0 (replicate 8 0) 0 4;
                   mk_tensor "w" DTYPE_F32 0 (replicate 8 0) 4 4])
           (mk_sf 3 None (4%nat, "") 0 0 None
                  [mk_tensor "w" DTYPE_BF16 0 (replicate 8 0) 0 2])
           (mk_tensor "w" DTYPE_F32 0 (replicate 8 0) 4 4)
           (mk_tensor "w" DTYPE_BF16 0 (replicate 8 0) 0 2));
    try reflexivity; try lia.
  - apply list_elem_of_lookup. by exists 1%nat.
  - apply list_elem_of_lookup. by exists 0%nat.
Defined.

Local Open Scope Z_scope.

(** ** BF16 *)

Lemma bf16_to_f32_shift bf16 :
  0 <= bf16 < 2^16 -> bf16_to_f32 bf16 = bf16 * 2^16.
Proof.
  intros H. unfold bf16_to_f32. rewrite Z.shiftl_mul_pow2 by lia.
  apply Z.mod_small. lia.
Qed.

(** C9.  The BF16 widening puts the 16-bit value in the upper half of a
    32-bit word whose lower half is zero; the word is the bit pattern of the
    [float] returned, and [safetensors_get_f32] applies it to each 16-bit
    element.  [0x3F80] gives the single [1.0], [0x0000] gives [+0.0]. *)
Theorem bf16_widening_is_a_shift (bf16 : Z) :
  0 <= bf16 < 2^16 ->
  bf16_to_f32 bf16 = bf16 * 2^16 /\
  0 <= bf16_to_f32 bf16 < 2^32 /\
  Z.land (bf16_to_f32 bf16) (2^16 - 1) = 0 /\
  Z.shiftr (bf16_to_f32 bf16) 16 = bf16 /\
  f32_decode (bf16_to_f32 16256) = S754_finite false (2^23) (-23) /\
  float_value (f32_decode (bf16_to_f32 16256)) = Some (Qmake 1 1) /\
  f32_decode (bf16_to_f32 0) = S754_zero false /\
  (forall sf t w out fs w',
     dtype t = DTYPE_BF16 ->
     safetensors_get_f32 sf t w = Done (Some (out, fs)) w' ->
     exists vs,
       read_le 2 (Z.to_nat (safetensor_numel t))
               (skipn_string (Z.to_nat (safetensors_data sf t))
                             (snd (data sf)))
       = Some vs /\
       fs = bf16_to_f32 <$> vs).
Proof.
  intros H. rewrite (bf16_to_f32_shift bf16 H).
  split; [done|]. split; [lia|]. split; [|split].
  - change (2^16 - 1) with (Z.ones 16). rewrite Z.land_ones by lia.
    apply Z_mod_mult.
  - rewrite Z.shiftr_div_pow2 by lia. apply Z_div_mult. lia.
  - split; [vm_compute; reflexivity|].
    split; [vm_compute; reflexivity|].
    split; [vm_compute; reflexivity|].
    intros sf t w out fs w' Hdt. unfold safetensors_get_f32.
    destruct (safetensor_numel t <=? 0); [done|].
    destruct (malloc w) as [[o|] w1]; [|done]. rewrite Hdt.
    destruct (read_le 2 _ _) as [vs|]; [|done].
    intros [= <- <- <-]. by exists vs.
Qed.

Lemma bf16_widening_is_a_shift_witness :
  bf16_to_f32 16256 = 16256 * 2^16 /\
  Z.shiftr (bf16_to_f32 16256) 16 = 16256.
Proof.
  destruct (bf16_widening_is_a_shift 16256 ltac:(lia))
    as (H1 & _ & _ & H2 & _).
  split; [exact H1 | exact H2].
Defined.

(** ** The order of shard names *)

Lemma strcmp_compare a :
  forall b,
    match String.compare (cstr a) (cstr b) with
    | Eq => strcmp a b = 0
    | Lt => strcmp a b < 0
    | Gt => strcmp a b > 0
    end.
Proof.
  assert (Hpos : forall c, is_char c NUL = false -> 0 < code c).
  { intros c Hc. apply is_char_neq in Hc. pose proof (code_range c).
    destruct (decide (code c = 0)) as [H0|H0]; [|lia].
    by apply code_NUL in H0. }
  induction a as [|c a IH]; intros [|d b]; cbn [strcmp cstr].
  - done.
  - destruct (is_char d NUL) eqn:Ed; cbn [String.compare].
    + apply is_char_eq in Ed. by subst.
    + apply Hpos in Ed. lia.
  - destruct (is_char c NUL) eqn:Ec; cbn [String.compare].
    + apply is_char_eq in Ec. by subst.
    + apply Hpos in Ec. lia.
  - destruct (is_char c d) eqn:Ecd.
    + apply is_char_eq in Ecd. subst d.
      destruct (is_char c NUL) eqn:Ec; cbn [String.compare]; [done|].
      unfold Ascii.compare. rewrite N.compare_refl. apply IH.
    + apply is_char_neq in Ecd.
      destruct (is_char c NUL) eqn:Ec, (is_char d NUL) eqn:Ed;
        cbn [String.compare].
      * apply is_char_eq in Ec, Ed. congruence.
      * apply is_char_eq in Ec. subst c. apply Hpos in Ed.
        change (code NUL) with 0. lia.
      * apply is_char_eq in Ed. subst d. apply Hpos in Ec.
        change (code NUL) with 0. lia.
      * unfold Ascii.compare.
        destruct (N.compare_spec (N_of_ascii c) (N_of_ascii d)) as [H|H|H].
        -- destruct Ecd. apply code_inj. unfold code. by rewrite H.
        -- unfold code. lia.
        -- unfold code. lia.
Qed.

Lemma name_le_cstr a b : name_le a b <-> String.le (cstr a) (cstr b).
Proof.
  unfold name_le, String.le, String.leb.
  pose proof (strcmp_compare a b) as H.
  destruct (String.compare (cstr a) (cstr b)); simpl; split; (done || lia).
Qed.

#[local] Instance name_le_total : Total name_le.
Proof.
  intros a b. rewrite !name_le_cstr. apply (total String.le).
Qed.

#[local] Instance name_le_trans : Transitive name_le.
Proof.
  intros a b c. rewrite !name_le_cstr. apply transitivity.
Qed.

Lemma name_le_antisym a b :
  name_le a b -> name_le b a -> cstr a = cstr b.
Proof. rewrite !name_le_cstr. apply (anti_symm String.le). Qed.

Lemma cstr_idem a : cstr (cstr a) = cstr a.
Proof.
  induction a as [|c a IH]; [done|]. cbn [cstr].
  destruct (is_char c NUL) eqn:E; [done|]. cbn [cstr]. by rewrite E, IH.
Qed.

Lemma cstr_truncate n :
  forall a, cstr a = a -> cstr (truncate n a) = truncate n a.
Proof.
  induction n as [|n IH]; intros [|c a]; try done.
  simpl. destruct (is_char c NUL) eqn:E; [done|].
  intros [= H]. by rewrite IH.
Qed.

(** The sorted list of names does not depend on the order they came in. *)
Lemma qsort_names_perm l1 l2 :
  Forall (fun a => cstr a = a) l1 -> l1 ≡ₚ l2 ->
  qsort_names l1 = qsort_names l2.
Proof.
  intros Hnul Hperm. unfold qsort_names.
  apply (Sorted_unique_strong name_le).
  - intros x1 x2 Hx1 Hx2 H12 H21.
    assert (Hin : forall x, x ∈ merge_sort name_le l2 -> cstr x = x).
    { intros x Hx. rewrite merge_sort_Permutation, <- Hperm in Hx.
      by apply (proj1 (Forall_forall _ _) Hnul). }
    rewrite merge_sort_Permutation in Hx1.
    rewrite <- (proj1 (Forall_forall _ _) Hnul x1 Hx1), <- (Hin x2 Hx2).
    by apply name_le_antisym.
  - apply Sorted_merge_sort, _.
  - apply Sorted_merge_sort, _.
  - by rewrite !merge_sort_Permutation.
Qed.

(** ** What the calls do to the world *)

Lemma quiet_refl w : quiet w w.
Proof. done. Qed.

Lemma quiet_trans w1 w2 w3 : quiet w1 w2 -> quiet w2 w3 -> quiet w1 w3.
Proof.
  intros (H1 & H2 & H3 & H4) (H5 & H6 & H7 & H8).
  unfold quiet. by rewrite H5, H6, H7, H8.
Qed.

Lemma quiet_opens w w' : quiet w w' -> w_opens w' = w_opens w.
Proof. by intros (_ & _ & H & _). Qed.

Lemma release_quiet r w : quiet w (release r w).
Proof. done. Qed.

Lemma free_quiet b w : quiet w (free b w).
Proof. by destruct b. Qed.

Lemma malloc_quiet w b w' : malloc w = (b, w') -> quiet w w'.
Proof. unfold malloc. destruct (w_budget w); intros [= <- <-]; done. Qed.

Lemma safetensors_close_quiet sf w : quiet w (safetensors_close sf w).
Proof.
  destruct sf as [sf|]; [|done]. unfold safetensors_close.
  eapply quiet_trans; [|apply free_quiet].
  eapply quiet_trans; [|apply free_quiet].
  eapply quiet_trans; [|apply free_quiet].
  apply release_quiet.
Qed.

Lemma multi_safetensors_close_quiet ms w :
  quiet w (multi_safetensors_close ms w).
Proof.
  destruct ms as [ms|]; [|done]. unfold multi_safetensors_close.
  eapply quiet_trans; [|apply free_quiet].
  generalize (take (num_shards ms) (shards ms)). intros l. revert w.
  induction l as [|sf l IH]; intros w; [done|]. cbn [foldl].
  eapply quiet_trans; [apply (safetensors_close_quiet (Some sf))|apply IH].
Qed.

Ltac quiet_chain :=
  repeat first
    [ eassumption
    | apply quiet_refl
    | eapply quiet_trans;
      [| first [ eassumption | apply safetensors_close_quiet
               | apply free_quiet | apply release_quiet ] ] ].

Section Traces.

Variable SAFETENSORS_MAX_TENSORS : nat.
Variable SAFETENSORS_MAX_SHARDS : nat.
Variable NAME_SIZE : nat.

(** [safetensors_open] calls [open] once, on its argument. *)
Lemma safetensors_open_trace path w r w' :
  safetensors_open SAFETENSORS_MAX_TENSORS NAME_SIZE path w = Done r w' ->
  w_files w' = w_files w /\ w_dirs w' = w_dirs w /\
  w_opens w' = path :: w_opens w /\ w_stderr w' = w_stderr w.
Proof.
  unfold safetensors_open, sys_open. cbn [w_files].
  set (w0 := mk_world _ _ _ _ _ _ (path :: w_opens w)).
  assert (Hgoal : forall w1, quiet w0 w1 ->
    w_files w1 = w_files w /\ w_dirs w1 = w_dirs w /\
    w_opens w1 = path :: w_opens w /\ w_stderr w1 = w_stderr w).
  { intros w1 (H1 & H2 & H3 & H4). by rewrite H1, H2, H3, H4. }
  destruct (w_files w !! path) as [f|];
    [|intros [= <- <-]; by apply Hgoal].
  cbn [acquire].
  set (w1 := mk_world _ _ _ _ (Fd _ :: _) _ _).
  assert (Hq1 : quiet w0 w1) by done.
  destruct (negb (f_fstat_ok f)); [intros [= <- <-]; by apply Hgoal|].
  destruct (_ <? 8); [intros [= <- <-]; by apply Hgoal|].
  destruct (f_mmap_ok f); cbn [acquire];
    [|intros [= <- <-]; by apply Hgoal].
  destruct (_ >? _); [intros [= <- <-]; by apply Hgoal|].
  match goal with |- context [malloc ?w2] =>
    assert (Hq2 : quiet w0 w2) by done;
    destruct (malloc w2) as [[b|] w3] eqn:E1; apply malloc_quiet in E1 end;
    [|intros [= <- <-]; by apply Hgoal].
  destruct (malloc w3) as [dup w4] eqn:E2. apply malloc_quiet in E2.
  destruct (malloc w4) as [[h|] w5] eqn:E3; apply malloc_quiet in E3.
  - destruct (parse_header _ _ _); try done; intros [= <- <-]; apply Hgoal.
    + quiet_chain.
    + quiet_chain.
  - intros [= <- <-]. apply Hgoal. quiet_chain.
Qed.

(** The shards are opened in the order of the list given to the loop, up
    to the first failure. *)
Lemma open_shards_trace model_dir names :
  forall ms w r w',
    open_shards SAFETENSORS_MAX_TENSORS NAME_SIZE model_dir names ms w
    = Done r w' ->
    exists k,
      (k <= length names)%nat /\
      w_opens w'
      = reverse (shard_path model_dir <$> take k names) ++ w_opens w /\
      (is_Some r -> k = length names).
Proof.
  induction names as [|nm names IH]; intros ms w r w'; cbn [open_shards].
  - intros [= <- <-]. exists 0%nat. repeat split; done.
  - fold (shard_path model_dir nm).
    destruct (safetensors_open _ _ _ w) as [[sf|] w1|] eqn:E; [| |done].
    + apply safetensors_open_trace in E as (_ & _ & Ho & _).
      intros (k & Hk & Hopens & Hall)%IH. exists (S k).
      split; [simpl; lia|]. split.
      * rewrite Hopens, Ho. cbn [take fmap list_fmap].
        rewrite reverse_cons, <- app_assoc. done.
      * intros Hr. simpl. f_equal. by apply Hall.
    + apply safetensors_open_trace in E as (_ & _ & Ho & _).
      intros [= <- <-]. exists 1%nat. split; [simpl; lia|]. split.
      * etrans; [apply quiet_opens, (multi_safetensors_close_quiet (Some ms))|].
        cbn [fprintf_stderr w_opens take fmap list_fmap]. by rewrite Ho.
      * by intros [? ?].
Qed.

End Traces.

(** ** Discovery of shards *)

(** C2 is not met.  The rollback runs [multi_safetensors_close] while
    [num_shards] is still 0, so its loop closes nothing: with a first shard
    that opens and a second that does not, the first shard stays mapped and
    its three blocks stay allocated after the failed call. *)
Theorem failed_discovery_leaves_first_shard_open :
  (forall b sfs w,
     multi_safetensors_close (Some (mk_ms b sfs 0)) w = free (Some b) w) /\
  w_live half_open_world = [] /\
  exists w',
    multi_safetensors_open 16 8 256 "m" half_open_world = Done None w' /\
    w_opens w' = ["m/" +:+ shard2; "m/" +:+ shard1; "m/model.safetensors"] /\
    w_live w' = [Heap 6; Heap 5; Heap 4; Mapping 3].
Proof.
  split; [done|]. split; [done|].
  eexists. split; [vm_compute; reflexivity|]. split; reflexivity.
Qed.


(** Below the capacity the scan keeps every matching entry, in the order of
    the listing. *)
Lemma scan_dir_under_capacity max entries :
  forall acc,
    (length (filter matching entries) + length acc <= max)%nat ->
    scan_dir max entries acc
    = acc ++ ((fun e => snprintf 256 (cstr e)) <$> filter matching entries).
Proof.
  induction entries as [|e entries IH]; intros acc Hlen; cbn [scan_dir].
  - by rewrite app_nil_r.
  - rewrite filter_cons in Hlen |- *.
    destruct (decide (matching e)) as [He|He].
    + cbn [length] in Hlen.
      replace (length acc <? max)%nat with true
        by (symmetry; apply Nat.ltb_lt; lia).
      unfold matching in He. rewrite He, IH.
      * by rewrite <- app_assoc.
      * rewrite length_app. simpl. lia.
    + unfold matching in He. apply not_true_is_false in He. rewrite He.
      destruct (length acc <? max)%nat eqn:E; [by apply IH|].
      apply Nat.ltb_ge in E.
      assert (length (filter matching entries) = 0%nat) as Hnil by lia.
      apply nil_length_inv in Hnil. rewrite Hnil. by rewrite app_nil_r.
Qed.

Lemma scan_dir_nul_free max entries :
  forall acc,
    Forall (fun a => cstr a = a) acc ->
    Forall (fun a => cstr a = a) (scan_dir max entries acc).
Proof.
  induction entries as [|e entries IH]; intros acc Hacc; cbn [scan_dir];
    [done|].
  destruct (_ <? _)%nat; [|done]. apply IH.
  destruct (shard_pattern _); [|done].
  apply Forall_app. split; [done|]. constructor; [|done].
  apply cstr_truncate, cstr_idem.
Qed.

Section Discovery.

Variable SAFETENSORS_MAX_TENSORS : nat.
Variable SAFETENSORS_MAX_SHARDS : nat.
Variable NAME_SIZE : nat.


End Discovery.


(** * Further properties *)

(** ** Strings and numbers *)

Lemma parse_string_loop_room p :
  forall room out rest,
    parse_string_loop p room = Ok (out, rest) ->
    (String.length out <= room)%nat.
Proof.
  remember (String.length p) as n eqn:Hn. revert p Hn.
  induction n as [n IH] using lt_wf_ind; intros p -> room out rest.
  destruct p as [|c p]; simpl; [done|].
  destruct (is_char c NUL); [done|].
  destruct (is_char c DQUOTE);
    [intros [= <- <-]; change (String.length "") with 0%nat; lia|].
  destruct room as [|room]; [done|].
  destruct (is_char c BACKSLASH).
  - destruct p as [|d p]; [done|].
    destruct (parse_string_loop p room) as [[o r]| | |] eqn:E; simpl; try done.
    intros [= <- <-].
    eapply IH in E; [| |reflexivity]; rewrite ?length_String in *; lia.
  - destruct (parse_string_loop p room) as [[o r]| | |] eqn:E; simpl; try done.
    intros [= <- <-].
    eapply IH in E; [| |reflexivity]; rewrite ?length_String in *; lia.
Qed.

(** X1.  [parse_string] never writes beyond [out]: the bytes it stores,
    with the terminator, fit in [max_len]. *)
Theorem parse_string_fits_buffer (p : string) (max_len : nat)
    (out rest : string) :
  (0 < max_len)%nat ->
  parse_string p max_len = Ok (out, rest) ->
  (String.length out + 1 <= max_len)%nat.
Proof.
  intros Hmax. unfold parse_string. destruct (negb _); [done|].
  intros H%parse_string_loop_room. lia.
Qed.

Lemma parse_string_fits_buffer_witness :
  (String.length "dtype" + 1 <= 64)%nat.
Proof.
  apply (parse_string_fits_buffer (dq "  'dtype': 'F32'") 64 "dtype"
                                  (dq ": 'F32'")); [lia | reflexivity].
Defined.

Lemma parse_string_loop_overlong s rest :
  forall room,
    plain s = true -> (room < String.length s)%nat ->
    parse_string_loop (s +:+ String DQUOTE rest) room = Fail.
Proof.
  induction s as [|c s IH]; intros room Hs Hlen.
  - change (String.length "") with 0%nat in Hlen. lia.
  - cbn [plain] in Hs. apply andb_true_iff in Hs as [Hc Hs].
    unfold plain_char in Hc. apply negb_true_iff in Hc.
    rewrite !orb_false_iff in Hc. destruct Hc as [[H1 H2] H3].
    rewrite length_String in Hlen.
    cbn [String.append parse_string_loop]. rewrite H1, H2.
    destruct room as [|room]; [done|]. rewrite H3.
    rewrite IH by (done || lia). reflexivity.
Qed.

Section Overlong.

Variable SAFETENSORS_MAX_TENSORS : nat.
Variable NAME_SIZE : nat.

(** X2.  A quoted string without escapes is read when it fits its buffer
    and is a parse failure when it does not: a key of 64 bytes or more, a
    dtype of 32 bytes or more, and a tensor name of 256 bytes or more each
    make the header fail. *)
Theorem string_longer_than_buffer_fails
    (s rest : string) (max_len : nat) (t : safetensor_t) :
  plain s = true -> (0 < max_len)%nat ->
  parse_string (quoted s rest) max_len
  = (if (String.length s <? max_len)%nat then Ok (s, rest) else Fail) /\
  ((64 <= String.length s)%nat ->
   parse_tensor_entry (String "{" (quoted s rest)) t = Fail) /\
  ((32 <= String.length s)%nat ->
   parse_tensor_entry (dq "{'dtype':" +:+ quoted s rest) t = Fail) /\
  ((256 <= String.length s)%nat -> (0 < SAFETENSORS_MAX_TENSORS)%nat ->
   parse_header SAFETENSORS_MAX_TENSORS NAME_SIZE (String "{" (quoted s rest))
   = Fail).
Proof.
  intros Hs Hmax.
  assert (Hfail : forall n, (0 < n <= String.length s)%nat ->
                            parse_string (quoted s rest) n = Fail).
  { intros n Hn. unfold parse_string, quoted.
    cbn [skip_whitespace is_space is_char Ascii.eqb Bool.eqb orb peek advance
         DQUOTE negb].
    apply parse_string_loop_overlong; [done | lia]. }
  split; [|split; [|split]].
  - destruct (String.length s <? max_len)%nat eqn:E.
    + apply Nat.ltb_lt in E. by apply parse_string_quoted.
    + apply Nat.ltb_ge in E. apply Hfail. lia.
  - intros Hlen. unfold parse_tensor_entry.
    cbn [skip_whitespace is_space is_char Ascii.eqb Bool.eqb orb peek advance
         negb].
    change (entry_loop (S ?f) ?q ?u) with
      (if is_char (peek q) NUL || is_char (peek q) "}" then Ok (q, u)
       else if is_char (peek (skip_whitespace q)) "}"
            then Ok (skip_whitespace q, u)
            else parse_string (skip_whitespace q) 64 >>= fun '(key, p) =>
                 if negb (is_char (peek (skip_whitespace p)) ":") then Fail
                 else entry_value
                        key (skip_whitespace (advance (skip_whitespace p))) u
                      >>= fun '(p, t) => entry_loop f (skip_comma p) t).
    unfold quoted at 1 2.
    cbn [skip_whitespace is_space is_char Ascii.eqb Bool.eqb orb peek advance
         DQUOTE negb].
    change (String "034" (s +:+ String "034" rest)) with (quoted s rest).
    rewrite Hfail by lia. reflexivity.
  - intros Hlen. unfold parse_tensor_entry.
    cbn -[entry_loop String.length quoted].
    erewrite entry_loop_member; [|done|done|reflexivity].
    unfold entry_value. change (streq "dtype" "dtype") with true.
    unfold quoted at 1.
    cbn [skip_whitespace is_space is_char Ascii.eqb Bool.eqb orb DQUOTE].
    change (String "034" (s +:+ String "034" rest)) with (quoted s rest).
    rewrite Hfail by lia. reflexivity.
  - intros Hlen Hcap. unfold parse_header.
    cbn [skip_whitespace is_space is_char Ascii.eqb Bool.eqb orb peek advance
         negb].
    cbn [header_loop].
    destruct SAFETENSORS_MAX_TENSORS as [|m]; [lia|].
    unfold quoted at 1 2.
    cbn [peek is_char Ascii.eqb Bool.eqb orb length negb Nat.ltb Nat.leb
         DQUOTE NUL skip_whitespace is_space].
    change (String "034" (s +:+ String "034" rest)) with (quoted s rest).
    rewrite Hfail by lia. reflexivity.
Qed.

End Overlong.

Lemma string_longer_than_buffer_fails_witness :
  parse_string (quoted "dtype" ":1") 4 = Fail /\
  parse_string (quoted "dtype" ":1") 6 = Ok ("dtype", ":1").
Proof.
  split.
  - apply (string_longer_than_buffer_fails 16 256 "dtype" ":1" 4
             (mk_tensor "" DTYPE_F32 0 (replicate 8 0) 0 0));
      [reflexivity | lia].
  - apply (string_longer_than_buffer_fails 16 256 "dtype" ":1" 6
             (mk_tensor "" DTYPE_F32 0 (replicate 8 0) 0 0));
      [reflexivity | lia].
Defined.

Lemma parse_string_loop_escape s rest :
  forall room,
    cstr s = s -> (String.length s <= room)%nat ->
    parse_string_loop (escape s +:+ String DQUOTE rest) room = Ok (s, rest).
Proof.
  induction s as [|c s IH]; intros room Hs Hlen; [reflexivity|].
  cbn [cstr] in Hs. destruct (is_char c NUL) eqn:E0; [done|].
  injection Hs as Hs. rewrite length_String in Hlen.
  destruct room as [|room]; [lia|]. cbn [escape].
  destruct (is_char c DQUOTE) eqn:E1.
  { apply is_char_eq in E1. subst c.
    cbn [String.append parse_string_loop is_char Ascii.eqb Bool.eqb DQUOTE
         BACKSLASH NUL].
    rewrite IH by (done || lia). reflexivity. }
  destruct (is_char c BACKSLASH) eqn:E2.
  { apply is_char_eq in E2. subst c.
    cbn [String.append parse_string_loop is_char Ascii.eqb Bool.eqb DQUOTE
         BACKSLASH NUL].
    rewrite IH by (done || lia). reflexivity. }
  destruct (is_char c "010") eqn:E3.
  { apply is_char_eq in E3. subst c.
    cbn [String.append parse_string_loop is_char Ascii.eqb Bool.eqb DQUOTE
         BACKSLASH NUL].
    rewrite IH by (done || lia). reflexivity. }
  destruct (is_char c "009") eqn:E4.
  { apply is_char_eq in E4. subst c.
    cbn [String.append parse_string_loop is_char Ascii.eqb Bool.eqb DQUOTE
         BACKSLASH NUL].
    rewrite IH by (done || lia). reflexivity. }
  cbn [String.append parse_string_loop]. rewrite E0, E1, E2.
  rewrite IH by (done || lia). reflexivity.
Qed.

(** X3.  [parse_string] undoes the escaping of quote, backslash, newline
    and tab: a string written with these escapes is read back as it was,
    whenever it has no NUL byte and its decoded length fits the buffer. *)
Theorem parse_string_decodes_escapes (s rest : string) (max_len : nat) :
  cstr s = s -> (String.length s < max_len)%nat ->
  parse_string (quoted (escape s) rest) max_len = Ok (s, rest).
Proof.
  intros Hs Hlen. unfold parse_string, quoted.
  cbn [skip_whitespace is_space is_char Ascii.eqb Bool.eqb orb peek advance
       DQUOTE negb].
  apply parse_string_loop_escape; [done | lia].
Qed.

Lemma parse_string_decodes_escapes_witness :
  parse_string (quoted (escape (dq "a'b" +:+ String BACKSLASH NL)) "x") 8
  = Ok (dq "a'b" +:+ String BACKSLASH NL, "x").
Proof.
  apply (parse_string_decodes_escapes (dq "a'b" +:+ String BACKSLASH NL) "x" 8);
    [reflexivity | vm_compute; lia].
Defined.





(** ** Reads stay inside the header buffer *)

Lemma suffix_of_trans a b c : suffix_of a b -> suffix_of b c -> suffix_of a c.
Proof. intros Hab Hbc. induction Hbc; [done | by constructor]. Qed.

Lemma suffix_of_app r p : suffix_of r p <-> exists pre, p = pre +:+ r.
Proof.
  split.
  - induction 1 as [|c p _ [pre ->]]; [by exists ""|]. by exists (String c pre).
  - intros [pre ->]. induction pre as [|c pre IH]; [constructor|].
    cbn [String.append]. by constructor.
Qed.

Lemma skip_whitespace_suffix p : suffix_of (skip_whitespace p) p.
Proof.
  induction p as [|c p IH]; cbn [skip_whitespace]; [constructor|].
  destruct (is_space c); by constructor.
Qed.

Lemma advance_suffix p : suffix_of (advance p) p.
Proof. destruct p; repeat constructor. Qed.

Lemma skip_comma_suffix p : suffix_of (skip_comma p) p.
Proof.
  unfold skip_comma. destruct (is_char _ _);
    eauto using suffix_of_trans, skip_whitespace_suffix, advance_suffix.
Qed.

Ltac suffix_step :=
  first [ eassumption
        | apply suffix_here
        | eapply suffix_of_trans; [eassumption|]
        | eapply suffix_of_trans; [apply skip_whitespace_suffix|]
        | eapply suffix_of_trans; [apply advance_suffix|]
        | eapply suffix_of_trans; [apply skip_comma_suffix|]
        | apply suffix_skip ].

Ltac suffix_chain := repeat suffix_step.

(** Where [parse_string] stops, and the only way it leaves the buffer: a
    backslash as the last byte. *)
Lemma parse_string_loop_suffix p :
  forall room,
    match parse_string_loop p room with
    | Ok (_, rest) => suffix_of rest p
    | Undef => suffix_of (String BACKSLASH "") p
    | _ => True
    end.
Proof.
  remember (String.length p) as n eqn:Hn. revert p Hn.
  induction n as [n IH] using lt_wf_ind; intros p -> room.
  destruct p as [|c p]; cbn [parse_string_loop]; [done|].
  destruct (is_char c NUL); [done|].
  destruct (is_char c DQUOTE); [suffix_chain|].
  destruct room as [|room]; [done|].
  destruct (is_char c BACKSLASH) eqn:Eb.
  - destruct p as [|d p].
    { apply is_char_eq in Eb. subst. constructor. }
    pose proof (IH (String.length p)
                   ltac:(rewrite !length_String; lia) p eq_refl room) as H.
    destruct (parse_string_loop p room) as [[o r]| | |]; cbn [res_bind];
      try done; suffix_chain.
  - pose proof (IH (String.length p)
                   ltac:(rewrite !length_String; lia) p eq_refl room) as H.
    destruct (parse_string_loop p room) as [[o r]| | |]; cbn [res_bind];
      try done; suffix_chain.
Qed.

Lemma parse_string_suffix p max_len :
  match parse_string p max_len with
  | Ok (_, rest) => suffix_of rest p
  | Undef => suffix_of (String BACKSLASH "") p
  | _ => True
  end.
Proof.
  unfold parse_string. destruct (negb _); [done|].
  pose proof (parse_string_loop_suffix (advance (skip_whitespace p))
                                       (max_len - 1)) as H.
  destruct (parse_string_loop _ _) as [[o r]| | |]; try done; suffix_chain.
Qed.

Lemma parse_digits_suffix p : forall v, suffix_of (snd (parse_digits p v)) p.
Proof.
  induction p as [|c p IH]; intros v; cbn [parse_digits]; [constructor|].
  destruct (is_digit c); cbn [snd]; [|constructor].
  constructor. apply IH.
Qed.

Lemma parse_int_suffix p : suffix_of (snd (parse_int p)) p.
Proof.
  unfold parse_int.
  destruct (is_char _ "-");
    match goal with |- context [parse_digits ?q ?v] =>
      pose proof (parse_digits_suffix q v);
      destruct (parse_digits q v) end; cbn [snd] in *; suffix_chain.
Qed.

Lemma shape_loop_suffix free :
  forall p t, suffix_of (fst (shape_loop free p t)) p.
Proof.
  induction free as [|free IH]; intros p t; cbn [shape_loop];
    [constructor|].
  destruct (_ || _); [constructor|].
  destruct (is_char (peek (skip_whitespace p)) "]"); cbn [fst];
    [suffix_chain|].
  pose proof (parse_int_suffix (skip_whitespace p)) as Hi.
  destruct (parse_int (skip_whitespace p)) as [v p1]; cbn [snd] in Hi.
  match goal with |- context [shape_loop free ?q ?u] =>
    pose proof (IH q u) as Hr end.
  fold (skip_comma p1) in *.
  eapply suffix_of_trans; [exact Hr|]. suffix_chain.
Qed.

Lemma skip_value_suffix p :
  forall depth in_string, suffix_of (skip_value p depth in_string) p.
Proof.
  remember (String.length p) as n eqn:Hn. revert p Hn.
  induction n as [n IH] using lt_wf_ind; intros p -> depth in_string.
  assert (Hrec : forall q d b, (String.length q < String.length p)%nat ->
                               suffix_of (skip_value q d b) q)
    by (intros q d b Hq; eapply IH; [exact Hq | reflexivity]).
  clear IH. destruct p as [|c p]; cbn [skip_value]; [constructor|].
  rewrite length_String in Hrec.
  repeat (case_match; try apply suffix_here);
    try (apply suffix_skip, Hrec; lia);
    subst; repeat apply suffix_skip; try apply Hrec;
    rewrite ?length_String; try lia; constructor.
Qed.

Lemma entry_value_suffix key p t :
  match entry_value key p t with
  | Ok (rest, _) => suffix_of rest p
  | Undef => suffix_of (String BACKSLASH "") p
  | _ => True
  end.
Proof.
  unfold entry_value.
  destruct (streq key "dtype").
  { pose proof (parse_string_suffix p 32) as H.
    destruct (parse_string p 32) as [[d p1]| | |]; done. }
  destruct (streq key "shape").
  { destruct (negb _); [done|].
    pose proof (shape_loop_suffix 8 (advance p) (set_ndim t 0)) as Hs.
    destruct (shape_loop 8 (advance p) (set_ndim t 0)) as [p1 t1].
    cbn [fst] in Hs. destruct (is_char (peek p1) "]"); suffix_chain. }
  destruct (streq key "data_offsets").
  { destruct (negb _); [done|].
    pose proof (parse_int_suffix (skip_whitespace (advance p))) as Hi1.
    destruct (parse_int (skip_whitespace (advance p))) as [v1 p1].
    cbn [snd] in Hi1. fold (skip_comma p1).
    pose proof (parse_int_suffix (skip_whitespace (skip_comma p1))) as Hi2.
    destruct (parse_int (skip_whitespace (skip_comma p1))) as [v2 p3].
    cbn [snd] in Hi2.
    assert (suffix_of p3 p) by suffix_chain.
    destruct (is_char _ "]"); suffix_chain. }
  apply skip_value_suffix.
Qed.

Lemma entry_loop_suffix f :
  forall p t,
    match entry_loop f p t with
    | Ok (rest, _) => suffix_of rest p
    | Undef => suffix_of (String BACKSLASH "") p
    | _ => True
    end.
Proof.
  induction f as [|f IH]; intros p t; [done|].
  change (entry_loop (S f) p t) with
    (if is_char (peek p) NUL || is_char (peek p) "}" then Ok (p, t)
     else if is_char (peek (skip_whitespace p)) "}"
          then Ok (skip_whitespace p, t)
          else parse_string (skip_whitespace p) 64 >>= fun '(key, p) =>
               if negb (is_char (peek (skip_whitespace p)) ":") then Fail
               else entry_value
                      key (skip_whitespace (advance (skip_whitespace p))) t
                    >>= fun '(p, t) => entry_loop f (skip_comma p) t).
  destruct (_ || _); [constructor|].
  destruct (is_char (peek (skip_whitespace p)) "}"); [suffix_chain|].
  pose proof (parse_string_suffix (skip_whitespace p) 64) as H1.
  destruct (parse_string _ 64) as [[key p1]| | |]; cbn [res_bind]; try done;
    [|suffix_chain].
  destruct (negb _); [done|].
  pose proof (entry_value_suffix
                key (skip_whitespace (advance (skip_whitespace p1))) t) as H2.
  destruct (entry_value key _ t) as [[p3 t3]| | |]; cbn [res_bind]; try done;
    [|suffix_chain].
  pose proof (IH (skip_comma p3) t3) as H3.
  destruct (entry_loop f (skip_comma p3) t3) as [[p4 t4]| | |]; try done;
    suffix_chain.
Qed.

Lemma parse_tensor_entry_suffix p t :
  match parse_tensor_entry p t with
  | Ok (rest, _) => suffix_of rest p
  | Undef => suffix_of (String BACKSLASH "") p
  | _ => True
  end.
Proof.
  unfold parse_tensor_entry. destruct (negb _); [done|].
  match goal with |- context [entry_loop ?f ?q ?u] =>
    pose proof (entry_loop_suffix f q u) as H;
    destruct (entry_loop f q u) as [[p1 t1]| | |] end;
    cbn [res_bind]; try done; [|suffix_chain].
  destruct (is_char _ _); suffix_chain.
Qed.

Lemma skip_metadata_suffix p : forall depth, suffix_of (skip_metadata p depth) p.
Proof.
  induction p as [|c p IH]; intros depth; cbn [skip_metadata]; [constructor|].
  repeat (case_match; try apply suffix_here);
    try (apply suffix_skip, IH); repeat constructor.
Qed.

Section HeaderReads.

Variable SAFETENSORS_MAX_TENSORS : nat.
Variable NAME_SIZE : nat.

Lemma header_loop_undef f :
  forall p acc,
    header_loop SAFETENSORS_MAX_TENSORS NAME_SIZE f p acc = Undef ->
    suffix_of (String BACKSLASH "") p.
Proof.
  induction f as [|f IH]; intros p acc; [done|]. cbn [header_loop].
  destruct (_ || _); [done|].
  destruct (is_char (peek (skip_whitespace p)) "}"); [done|].
  pose proof (parse_string_suffix (skip_whitespace p) 256) as H1.
  destruct (parse_string _ 256) as [[nm p1]| | |]; cbn [res_bind]; try done;
    [|intros _; suffix_chain].
  destruct (negb _); [done|].
  destruct (streq nm "__metadata__").
  - intros H%IH. fold (skip_comma (skip_metadata (advance (skip_whitespace p1)) 0)) in H.
    pose proof (skip_metadata_suffix (advance (skip_whitespace p1)) 0).
    suffix_chain.
  - match goal with |- context [parse_tensor_entry ?q ?u] =>
      pose proof (parse_tensor_entry_suffix q u) as H2;
      destruct (parse_tensor_entry q u) as [[p2 t2]| | |] end;
      cbn [res_bind]; try done; [|intros _; suffix_chain].
    intros H%IH. fold (skip_comma p2) in H. suffix_chain.
Qed.

Lemma parse_header_undef json :
  parse_header SAFETENSORS_MAX_TENSORS NAME_SIZE json = Undef ->
  suffix_of (String BACKSLASH "") json.
Proof.
  unfold parse_header. destruct (negb _); [done|].
  intros H%header_loop_undef. suffix_chain.
Qed.

(** X5. The header parser reads a byte beyond the terminator of the header
    copy only when the last byte of the header is a backslash, which
    [parse_string] steps over without looking at what it escapes.  A call of
    [safetensors_open] ends in [Crash] only through such a read: the
    parser overran the copy of the header region, and that region ends in a
    backslash.  This is a statement about the bytes read; the arithmetic of
    [parse_int] is taken as wrapping throughout and is no part of it. *)
Theorem header_read_overruns_only_after_backslash
    (json path : string) (w : world) :
  (parse_header SAFETENSORS_MAX_TENSORS NAME_SIZE json = Undef ->
   exists pre, json = pre +:+ String BACKSLASH "")
  /\ (safetensors_open SAFETENSORS_MAX_TENSORS NAME_SIZE path w = Crash ->
      exists f pre,
        w_files w !! path = Some f
        /\ parse_header SAFETENSORS_MAX_TENSORS NAME_SIZE
             (truncate (Z.to_nat (le_uint 8 (f_bytes f)))
                       (skipn_string 8 (f_bytes f)))
           = Undef
        /\ truncate (Z.to_nat (le_uint 8 (f_bytes f)))
                    (skipn_string 8 (f_bytes f))
           = pre +:+ String BACKSLASH "").
Proof.
  split.
  - intros H%parse_header_undef. by apply suffix_of_app.
  - unfold safetensors_open, sys_open. cbn [w_files].
    destruct (w_files w !! path) as [f|] eqn:Ef; [|done].
    cbn [acquire]. destruct (negb _); [done|]. destruct (_ <? 8); [done|].
    destruct (f_mmap_ok f); [|done]. cbn [acquire].
    destruct (_ >? _); [done|].
    pose proof (parse_header_terminates SAFETENSORS_MAX_TENSORS NAME_SIZE
      (truncate (Z.to_nat (le_uint 8 (f_bytes f)))
                (skipn_string 8 (f_bytes f)))) as Ht.
    destruct (parse_header _ _ _) eqn:Ep;
      repeat (match goal with |- context [malloc ?x] =>
                destruct (malloc x) as [[?|] ?] end; try done).
    all: intros _; exists f; pose proof Ep as Hu.
    all: apply parse_header_undef, suffix_of_app in Ep.
    all: destruct Ep as [pre Ep]; by exists pre.
Qed.

End HeaderReads.

Lemma header_read_overruns_only_after_backslash_witness :
  exists pre, dangling_escape_header = pre +:+ String BACKSLASH "".
Proof.
  apply (proj1 (header_read_overruns_only_after_backslash
                  16 256 dangling_escape_header "" (empty_world 0))).
  vm_compute. reflexivity.
Defined.

(** ** The tensor table *)

Lemma wrap_s64_range z : int64_range (wrap_s64 z).
Proof.
  unfold int64_range, wrap_s64.
  pose proof (Z.mod_pos_bound (z + 2^63) (2^64) ltac:(lia)). lia.
Qed.

Lemma wrap_u64_range z : uint64_range (wrap_u64 z).
Proof. unfold uint64_range, wrap_u64. apply Z.mod_pos_bound. lia. Qed.

Lemma parse_digits_range p :
  forall v, int64_range v -> int64_range (fst (parse_digits p v)).
Proof.
  induction p as [|c p IH]; intros v Hv; cbn [parse_digits]; [done|].
  destruct (is_digit c); [|done]. apply IH, wrap_s64_range.
Qed.

Lemma parse_int_range p : int64_range (fst (parse_int p)).
Proof.
  unfold parse_int.
  match goal with |- context [parse_digits ?q 0] =>
    pose proof (parse_digits_range q 0 ltac:(unfold int64_range; lia)) as H;
    destruct (parse_digits q 0) as [v r] end.
  cbn [fst] in *. destruct (is_char _ _); [apply wrap_s64_range | done].
Qed.

Lemma truncate_length n : forall s, (String.length (truncate n s) <= n)%nat.
Proof.
  induction n as [|n IH]; intros [|c s]; cbn [truncate];
    rewrite ?length_String; change (String.length "") with 0%nat; try lia.
  specialize (IH s). lia.
Qed.

Lemma fresh_slot_ok name_size nm : descriptor_ok name_size (fresh_slot name_size nm).
Proof.
  unfold fresh_slot. split; cbn.
  - apply cstr_truncate, cstr_idem.
  - apply truncate_length.
  - lia.
  - done.
  - repeat constructor; unfold int64_range; lia.
  - unfold uint64_range; lia.
  - unfold uint64_range; lia.
Qed.

Lemma shape_loop_ok name_size free :
  forall p t,
    (ndim t + free <= 8)%nat ->
    descriptor_ok name_size t ->
    descriptor_ok name_size (snd (shape_loop free p t)).
Proof.
  induction free as [|free IH]; intros p t Hn Hok; cbn [shape_loop]; [done|].
  destruct (_ || _); [done|].
  destruct (is_char (peek (skip_whitespace p)) "]"); [done|].
  pose proof (parse_int_range (skip_whitespace p)) as Hv.
  destruct (parse_int (skip_whitespace p)) as [v p1]. cbn [fst] in Hv.
  apply IH; [cbn; lia|].
  destruct Hok. split; cbn; try done.
  - lia.
  - by rewrite length_insert.
  - by apply Forall_insert.
Qed.

Lemma entry_value_ok name_size key p t p' t' :
  descriptor_ok name_size t ->
  entry_value key p t = Ok (p', t') ->
  descriptor_ok name_size t'.
Proof.
  intros Hok. unfold entry_value.
  destruct (streq key "dtype").
  { destruct (parse_string p 32) as [[d p1]| | |]; cbn [res_bind]; try done.
    intros [= _ <-]. by destruct Hok. }
  destruct (streq key "shape").
  { destruct (negb _); [done|].
    pose proof (shape_loop_ok name_size 8 (advance p) (set_ndim t 0)
                  ltac:(cbn; lia) ltac:(by destruct Hok; split; cbn; try lia))
      as Hs.
    destruct (shape_loop 8 (advance p) (set_ndim t 0)) as [p1 t1].
    by intros [= _ <-]. }
  destruct (streq key "data_offsets").
  { destruct (negb _); [done|].
    destruct (parse_int (skip_whitespace (advance p))) as [v1 p1].
    match goal with |- context [parse_int ?q] =>
      destruct (parse_int q) as [v2 p3] end.
    intros [= _ <-]. destruct Hok. split; cbn; try done;
      apply wrap_u64_range. }
  by intros [= _ <-].
Qed.

Lemma entry_loop_ok name_size f :
  forall p t p' t',
    descriptor_ok name_size t ->
    entry_loop f p t = Ok (p', t') ->
    descriptor_ok name_size t'.
Proof.
  induction f as [|f IH]; intros p t p' t' Hok; [done|].
  change (entry_loop (S f) p t) with
    (if is_char (peek p) NUL || is_char (peek p) "}" then Ok (p, t)
     else if is_char (peek (skip_whitespace p)) "}"
          then Ok (skip_whitespace p, t)
          else parse_string (skip_whitespace p) 64 >>= fun '(key, p) =>
               if negb (is_char (peek (skip_whitespace p)) ":") then Fail
               else entry_value
                      key (skip_whitespace (advance (skip_whitespace p))) t
                    >>= fun '(p, t) => entry_loop f (skip_comma p) t).
  destruct (_ || _); [by intros [= _ <-]|].
  destruct (is_char (peek (skip_whitespace p)) "}"); [by intros [= _ <-]|].
  destruct (parse_string _ 64) as [[key p1]| | |]; cbn [res_bind]; try done.
  destruct (negb _); [done|].
  destruct (entry_value key _ t) as [[p3 t3]| | |] eqn:Ev; cbn [res_bind];
    try done.
  apply IH. eapply entry_value_ok; [exact Hok | exact Ev].
Qed.

Lemma parse_tensor_entry_ok name_size p t p' t' :
  descriptor_ok name_size t ->
  parse_tensor_entry p t = Ok (p', t') ->
  descriptor_ok name_size t'.
Proof.
  intros Hok. unfold parse_tensor_entry. destruct (negb _); [done|].
  match goal with |- context [entry_loop ?f ?q ?u] =>
    destruct (entry_loop f q u) as [[p1 t1]| | |] eqn:El end;
    cbn [res_bind]; try done.
  intros [= _ <-]. eapply entry_loop_ok; [|exact El].
  destruct Hok. split; cbn; try done; unfold uint64_range; lia.
Qed.

Section Table.

Variable SAFETENSORS_MAX_TENSORS : nat.
Variable NAME_SIZE : nat.

Lemma header_loop_table f :
  forall p acc ts,
    (length acc <= SAFETENSORS_MAX_TENSORS)%nat ->
    Forall (descriptor_ok NAME_SIZE) acc ->
    header_loop SAFETENSORS_MAX_TENSORS NAME_SIZE f p acc = Ok ts ->
    (length ts <= SAFETENSORS_MAX_TENSORS)%nat
    /\ Forall (descriptor_ok NAME_SIZE) ts
    /\ acc `prefix_of` ts.
Proof.
  induction f as [|f IH]; intros p acc ts Hlen Hok; [done|].
  cbn [header_loop].
  destruct (length acc <? SAFETENSORS_MAX_TENSORS)%nat eqn:Elt.
  2:{ rewrite orb_true_r. by intros [= <-]. }
  apply Nat.ltb_lt in Elt. rewrite orb_false_r.
  destruct (_ || _); [by intros [= <-]|].
  destruct (is_char (peek (skip_whitespace p)) "}"); [by intros [= <-]|].
  destruct (parse_string _ 256) as [[nm p1]| | |]; cbn [res_bind]; try done.
  destruct (negb _); [done|].
  destruct (streq nm "__metadata__"); [by apply IH|].
  match goal with |- context [parse_tensor_entry ?q ?u] =>
    destruct (parse_tensor_entry q u) as [[p2 t2]| | |] eqn:Et end;
    cbn [res_bind]; try done.
  intros H. apply IH in H as (H1 & H2 & H3).
  - repeat split; try done. etrans; [|exact H3]. by apply prefix_app_r.
  - rewrite length_app. cbn. lia.
  - apply Forall_app. split; [done|]. constructor; [|done].
    eapply parse_tensor_entry_ok; [apply fresh_slot_ok | exact Et].
Qed.

Lemma parse_header_table json ts :
  parse_header SAFETENSORS_MAX_TENSORS NAME_SIZE json = Ok ts ->
  (length ts <= SAFETENSORS_MAX_TENSORS)%nat
  /\ Forall (descriptor_ok NAME_SIZE) ts.
Proof.
  unfold parse_header. destruct (negb _); [done|].
  intros H. apply header_loop_table in H as (H1 & H2 & _); [done|cbn; lia|done].
Qed.

(** X6. Every table that [parse_header] returns fits the array: it has at
    most [SAFETENSORS_MAX_TENSORS] descriptors, and each of them has a
    NUL-free name that fits the [name] array, at most 8 dimensions in the 8
    slots of [shape], and offsets that are [size_t] values. *)
Theorem parsed_table_fits_the_arrays (json : string) (ts : list safetensor_t) :
  parse_header SAFETENSORS_MAX_TENSORS NAME_SIZE json = Ok ts ->
  (length ts <= SAFETENSORS_MAX_TENSORS)%nat
  /\ Forall (descriptor_ok NAME_SIZE) ts.
Proof.
  unfold parse_header. destruct (negb _); [done|].
  intros H. apply header_loop_table in H as (Hlen & Hok & _);
    [by split | cbn; lia | constructor].
Qed.

End Table.

Lemma parsed_table_fits_the_arrays_witness :
  exists ts,
    parse_header 1 4 two_entry_header = Ok ts
    /\ (length ts <= 1)%nat /\ Forall (descriptor_ok 4) ts.
Proof.
  eexists. split; [vm_compute; reflexivity|].
  apply (parsed_table_fits_the_arrays 1 4 two_entry_header).
  vm_compute. reflexivity.
Defined.

(** ** Resources of a single file *)

Ltac settle_ids :=
  repeat match goal with
  | |- context [Nat.eqb ?a ?b] =>
      first [ replace (Nat.eqb a b) with true
                by (symmetry; apply Nat.eqb_eq; lia)
            | replace (Nat.eqb a b) with false
                by (symmetry; apply Nat.eqb_neq; lia) ]
  end.

Ltac run_world :=
  repeat (progress (
    cbn [acquire release free malloc safetensors_close remove_first
         resource_eqb fmap option_fmap option_map fst snd
         w_next w_live w_files w_dirs w_budget w_stderr w_opens
         sf_block path data header_json file_size header_size tensors];
    settle_ids)).

Lemma le_uint_nonneg n : forall bytes, 0 <= le_uint n bytes.
Proof.
  induction n as [|n IH]; intros [|c bytes]; cbn [le_uint]; try lia.
  specialize (IH bytes). pose proof (code_range c). lia.
Qed.

Section SingleFile.

Variable SAFETENSORS_MAX_TENSORS : nat.
Variable NAME_SIZE : nat.

(** X7. A call of [safetensors_open] that returns [NULL] has released what
    it acquired on the way: the descriptor, the mapping and the three heap
    blocks.  The process holds the same resources as before the call. *)
Theorem failed_open_releases_everything (path : string) (w w' : world) :
  safetensors_open SAFETENSORS_MAX_TENSORS NAME_SIZE path w = Done None w' ->
  w_live w' = w_live w.
Proof.
  unfold safetensors_open, sys_open. cbn [w_files].
  destruct (w_files w !! path) as [f|]; [|by intros [= <-]].
  run_world.
  destruct (negb _). { intros [= <-]. run_world; reflexivity. }
  destruct (_ <? 8). { intros [= <-]. run_world; reflexivity. }
  destruct (f_mmap_ok f); run_world;
    [|intros [= <-]; run_world; reflexivity].
  destruct (_ >? _). { intros [= <-]. run_world; reflexivity. }
  unfold malloc at 1. run_world.
  destruct (w_budget w) as [|b1]; run_world.
  { intros [= <-]. run_world; reflexivity. }
  unfold malloc at 1. run_world.
  destruct b1 as [|b2]; run_world.
  - intros [= <-]. run_world; reflexivity.
  - destruct b2 as [|b3]; run_world.
    + intros [= <-]. run_world; reflexivity.
    + destruct (parse_header _ _ _); try done.
      intros [= <-]. run_world; reflexivity.
Qed.

(** X8. [safetensors_close] on the handle that [safetensors_open] returned
    releases exactly what the open acquired: afterwards the process holds
    the resources it held before the open. *)
Theorem close_undoes_open
    (path : string) (w w' : world) (sf : safetensors_file_t) :
  safetensors_open SAFETENSORS_MAX_TENSORS NAME_SIZE path w
  = Done (Some sf) w' ->
  w_live (safetensors_close (Some sf) w') = w_live w.
Proof.
  unfold safetensors_open, sys_open. cbn [w_files].
  destruct (w_files w !! path) as [f|]; [|done].
  run_world.
  destruct (negb _); [done|]. destruct (_ <? 8); [done|].
  destruct (f_mmap_ok f); run_world; [|done].
  destruct (_ >? _); [done|].
  unfold malloc at 1. run_world.
  destruct (w_budget w) as [|b1]; run_world; [done|].
  unfold malloc at 1. run_world.
  destruct b1 as [|b2]; run_world; [done|].
  destruct b2 as [|b3]; run_world; [done|].
  destruct (parse_header _ _ _); try done.
  intros [= <- <-]. run_world; reflexivity.
Qed.

Lemma safetensors_open_table p w w' sf :
  safetensors_open SAFETENSORS_MAX_TENSORS NAME_SIZE p w
  = Done (Some sf) w' ->
  (num_tensors sf <= SAFETENSORS_MAX_TENSORS)%nat
  /\ Forall (descriptor_ok NAME_SIZE) (tensors sf).
Proof.
  unfold safetensors_open, sys_open. cbn [w_files].
  destruct (w_files w !! p) as [f|]; [|done].
  destruct (acquire Fd _) as [fd w1].
  destruct (negb _); [done|]. destruct (_ <? 8); [done|].
  destruct (f_mmap_ok f); [|done].
  destruct (acquire Mapping _) as [m w2].
  destruct (_ >? _); [done|].
  destruct (malloc _) as [[b|] w3]; [|done].
  destruct (malloc _) as [dup w4].
  destruct (malloc _) as [[h|] w5]; [|done].
  destruct (parse_header _ _ _) as [ts| | |] eqn:Eh; try done.
  intros [= <- <-]. exact (parse_header_table _ _ _ _ Eh).
Qed.

(** X9. The handle that [safetensors_open] returns describes the file it was
    given: the mapping shows the bytes of the file, [header_size] is the
    little-endian value of the first 8 bytes and the header lies inside the
    file, [header_json] is a copy of the header, and the tensor table is what
    [parse_header] read from it, within the capacity of the array. *)
Theorem opened_handle_describes_the_file
    (p : string) (w w' : world) (sf : safetensors_file_t) :
  safetensors_open SAFETENSORS_MAX_TENSORS NAME_SIZE p w
  = Done (Some sf) w' ->
  exists f,
    w_files w !! p = Some f
    /\ f_fstat_ok f = true /\ f_mmap_ok f = true
    /\ snd (data sf) = f_bytes f
    /\ file_size sf = Z.of_nat (String.length (f_bytes f))
    /\ header_size sf = le_uint 8 (f_bytes f)
    /\ 0 <= header_size sf <= file_size sf - 8
    /\ snd <$> header_json sf
       = Some (truncate (Z.to_nat (header_size sf))
                        (skipn_string 8 (f_bytes f)))
    /\ parse_header SAFETENSORS_MAX_TENSORS NAME_SIZE
         (truncate (Z.to_nat (header_size sf)) (skipn_string 8 (f_bytes f)))
       = Ok (tensors sf)
    /\ (num_tensors sf <= SAFETENSORS_MAX_TENSORS)%nat
    /\ Forall (descriptor_ok NAME_SIZE) (tensors sf).
Proof.
  unfold safetensors_open, sys_open. cbn [w_files].
  destruct (w_files w !! p) as [f|]; [|done].
  destruct (acquire Fd _) as [fd w1].
  destruct (f_fstat_ok f) eqn:Es; [|done]. cbn [negb].
  destruct (_ <? 8); [done|].
  destruct (f_mmap_ok f) eqn:Em; [|done].
  destruct (acquire Mapping _) as [m w2].
  destruct (_ >? _) eqn:Egt; [done|].
  destruct (malloc _) as [[b|] w3]; [|done].
  destruct (malloc _) as [dup w4].
  destruct (malloc _) as [[h|] w5]; [|done].
  destruct (parse_header _ _ _) as [ts| | |] eqn:Eh; try done.
  intros [= <- <-]. exists f. cbn.
  pose proof (le_uint_nonneg 8 (f_bytes f)).
  pose proof (parse_header_table _ _ _ _ Eh) as [? ?].
  rewrite Z.gtb_ltb in Egt. apply Z.ltb_ge in Egt.
  repeat split; try done; lia.
Qed.

End SingleFile.

Lemma failed_open_releases_everything_witness :
  exists w',
    safetensors_open 16 256 "m.safetensors" bad_header_world = Done None w'
    /\ w_live w' = [Heap 4; Heap 2]%nat.
Proof.
  eexists. split; [vm_compute; reflexivity|].
  apply (failed_open_releases_everything 16 256 "m.safetensors"
           bad_header_world).
  vm_compute. reflexivity.
Defined.

Lemma close_undoes_open_witness :
  exists sf w',
    safetensors_open 16 256 "m.safetensors" good_world = Done (Some sf) w'
    /\ length (w_live w') = 6%nat
    /\ w_live (safetensors_close (Some sf) w') = [Heap 4; Heap 2]%nat.
Proof.
  eexists _, _. split; [vm_compute; reflexivity|].
  split; [vm_compute; reflexivity|].
  apply (close_undoes_open 16 256 "m.safetensors" good_world).
  vm_compute. reflexivity.
Defined.

Lemma opened_handle_describes_the_file_witness :
  exists sf w',
    safetensors_open 16 256 "m.safetensors" good_world = Done (Some sf) w'
    /\ 0 <= header_size sf <= file_size sf - 8
    /\ (num_tensors sf <= 16)%nat
    /\ Forall (descriptor_ok 256) (tensors sf).
Proof.
  eexists _, _.
  match goal with |- ?E /\ _ => assert (H : E) by (vm_compute; reflexivity) end.
  split; [exact H|].
  destruct (opened_handle_describes_the_file _ _ _ _ _ _ H)
    as (f & _ & _ & _ & _ & _ & _ & Hin & _ & _ & Hn & Hok).
  repeat split; (exact Hok || exact Hn || apply Hin).
Defined.

(** ** Tensor data *)

Lemma wrap_s64_mul a b : wrap_s64 (wrap_s64 a * b) = wrap_s64 (a * b).
Proof.
  apply wrap_s64_eq_mod. rewrite <- Zmult_mod_idemp_l, wrap_s64_mod.
  by rewrite Zmult_mod_idemp_l.
Qed.

Lemma wrap_s64_small z : - 2^63 <= z < 2^63 -> wrap_s64 z = z.
Proof. intros H. unfold wrap_s64. rewrite Z.mod_small; lia. Qed.

Lemma numel_fold dims :
  forall n, foldl (fun n d => wrap_s64 (n * d)) (wrap_s64 n) dims
            = wrap_s64 (n * foldr Z.mul 1 dims).
Proof.
  induction dims as [|d dims IH]; intros n; cbn [foldl foldr].
  - by rewrite Z.mul_1_r.
  - rewrite wrap_s64_mul, IH. f_equal. lia.
Qed.

Lemma skipn_string_length n :
  forall s, String.length (skipn_string n s) = (String.length s - n)%nat.
Proof.
  induction n as [|n IH]; intros [|c s]; cbn [skipn_string];
    rewrite ?length_String; change (String.length "") with 0%nat; try lia.
  rewrite IH. lia.
Qed.

Lemma skipn_string_add a :
  forall b s, skipn_string a (skipn_string b s) = skipn_string (b + a) s.
Proof.
  intros b. revert a. induction b as [|b IH]; intros a s; [done|].
  destruct s as [|c s]; cbn [skipn_string Nat.add]; [by destruct a|]. apply IH.
Qed.

Lemma read_le_none width n :
  forall s,
    (0 < width)%nat ->
    read_le width n s = None <-> (String.length s < n * width)%nat.
Proof.
  induction n as [|n IH]; intros s Hw; cbn [read_le].
  - split; [done | lia].
  - destruct (String.length s <? width)%nat eqn:E.
    + apply Nat.ltb_lt in E. split; [lia | done].
    + apply Nat.ltb_ge in E.
      specialize (IH (skipn_string width s) Hw).
      rewrite skipn_string_length in IH.
      destruct (read_le width n (skipn_string width s)) as [vs|]; cbn.
      * split; [done|]. intros H. exfalso.
        assert (Some vs = None) as [=]. apply IH. lia.
      * split; [|done]. intros _. destruct IH as [IH _].
        specialize (IH eq_refl). lia.
Qed.

Lemma read_le_lookup width n :
  forall s vs,
    read_le width n s = Some vs ->
    length vs = n
    /\ forall i, (i < n)%nat ->
         vs !! i = Some (le_uint width (skipn_string (i * width) s)).
Proof.
  induction n as [|n IH]; intros s vs; cbn [read_le].
  - intros [= <-]. split; [done | lia].
  - destruct (_ <? _)%nat; [done|].
    destruct (read_le width n (skipn_string width s)) as [vs'|] eqn:E;
      [|done].
    cbn. intros [= <-]. destruct (IH _ _ E) as [Hl Hi]. split; [cbn; lia|].
    intros [|i] Hlt; [done|]. cbn [lookup list_lookup].
    change ((vs' !! i) = Some (le_uint width (skipn_string (S i * width) s))).
    rewrite Hi by lia. rewrite skipn_string_add. repeat f_equal; lia.
Qed.

Lemma product_nonneg dims : Forall (fun d => 0 <= d) dims -> 0 <= product dims.
Proof.
  induction 1 as [|d dims Hd _ IH]; cbn; [lia|]. fold (product dims). lia.
Qed.

Lemma product_zero dims : 0 ∈ dims -> product dims = 0.
Proof.
  induction dims as [|d dims IH]; [by intros ?%elem_of_nil|].
  intros [<-|H]%elem_of_cons; cbn; fold (product dims); [lia|].
  rewrite IH by done. lia.
Qed.

Lemma safetensor_numel_wrap t :
  safetensor_numel t = wrap_s64 (product (take (ndim t) (shape t))).
Proof.
  unfold safetensor_numel, product.
  change 1 with (wrap_s64 1) at 1. rewrite numel_fold. f_equal. lia.
Qed.

(** X10. [safetensor_numel] is the product of the first [ndim] entries of
    [shape], as long as that product fits [int64_t]; a descriptor with no
    dimension counts one element. *)
Theorem numel_is_the_product_of_the_dimensions (t : safetensor_t) :
  Forall (fun d => 0 <= d) (take (ndim t) (shape t)) ->
  product (take (ndim t) (shape t)) < 2^63 ->
  safetensor_numel t = product (take (ndim t) (shape t))
  /\ (ndim t = 0%nat -> safetensor_numel t = 1).
Proof.
  intros Hpos Hlt. rewrite safetensor_numel_wrap.
  pose proof (product_nonneg _ Hpos).
  rewrite wrap_s64_small by lia. split; [done|]. by intros ->.
Qed.

Lemma numel_is_the_product_of_the_dimensions_witness :
  safetensor_numel (mk_tensor "w" DTYPE_F32 3 [2; 3; 4; 9; 0; 0; 0; 0] 0 96)
  = 24.
Proof.
  apply (numel_is_the_product_of_the_dimensions
           (mk_tensor "w" DTYPE_F32 3 [2; 3; 4; 9; 0; 0; 0; 0] 0 96)).
  - cbn. repeat constructor; lia.
  - vm_compute. reflexivity.
Defined.

(** X11. A tensor with a dimension of size zero cannot be fetched:
    [safetensors_get_f32] returns [NULL] for it, as on a failure, without
    allocating anything. *)
Theorem empty_tensor_is_fetched_as_null
    (sf : safetensors_file_t) (t : safetensor_t) (w : world) :
  0 ∈ take (ndim t) (shape t) ->
  safetensor_numel t = 0 /\ safetensors_get_f32 sf t w = Done None w.
Proof.
  intros H. assert (safetensor_numel t = 0) as E.
  { rewrite safetensor_numel_wrap, product_zero by done. reflexivity. }
  split; [done|]. unfold safetensors_get_f32. by rewrite E.
Qed.

Lemma empty_tensor_is_fetched_as_null_witness :
  safetensors_get_f32
    (mk_sf 1 None (2%nat, "") 0 0 None [])
    (mk_tensor "w" DTYPE_F32 2 [5; 0; 0; 0; 0; 0; 0; 0] 0 0) busy_world
  = Done None busy_world.
Proof.
  apply (empty_tensor_is_fetched_as_null
           (mk_sf 1 None (2%nat, "") 0 0 None [])
           (mk_tensor "w" DTYPE_F32 2 [5; 0; 0; 0; 0; 0; 0; 0] 0 0)
           busy_world).
  cbn. apply elem_of_cons. right. apply elem_of_cons. by left.
Defined.

(** X12. When [safetensors_get_f32] returns [NULL] the process holds what it
    held before: on an unsupported type the buffer is freed again. *)
Theorem fetch_returning_null_keeps_nothing
    (sf : safetensors_file_t) (t : safetensor_t) (w w' : world) :
  safetensors_get_f32 sf t w = Done None w' -> w_live w' = w_live w.
Proof.
  unfold safetensors_get_f32. destruct (_ <=? 0); [by intros [= <-]|].
  unfold malloc at 1. destruct (w_budget w) as [|b]; [by intros [= <-]|].
  run_world. destruct (dtype t); try (intros [= <-]; run_world; reflexivity);
    by destruct (read_le _ _ _).
Qed.

Lemma fetch_returning_null_keeps_nothing_witness :
  exists w',
    safetensors_get_f32
      (mk_sf 1 None (2%nat, "") 0 0 None [])
      (mk_tensor "w" DTYPE_I64 1 [5; 0; 0; 0; 0; 0; 0; 0] 0 40) busy_world
    = Done None w'
    /\ w_live w' = [Heap 4; Heap 2]%nat /\ w_budget w' = 7%nat.
Proof.
  eexists. split; [vm_compute; reflexivity|]. split; [|reflexivity].
  apply (fetch_returning_null_keeps_nothing
           (mk_sf 1 None (2%nat, "") 0 0 None [])
           (mk_tensor "w" DTYPE_I64 1 [5; 0; 0; 0; 0; 0; 0; 0] 0 40)
           busy_world).
  vm_compute. reflexivity.
Defined.

(** X13. The buffer that [safetensors_get_f32] returns is one new block that
    the caller owns, and it holds [safetensor_numel] floats: element [i] is
    decoded from the bytes of the mapping at [safetensors_data] plus [i]
    times the width of the stored type, 4 bytes copied for F32 and 2 bytes
    widened for BF16.  No other type gives a buffer. *)
Theorem fetched_buffer_holds_the_decoded_elements
    (sf : safetensors_file_t) (t : safetensor_t) (w w' : world)
    (out : nat) (vs : list Z) :
  safetensor_numel t < 2^62 ->
  safetensors_get_f32 sf t w = Done (Some (out, vs)) w' ->
  w_live w' = Heap out :: w_live w
  /\ 0 < safetensor_numel t
  /\ (dtype t = DTYPE_F32 \/ dtype t = DTYPE_BF16)
  /\ length vs = Z.to_nat (safetensor_numel t)
  /\ forall i, (i < Z.to_nat (safetensor_numel t))%nat ->
       vs !! i
       = Some (decode_element (dtype t)
                 (skipn_string (Z.to_nat (safetensors_data sf t)
                                + i * element_width (dtype t))
                               (snd (data sf)))).
Proof.
  intros _. unfold safetensors_get_f32.
  destruct (_ <=? 0) eqn:En; [done|]. apply Z.leb_gt in En.
  unfold malloc at 1. destruct (w_budget w) as [|b]; [done|].
  run_world. destruct (dtype t) eqn:Ed; try done.
  - destruct (read_le 4 _ _) as [vs'|] eqn:Er; [|done].
    intros [= <- <- <-]. apply read_le_lookup in Er as [Hl Hi].
    repeat split; [done | by left | done |].
    intros i Hlt. rewrite Hi by done. by rewrite skipn_string_add.
  - destruct (read_le 2 _ _) as [vs'|] eqn:Er; [|done].
    intros [= <- <- <-]. apply read_le_lookup in Er as [Hl Hi].
    repeat split; [done | by right | by rewrite length_fmap |].
    intros i Hlt. rewrite list_lookup_fmap, Hi by done.
    by rewrite skipn_string_add.
Qed.

Lemma fetched_buffer_holds_the_decoded_elements_witness :
  exists out vs w',
    safetensors_get_f32
      (mk_sf 1 None (2%nat, le_bytes 8 2 +:+ "{}" +:+ "abcd") 14 2 None [])
      (mk_tensor "w" DTYPE_BF16 1 [2; 0; 0; 0; 0; 0; 0; 0] 0 4) busy_world
    = Done (Some (out, vs)) w'
    /\ w_live w' = Heap out :: w_live busy_world
    /\ length vs = 2%nat.
Proof.
  eexists _, _, _.
  match goal with |- ?E /\ _ => assert (H : E) by (vm_compute; reflexivity) end.
  split; [exact H|].
  assert (safetensor_numel
            (mk_tensor "w" DTYPE_BF16 1 [2; 0; 0; 0; 0; 0; 0; 0] 0 4) < 2^62)
    as Hn by (vm_compute; reflexivity).
  destruct (fetched_buffer_holds_the_decoded_elements _ _ _ _ _ _ Hn H)
    as (Hl & _ & _ & Hv & _).
  split; [exact Hl | exact Hv].
Defined.

(** X14. [safetensors_get_f32] reads outside the mapping exactly when the
    elements do not all lie inside it: when [safetensors_data], the offset
    that the wrapping pointer sum gives, plus the element count times the
    element width exceeds the size of the file; nothing in the function
    checks this. *)
Theorem fetch_leaves_the_mapping_iff_data_exceeds_it
    (sf : safetensors_file_t) (t : safetensor_t) (w : world) :
  0 < safetensor_numel t < 2^62 ->
  w_budget w <> 0%nat ->
  dtype t = DTYPE_F32 \/ dtype t = DTYPE_BF16 ->
  0 <= safetensors_data sf t < 2^64
  /\ safetensors_data sf t
     = (8 + header_size sf + data_offset t) mod 2^64
  /\ (safetensors_get_f32 sf t w = Crash
      <-> Z.of_nat (String.length (snd (data sf)))
          < safetensors_data sf t
            + Z.of_nat (element_width (dtype t)) * safetensor_numel t).
Proof.
  intros [Hn _] Hb Hd.
  assert (Hoff : 0 <= safetensors_data sf t < 2^64)
    by (apply Z.mod_pos_bound; lia).
  split; [done|]. split; [done|]. unfold safetensors_get_f32.
  destruct (_ <=? 0) eqn:En; [apply Z.leb_le in En; lia|].
  unfold malloc at 1. destruct (w_budget w) as [|b]; [done|]. run_world.
  assert (forall width,
            (0 < width)%nat ->
            read_le width (Z.to_nat (safetensor_numel t))
              (skipn_string (Z.to_nat (safetensors_data sf t)) (snd (data sf)))
            = None
            <-> Z.of_nat (String.length (snd (data sf)))
                < safetensors_data sf t
                  + Z.of_nat width * safetensor_numel t) as Hr.
  { intros width Hw. rewrite read_le_none, skipn_string_length by done. nia. }
  destruct Hd as [-> | ->]; cbn [element_width].
  - rewrite <- (Hr 4%nat) by lia. by destruct (read_le 4 _ _).
  - rewrite <- (Hr 2%nat) by lia. by destruct (read_le 2 _ _).
Qed.

Lemma fetch_leaves_the_mapping_iff_data_exceeds_it_witness :
  safetensors_get_f32
    (mk_sf 1 None (2%nat, le_bytes 8 2 +:+ "{}" +:+ "abcd") 14 2 None [])
    (mk_tensor "w" DTYPE_F32 1 [2; 0; 0; 0; 0; 0; 0; 0] 0 8) busy_world
  = Crash
  /\ exists out vs w',
       safetensors_get_f32
         (mk_sf 1 None (2%nat, le_bytes 8 2 +:+ "{}" +:+ "abcd") 14 2 None [])
         (mk_tensor "w" DTYPE_F32 1 [1; 0; 0; 0; 0; 0; 0; 0] (2^64 - 4) 4)
         busy_world
       = Done (Some (out, vs)) w'.
Proof.
  split.
  - apply (fetch_leaves_the_mapping_iff_data_exceeds_it
             (mk_sf 1 None (2%nat, le_bytes 8 2 +:+ "{}" +:+ "abcd")
                    14 2 None [])
             (mk_tensor "w" DTYPE_F32 1 [2; 0; 0; 0; 0; 0; 0; 0] 0 8)
             busy_world).
    + vm_compute. split; reflexivity.
    + vm_compute. discriminate.
    + by left.
    + vm_compute. reflexivity.
  - destruct (safetensors_get_f32
                (mk_sf 1 None (2%nat, le_bytes 8 2 +:+ "{}" +:+ "abcd")
                       14 2 None [])
                (mk_tensor "w" DTYPE_F32 1 [1; 0; 0; 0; 0; 0; 0; 0]
                           (2^64 - 4) 4)
                busy_world) as [[[out vs]|] w'|] eqn:E.
    + by exists out, vs, w'.
    + vm_compute in E. discriminate E.
    + apply (fetch_leaves_the_mapping_iff_data_exceeds_it
               (mk_sf 1 None (2%nat, le_bytes 8 2 +:+ "{}" +:+ "abcd")
                      14 2 None [])
               (mk_tensor "w" DTYPE_F32 1 [1; 0; 0; 0; 0; 0; 0; 0]
                          (2^64 - 4) 4)
               busy_world) in E;
        [vm_compute in E; discriminate E
        | vm_compute; split; reflexivity
        | vm_compute; discriminate
        | by left].
Defined.

Lemma le_uint_range n :
  forall bytes, 0 <= le_uint n bytes < 256 ^ Z.of_nat n.
Proof.
  induction n as [|n IH]; intros bytes; [cbn; lia|].
  rewrite Nat2Z.inj_succ, Z.pow_succ_r by lia.
  destruct bytes as [|c bytes]; cbn [le_uint]; [lia|].
  specialize (IH bytes). pose proof (code_range c). lia.
Qed.

(** X15. [safetensors_get_bf16_direct] gives a pointer only for a file and a
    descriptor of type BF16, and then it is [safetensors_data].  The floats
    that [safetensors_get_f32] returns for that descriptor are the 16-bit
    values behind this pointer, each in the upper half of its word: the
    upper 16 bits of float [i] are the value stored at [2 * i]. *)
Theorem direct_bf16_view_agrees_with_fetch
    (sf : safetensors_file_t) (t : safetensor_t) (w w' : world)
    (out : nat) (vs : list Z) (off : Z) :
  safetensor_numel t < 2^62 ->
  safetensors_get_bf16_direct (Some sf) (Some t) = Some off ->
  safetensors_get_f32 sf t w = Done (Some (out, vs)) w' ->
  safetensor_is_bf16 (Some t) = true
  /\ off = safetensors_data sf t
  /\ forall i, (i < Z.to_nat (safetensor_numel t))%nat ->
       exists v,
         vs !! i = Some v
         /\ Z.shiftr v 16
            = le_uint 2 (skipn_string (Z.to_nat off + i * 2) (snd (data sf)))
         /\ Z.land v (2^16 - 1) = 0.
Proof.
  intros Hn Hd Hf. cbn in Hd |- *.
  destruct (dtype t) eqn:Ed; try done. injection Hd as <-.
  repeat split.
  intros i Hi.
  unfold safetensors_get_f32 in Hf.
  destruct (_ <=? 0); [done|].
  destruct (malloc w) as [[o|] w1]; [|done]. rewrite Ed in Hf.
  destruct (read_le 2 _ _) as [vs'|] eqn:Er; [|done].
  injection Hf as <- <- <-. apply read_le_lookup in Er as [_ Hv].
  specialize (Hv i Hi). rewrite skipn_string_add in Hv.
  eexists. split; [by rewrite list_lookup_fmap, Hv|].
  match goal with |- context [le_uint 2 ?s] =>
    pose proof (le_uint_range 2 s) as Hr; set (v := le_uint 2 s) in * end.
  change (256 ^ Z.of_nat 2) with (2^16) in Hr.
  rewrite (bf16_to_f32_shift v Hr). split.
  - rewrite Z.shiftr_div_pow2 by lia. apply Z_div_mult. lia.
  - change (2^16 - 1) with (Z.ones 16). rewrite Z.land_ones by lia.
    apply Z_mod_mult.
Qed.

Lemma direct_bf16_view_agrees_with_fetch_witness :
  exists out vs w',
    safetensors_get_f32
      (mk_sf 1 None (2%nat, le_bytes 8 2 +:+ "{}" +:+ "abcd") 14 2 None [])
      (mk_tensor "w" DTYPE_BF16 1 [2; 0; 0; 0; 0; 0; 0; 0] 0 4) busy_world
    = Done (Some (out, vs)) w'
    /\ safetensors_get_bf16_direct
         (Some (mk_sf 1 None (2%nat, le_bytes 8 2 +:+ "{}" +:+ "abcd")
                      14 2 None []))
         (Some (mk_tensor "w" DTYPE_BF16 1 [2; 0; 0; 0; 0; 0; 0; 0] 0 4))
       = Some 10
    /\ exists v, vs !! 1%nat = Some v /\ Z.shiftr v 16 = 25699.
Proof.
  eexists _, _, _.
  match goal with |- ?E /\ _ => assert (H : E) by (vm_compute; reflexivity) end.
  split; [exact H|].
  match goal with |- ?E /\ _ => assert (Hd : E) by reflexivity end.
  split; [exact Hd|].
  assert (safetensor_numel
            (mk_tensor "w" DTYPE_BF16 1 [2; 0; 0; 0; 0; 0; 0; 0] 0 4) < 2^62)
    as Hn by (vm_compute; reflexivity).
  destruct (direct_bf16_view_agrees_with_fetch _ _ _ _ _ _ _ Hn Hd H)
    as (_ & _ & Hv).
  destruct (Hv 1%nat ltac:(vm_compute; lia)) as (v & Hv1 & Hv2 & _).
  exists v. split; [exact Hv1|]. rewrite Hv2. vm_compute. reflexivity.
Defined.

(** ** The directory scan *)

Lemma scan_dir_take max entries :
  forall acc,
    scan_dir max entries acc
    = acc ++ take (max - length acc)
                  ((fun e => snprintf 256 (cstr e)) <$> filter matching entries).
Proof.
  induction entries as [|e entries IH]; intros acc; cbn [scan_dir].
  - by rewrite filter_nil, fmap_nil, take_nil, app_nil_r.
  - destruct (length acc <? max)%nat eqn:E.
    + apply Nat.ltb_lt in E. rewrite IH, filter_cons.
      fold (matching e). unfold matching at 1.
      destruct (shard_pattern (cstr e)) eqn:Em.
      * rewrite decide_True by done. rewrite fmap_cons.
        rewrite length_app. cbn [length].
        replace (max - length acc)%nat with (S (max - (length acc + 1)))
          by lia.
        cbn [take]. by rewrite <- app_assoc.
      * rewrite decide_False by (unfold matching; congruence). done.
    + apply Nat.ltb_ge in E.
      replace (max - length acc)%nat with 0%nat by lia.
      by rewrite take_0, app_nil_r.
Qed.

Lemma prefix_app n :
  forall h, String.prefix n h = true <-> exists post, h = n +:+ post.
Proof.
  induction n as [|c n IH]; intros h.
  - split; [intros _; by exists h | by destruct h].
  - destruct h as [|d h]; cbn [String.prefix];
      [split; [done | by intros [? [=]]]|].
    destruct (Ascii.ascii_dec c d) as [->|Hne].
    + rewrite IH. split; intros [post E]; exists post; cbn in *; congruence.
    + split; [done|]. intros [post E]. cbn in E. congruence.
Qed.

Lemma strstr_found_app n h :
  strstr_found h n = true <-> exists pre post, h = pre +:+ n +:+ post.
Proof.
  induction h as [|d h IH]; cbn [strstr_found].
  - rewrite orb_false_r, prefix_app. split.
    + intros [post E]. by exists "", post.
    + intros (pre & post & E). destruct pre as [|c pre]; [|done].
      by exists post.
  - rewrite orb_true_iff, prefix_app, IH. split.
    + intros [[post E] | (pre & post & E)].
      * by exists "", post.
      * exists (String d pre), post. cbn. by rewrite E.
    + intros (pre & post & E). destruct pre as [|c pre].
      * left. by exists post.
      * right. exists pre, post. cbn in E. congruence.
Qed.

Lemma strncmp_model s :
  strncmp_eq s "model-" 6 = true <-> exists rest, s = "model-" +:+ rest.
Proof.
  split.
  - intros H.
    do 6 (destruct s as [|? s]; cbn in H; [discriminate|];
          apply andb_true_iff in H as [H1 H]; apply is_char_eq in H1;
          subst; cbn in H).
    by exists s.
  - intros [rest ->]. by destruct rest.
Qed.

Section Scan.

Variable SAFETENSORS_MAX_SHARDS : nat.

(** X16. The scan of the directory keeps the first
    [SAFETENSORS_MAX_SHARDS] entries that match, in the order [readdir]
    gives them, each cut to the 255 bytes that fit a slot of [shard_names];
    further matching entries are dropped without a diagnostic. *)
Theorem directory_scan_keeps_the_first_matches (entries : list string) :
  scan_dir SAFETENSORS_MAX_SHARDS entries []
  = take SAFETENSORS_MAX_SHARDS
         ((fun e => snprintf 256 (cstr e)) <$> filter matching entries)
  /\ (length (scan_dir SAFETENSORS_MAX_SHARDS entries [])
      <= SAFETENSORS_MAX_SHARDS)%nat
  /\ Forall (fun nm => (String.length nm <= 255)%nat /\ cstr nm = nm)
            (scan_dir SAFETENSORS_MAX_SHARDS entries []).
Proof.
  rewrite scan_dir_take. cbn [app length]. rewrite Nat.sub_0_r.
  split; [done|]. split; [rewrite length_take; lia|].
  apply Forall_take, Forall_fmap, Forall_forall. intros e _.
  unfold compose, snprintf. change (256 - 1)%nat with 255%nat.
  split; [apply truncate_length|].
  apply cstr_truncate, cstr_idem.
Qed.

End Scan.

(** X17. The entries that the scan takes for shards are those whose name
    starts with [model-] and has [.safetensors] somewhere after it: text
    after the extension does not keep an entry out. *)
Theorem shard_entries_are_recognised_by_prefix_and_infix (e : string) :
  matching e
  <-> exists a b, cstr e = "model-" +:+ a +:+ ".safetensors" +:+ b.
Proof.
  unfold matching, shard_pattern. rewrite andb_true_iff, strncmp_model, strstr_found_app.
  split.
  - intros [[rest ->] (pre & post & E)].
    do 6 (destruct pre as [|? pre]; [discriminate E|];
          injection E as <- E).
    exists pre, post. by rewrite E.
  - intros (a & b & ->). split; [by eexists|].
    by exists ("model-" +:+ a), b.
Qed.

Lemma shard_entries_are_recognised_by_prefix_and_infix_witness :
  matching "model-00001-of-00002.safetensors.tmp".
Proof.
  apply (shard_entries_are_recognised_by_prefix_and_infix
           "model-00001-of-00002.safetensors.tmp").
  by exists "00001-of-00002", ".tmp".
Defined.

(** ** Metadata *)





Section Metadata.

Variable SAFETENSORS_MAX_TENSORS : nat.
Variable NAME_SIZE : nat.



End Metadata.


(** ** Resources of a set of shards *)

Local Open Scope nat_scope.

Lemma resource_eqb_id r x :
  resource_id r <> resource_id x -> resource_eqb r x = false.
Proof.
  destruct r, x; cbn; try done; intros H; by apply Nat.eqb_neq.
Qed.

Lemma remove_first_skip r pre l :
  Forall (fun x => resource_id x <> resource_id r) pre ->
  remove_first r (pre ++ l) = pre ++ remove_first r l.
Proof.
  induction 1 as [|x pre Hx _ IH]; [done|]. cbn [app remove_first].
  rewrite resource_eqb_id by congruence. by rewrite IH.
Qed.

Lemma remove_first_here r l : remove_first r (r :: l) = l.
Proof. cbn. by rewrite resource_eqb_refl. Qed.

Section Handles.

Variable SAFETENSORS_MAX_TENSORS : nat.
Variable NAME_SIZE : nat.

(** What a call of [safetensors_open] leaves behind. *)
Lemma safetensors_open_resources p w r w' :
  safetensors_open SAFETENSORS_MAX_TENSORS NAME_SIZE p w = Done r w' ->
  w_next w <= w_next w'
  /\ w_budget w' <= w_budget w
  /\ match r with
     | None => w_live w' = w_live w
     | Some sf =>
         owned sf = [Heap (w_next w + 4); Heap (w_next w + 3);
                     Heap (w_next w + 2); Mapping (w_next w + 1)]
         /\ w_live w' = owned sf ++ w_live w
         /\ w_next w' = w_next w + 5
         /\ snd <$> path sf = Some p
     end.
Proof.
  unfold safetensors_open, sys_open. cbn [w_files].
  destruct (w_files w !! p) as [f|];
    [|intros [= <- <-]; cbn; repeat split; lia].
  run_world.
  destruct (negb _).
  { intros [= <- <-]. run_world. repeat split; (lia || done). }
  destruct (_ <? 8)%Z.
  { intros [= <- <-]. run_world. repeat split; (lia || done). }
  destruct (f_mmap_ok f); run_world;
    [|intros [= <- <-]; run_world; repeat split; (lia || done)].
  destruct (_ >? _)%Z.
  { intros [= <- <-]. run_world. repeat split; (lia || done). }
  unfold malloc at 1. run_world.
  destruct (w_budget w) as [|b1]; run_world.
  { intros [= <- <-]. run_world. repeat split; (lia || done). }
  unfold malloc at 1. run_world.
  destruct b1 as [|b2]; run_world.
  - intros [= <- <-]. run_world. repeat split; (lia || done).
  - destruct b2 as [|b3]; run_world.
    + intros [= <- <-]. run_world. repeat split; (lia || done).
    + destruct (parse_header _ _ _); try done.
      * intros [= <- <-]. unfold owned. cbn.
        replace (w_next w + 4) with (S (S (S (S (w_next w))))) by lia.
        replace (w_next w + 3) with (S (S (S (w_next w)))) by lia.
        replace (w_next w + 2) with (S (S (w_next w))) by lia.
        replace (w_next w + 1) with (S (w_next w)) by lia.
        repeat split; (lia || done).
      * intros [= <- <-]. run_world. repeat split; (lia || done).
Qed.

End Handles.

Lemma owned_fields sf n :
  owned sf = [Heap (n + 4); Heap (n + 3); Heap (n + 2); Mapping (n + 1)] ->
  fst <$> header_json sf = Some (n + 4)
  /\ fst <$> path sf = Some (n + 3)
  /\ sf_block sf = n + 2 /\ fst (data sf) = n + 1.
Proof.
  unfold owned.
  destruct (header_json sf) as [[h ?]|], (path sf) as [[d ?]|]; cbn;
    intros [=]; repeat split; congruence.
Qed.

Lemma safetensors_close_owned sf w n pre post :
  owned sf = [Heap (n + 4); Heap (n + 3); Heap (n + 2); Mapping (n + 1)] ->
  w_live w = pre ++ owned sf ++ post ->
  Forall (fun x => n + 5 <= resource_id x) pre ->
  w_live (safetensors_close (Some sf) w) = pre ++ post
  /\ w_next (safetensors_close (Some sf) w) = w_next w.
Proof.
  intros Ho Hl Hpre. rewrite Ho in Hl.
  destruct (owned_fields sf n Ho) as (Hh & Hp & Hb & Hm).
  unfold safetensors_close. rewrite Hh, Hp, Hb, Hm.
  cbn [free release w_live w_next]. split; [|done]. rewrite Hl.
  assert (forall k, k < 5 ->
            Forall (fun x => resource_id x <> n + k) pre) as Hne.
  { intros k Hk. eapply Forall_impl; [exact Hpre|]. cbn. lia. }
  rewrite remove_first_skip by (apply (Hne 1); lia).
  cbn [app remove_first resource_eqb]. settle_ids.
  rewrite remove_first_skip by (apply (Hne 3); lia).
  cbn [app remove_first resource_eqb]. settle_ids.
  rewrite remove_first_skip by (apply (Hne 4); lia).
  cbn [app remove_first resource_eqb]. settle_ids.
  rewrite remove_first_skip by (apply (Hne 2); lia).
  cbn [app remove_first resource_eqb]. settle_ids. done.
Qed.

Lemma stack_cons sf sfs : stack (sf :: sfs) = stack sfs ++ owned sf.
Proof.
  unfold stack. rewrite reverse_cons, fmap_app, concat_app. cbn.
  by rewrite app_nil_r.
Qed.

Lemma chain_weaken lo lo' sfs : lo' <= lo -> chain lo sfs -> chain lo' sfs.
Proof.
  intros Hle H. destruct H as [|lo n sf sfs H1 H2 H3]; [constructor|].
  apply (chain_cons lo' n); [lia | done | done].
Qed.

Lemma chain_ids lo sfs :
  chain lo sfs -> Forall (fun x => lo + 1 <= resource_id x) (stack sfs).
Proof.
  induction 1 as [|lo n sf sfs Hle Ho _ IH]; [constructor|].
  rewrite stack_cons. apply Forall_app. split.
  - eapply Forall_impl; [exact IH|]. cbn. lia.
  - rewrite Ho. repeat constructor; cbn; lia.
Qed.

Lemma close_all lo sfs :
  chain lo sfs ->
  forall w base,
    w_live w = stack sfs ++ base ->
    w_live (foldl (fun w sf => safetensors_close (Some sf) w) w sfs) = base.
Proof.
  induction 1 as [|lo n sf sfs Hle Ho Hc IH]; intros w base Hl; [done|].
  cbn [foldl]. apply IH. rewrite stack_cons, <- app_assoc in Hl.
  eapply safetensors_close_owned; [exact Ho | exact Hl|].
  eapply Forall_impl; [apply (chain_ids _ _ Hc)|]. cbn. lia.
Qed.

Section Multi.

Variable SAFETENSORS_MAX_TENSORS : nat.
Variable SAFETENSORS_MAX_SHARDS : nat.
Variable NAME_SIZE : nat.

Lemma open_shards_resources model_dir names :
  forall ms w r w',
    num_shards ms = 0 ->
    open_shards SAFETENSORS_MAX_TENSORS NAME_SIZE model_dir names ms w
    = Done r w' ->
    exists new,
      chain (w_next w) new
      /\ Forall2 (fun sf nm => snd <$> path sf = Some (shard_path model_dir nm))
                 new (take (length new) names)
      /\ w_next w <= w_next w'
      /\ match r with
         | Some ms' =>
             ms' = mk_ms (ms_block ms) (shards ms ++ new) 0
             /\ length new = length names
             /\ w_live w' = stack new ++ w_live w
         | None =>
             length new < length names
             /\ w_live w'
                = remove_first (Heap (ms_block ms)) (stack new ++ w_live w)
         end.
Proof.
  induction names as [|nm names IH]; intros ms w r w' Hz; cbn [open_shards].
  - intros [= <- <-]. exists []. split; [constructor|]. split; [constructor|].
    split; [done|]. destruct ms as [b sfs k]. cbn in *. subst k.
    by rewrite app_nil_r.
  - destruct (safetensors_open _ _ _ w) as [[sf|] w1|] eqn:Eo; [| |done].
    + apply safetensors_open_resources in Eo as (Hn & _ & Ho & Hl & Hx & Hp).
      intros H. apply IH in H as (new & Hc & Hf & Hn' & Hr); [|done].
      exists (sf :: new). rewrite Hx in Hc. split; [|split; [|split]].
      * by apply (chain_cons (w_next w) (w_next w)).
      * cbn [length take]. by constructor.
      * lia.
      * cbn [ms_block shards] in Hr. rewrite stack_cons, <- !app_assoc.
        rewrite Hl in Hr. destruct r as [ms'|].
        -- destruct Hr as (-> & Hlen & Hlive). cbn [length].
           repeat split; [f_equal; by rewrite <- app_assoc | lia | done].
        -- destruct Hr as (Hlen & Hlive). cbn [length]. split; [lia|done].
    + apply safetensors_open_resources in Eo as (Hn & _ & Hl).
      intros [= <- <-]. exists []. split; [constructor|].
      split; [constructor|]. unfold multi_safetensors_close.
      rewrite Hz, take_0. cbn. split; [done|]. split; [lia|]. by rewrite Hl.
Qed.

Lemma qsort_names_length names : length (qsort_names names) = length names.
Proof. unfold qsort_names. by rewrite merge_sort_Permutation. Qed.

Lemma multi_safetensors_open_resources model_dir w r w' :
  multi_safetensors_open SAFETENSORS_MAX_TENSORS SAFETENSORS_MAX_SHARDS
                         NAME_SIZE model_dir w = Done r w' ->
  match r with
  | Some ms =>
      num_shards ms = length (shards ms) /\ 1 <= num_shards ms
      /\ chain (w_next w + 1) (shards ms)
      /\ ms_block ms = w_next w
      /\ w_live w' = stack (shards ms) ++ Heap (ms_block ms) :: w_live w
  | None =>
      exists sfs,
        chain (w_next w + 1) sfs
        /\ w_live w' = stack sfs ++ w_live w
        /\ (sfs = [] \/
            exists entries,
              w_dirs w !! cstr model_dir = Some entries
              /\ length sfs
                 < length (qsort_names
                             (scan_dir SAFETENSORS_MAX_SHARDS entries []))
              /\ Forall2
                   (fun sf nm =>
                      snd <$> path sf = Some (shard_path model_dir nm))
                   sfs
                   (take (length sfs)
                         (qsort_names
                            (scan_dir SAFETENSORS_MAX_SHARDS entries []))))
  end.
Proof.
  unfold multi_safetensors_open, malloc.
  destruct (w_budget w) as [|b0].
  { intros [= <- <-]. exists []. repeat split; [constructor | by left]. }
  cbn [acquire w_next w_live w_files w_dirs w_budget w_stderr w_opens].
  set (w1 := mk_world _ _ _ _ _ _ _).
  destruct (safetensors_open _ _ _ w1) as [[sf|] w2|] eqn:Eo; [| |done].
  - intros [= <- <-].
    apply safetensors_open_resources in Eo as (Hn & _ & Ho & Hl & Hx & Hp).
    cbn in *. repeat split; [lia| |].
    + apply (chain_cons _ (S (w_next w))); [lia | done | constructor].
    + rewrite Hl. unfold stack. cbn. by rewrite app_nil_r.
  - pose proof (safetensors_open_trace _ _ _ _ _ _ Eo) as (_ & Hd & _).
    apply safetensors_open_resources in Eo as (Hn & _ & Hl).
    cbn in Hn, Hl, Hd. rewrite Hd.
    destruct (w_dirs w !! cstr model_dir) as [entries|] eqn:Ed.
    + cbn [acquire release w_next w_live w_files w_dirs w_budget w_stderr
           w_opens remove_first resource_eqb].
      unfold release at 1 2.
      cbn [w_next w_live w_files w_dirs w_budget w_stderr w_opens
           remove_first resource_eqb].
      rewrite Nat.eqb_refl.
      set (w4 := mk_world _ _ _ _ _ _ _).
      destruct (length _ =? 0) eqn:E0.
      * intros [= <- <-]. exists []. split; [constructor|].
        split; [|by left]. cbn. rewrite Hl. cbn. by rewrite Nat.eqb_refl.
      * apply Nat.eqb_neq in E0.
        destruct (open_shards _ _ _ _ _ w4) as [[ms'|] w5|] eqn:Es; [| |done].
        -- intros [= <- <-].
           apply open_shards_resources in Es
             as (new & Hc & Hf & Hn' & -> & Hlen & Hlive); [|done].
           cbn in *. rewrite qsort_names_length in *.
           repeat split; [lia | lia | | by rewrite Hlive, Hl].
           eapply chain_weaken; [|exact Hc]. lia.
        -- intros [= <- <-].
           apply open_shards_resources in Es
             as (new & Hc & Hf & Hn' & Hlen & Hlive); [|done].
           cbn in Hc, Hlive, Hn'. exists new. split; [|split].
           ++ eapply chain_weaken; [|exact Hc]. lia.
           ++ rewrite Hlive, Hl.
              rewrite remove_first_skip, remove_first_here; [done|].
              eapply Forall_impl; [apply (chain_ids _ _ Hc)|]. cbn. lia.
           ++ right. by exists entries.
    + intros [= <- <-]. exists []. split; [constructor|].
      split; [|by left]. cbn. rewrite Hl. cbn. by rewrite Nat.eqb_refl.
Qed.

(** X19. A set that [multi_safetensors_open] returns holds at least one
    shard and [num_shards] counts the handles stored; closing it with
    [multi_safetensors_close] releases every shard and the set itself, so
    that the process holds what it held before the open. *)
Theorem multi_close_undoes_multi_open
    (model_dir : string) (w w' : world) (ms : multi_safetensors_t) :
  multi_safetensors_open SAFETENSORS_MAX_TENSORS SAFETENSORS_MAX_SHARDS
                         NAME_SIZE model_dir w = Done (Some ms) w' ->
  num_shards ms = length (shards ms)
  /\ 1 <= num_shards ms
  /\ w_live (multi_safetensors_close (Some ms) w') = w_live w.
Proof.
  intros H. apply multi_safetensors_open_resources in H
    as (Hnum & Hge & Hc & Hb & Hl).
  split; [done|]. split; [done|].
  unfold multi_safetensors_close. rewrite Hnum, firstn_all.
  cbn [free release w_live].
  rewrite (close_all _ _ Hc _ _ Hl). apply remove_first_here.
Qed.

Lemma stack_holds sf sfs r : sf ∈ sfs -> r ∈ owned sf -> r ∈ stack sfs.
Proof.
  induction sfs as [|x sfs IH]; [by intros ?%elem_of_nil|].
  rewrite stack_cons, elem_of_app. intros [->|H]%elem_of_cons Hr; auto.
Qed.

Lemma owned_holds sf :
  Mapping (fst (data sf)) ∈ owned sf /\ Heap (sf_block sf) ∈ owned sf.
Proof.
  unfold owned. rewrite !elem_of_app, !elem_of_cons. auto 10.
Qed.

(** X20. When [multi_safetensors_open] returns [NULL], what the process
    holds beyond what it held before is exactly the resources of the shards
    it had opened: the mapping and the structure of each of them are still
    held.  Shards were opened only if the directory was scanned, and they
    are the first of the sorted names, fewer than all of them.  The set
    itself is always freed. *)
Theorem failed_multi_open_keeps_the_opened_shards
    (model_dir : string) (w w' : world) :
  multi_safetensors_open SAFETENSORS_MAX_TENSORS SAFETENSORS_MAX_SHARDS
                         NAME_SIZE model_dir w = Done None w' ->
  exists sfs,
    w_live w' = stack sfs ++ w_live w
    /\ Forall (fun sf => Mapping (fst (data sf)) ∈ w_live w'
                         /\ Heap (sf_block sf) ∈ w_live w') sfs
    /\ (sfs = [] \/
        exists entries,
          w_dirs w !! cstr model_dir = Some entries
          /\ length sfs
             < length (qsort_names
                         (scan_dir SAFETENSORS_MAX_SHARDS entries []))
          /\ Forall2
               (fun sf nm => snd <$> path sf = Some (shard_path model_dir nm))
               sfs
               (take (length sfs)
                     (qsort_names
                        (scan_dir SAFETENSORS_MAX_SHARDS entries [])))).
Proof.
  intros H. apply multi_safetensors_open_resources in H
    as (sfs & Hc & Hl & Hs).
  exists sfs. split; [done|]. split; [|done].
  apply Forall_forall. intros sf Hsf. rewrite Hl, !elem_of_app.
  destruct (owned_holds sf) as [Hm Hb].
  split; left; by eapply stack_holds.
Qed.

End Multi.

Lemma multi_close_undoes_multi_open_witness :
  exists ms w',
    multi_safetensors_open 16 8 256 "m" two_shard_world = Done (Some ms) w'
    /\ num_shards ms = 2
    /\ length (w_live w') = 11
    /\ w_live (multi_safetensors_close (Some ms) w') = [Heap 4; Heap 2].
Proof.
  eexists _, _.
  match goal with |- ?E /\ _ => assert (H : E) by (vm_compute; reflexivity) end.
  split; [exact H|]. split; [reflexivity|]. split; [reflexivity|].
  exact (proj2 (proj2 (multi_close_undoes_multi_open _ _ _ _ _ _ _ H))).
Defined.

Lemma failed_multi_open_keeps_the_opened_shards_witness :
  exists w',
    multi_safetensors_open 16 8 256 "m" half_open_world = Done None w'
    /\ length (w_live w') = 4
    /\ exists sfs, w_live w' = stack sfs ++ [].
Proof.
  eexists.
  match goal with |- ?E /\ _ => assert (H : E) by (vm_compute; reflexivity) end.
  split; [exact H|]. split; [reflexivity|].
  destruct (failed_multi_open_keeps_the_opened_shards _ _ _ _ _ _ H)
    as (sfs & Hl & _).
  exists sfs. exact Hl.
Defined.

Local Open Scope Z_scope.

(** ** Lookup in a discovered set *)

Local Open Scope nat_scope.

Section Lookup.

Variable SAFETENSORS_MAX_TENSORS : nat.
Variable SAFETENSORS_MAX_SHARDS : nat.
Variable NAME_SIZE : nat.

Lemma open_shards_tables (P : safetensors_file_t -> Prop) model_dir names :
  (forall p w sf w',
     safetensors_open SAFETENSORS_MAX_TENSORS NAME_SIZE p w
     = Done (Some sf) w' -> P sf) ->
  forall ms w ms' w',
    open_shards SAFETENSORS_MAX_TENSORS NAME_SIZE model_dir names ms w
    = Done (Some ms') w' ->
    Forall P (shards ms) -> Forall P (shards ms').
Proof.
  intros HP. induction names as [|nm names IH]; intros ms w ms' w';
    cbn [open_shards].
  - by intros [= <- <-].
  - destruct (safetensors_open _ _ _ w) as [[sf|] w1|] eqn:Eo; try done.
    intros H Hsh. apply IH in H; [done|]. cbn [shards].
    apply Forall_app. split; [done|]. constructor; [|done]. by eapply HP.
Qed.

Lemma multi_safetensors_open_tables (P : safetensors_file_t -> Prop)
    model_dir w ms w' :
  (forall p w sf w',
     safetensors_open SAFETENSORS_MAX_TENSORS NAME_SIZE p w
     = Done (Some sf) w' -> P sf) ->
  multi_safetensors_open SAFETENSORS_MAX_TENSORS SAFETENSORS_MAX_SHARDS
                         NAME_SIZE model_dir w = Done (Some ms) w' ->
  Forall P (shards ms).
Proof.
  intros HP. unfold multi_safetensors_open.
  destruct (malloc w) as [[b|] w1]; [|done].
  destruct (safetensors_open _ _ _ w1) as [[sf|] w2|] eqn:Eo; [| |done].
  - intros [= <- <-]. cbn. constructor; [|done]. by eapply HP.
  - destruct (w_dirs w2 !! cstr model_dir) as [entries|]; [|done].
    destruct (acquire DirStream w2) as [d w3].
    destruct (length _ =? 0); [done|].
    destruct (open_shards _ _ _ _ _ _) as [[ms'|] w5|] eqn:Es; try done.
    intros [= <- <-]. cbn.
    eapply open_shards_tables in Es; [exact Es | exact HP | constructor].
Qed.

Lemma cstr_length a : String.length (cstr a) <= String.length a.
Proof.
  induction a as [|c a IH]; cbn [cstr]; [done|].
  destruct (is_char c NUL); rewrite ?length_String;
    change (String.length "") with 0; lia.
Qed.

Lemma find_in_shards_elem sfs nm t sf :
  find_in_shards sfs nm = Some (t, sf) ->
  sf ∈ sfs /\ t ∈ tensors sf /\ cstr (name t) = cstr nm.
Proof.
  intros H. pose proof (find_in_shards_spec sfs nm) as Hs. rewrite H in Hs.
  destruct Hs as (s & i & Hs & Hi & Hn & _).
  split; [by eapply list_elem_of_lookup_2|].
  split; [by eapply list_elem_of_lookup_2 | done].
Qed.

(** X21. In a set that [multi_safetensors_open] returned, a descriptor that
    [multi_safetensors_find] gives lies in the table of the shard returned
    with it, and table and descriptor are within the bounds of their arrays.
    Names are stored cut to the [name] array, so a name that does not fit
    it is never found. *)
Theorem lookup_in_a_discovered_set
    (model_dir nm : string) (w w' : world) (ms : multi_safetensors_t) :
  multi_safetensors_open SAFETENSORS_MAX_TENSORS SAFETENSORS_MAX_SHARDS
                         NAME_SIZE model_dir w = Done (Some ms) w' ->
  (forall t sf,
     multi_safetensors_find ms nm = Some (t, sf) ->
     sf ∈ shards ms /\ t ∈ tensors sf
     /\ num_tensors sf <= SAFETENSORS_MAX_TENSORS
     /\ descriptor_ok NAME_SIZE t)
  /\ (1 <= NAME_SIZE -> NAME_SIZE <= String.length (cstr nm) ->
      multi_safetensors_find ms nm = None).
Proof.
  intros H.
  pose proof (multi_safetensors_open_resources _ _ _ _ _ _ _ H)
    as (Hnum & _).
  eapply (multi_safetensors_open_tables
            (fun sf => num_tensors sf <= SAFETENSORS_MAX_TENSORS
                       /\ Forall (descriptor_ok NAME_SIZE) (tensors sf)))
    in H.
  2:{ intros p w0 sf w0' Ho.
      by apply safetensors_open_table in Ho. }
  unfold multi_safetensors_find. rewrite Hnum, firstn_all.
  assert (forall t sf,
            find_in_shards (shards ms) nm = Some (t, sf) ->
            sf ∈ shards ms /\ t ∈ tensors sf
            /\ num_tensors sf <= SAFETENSORS_MAX_TENSORS
            /\ descriptor_ok NAME_SIZE t) as Hfound.
  { intros t sf (Hsf & Ht & _)%find_in_shards_elem.
    rewrite Forall_forall in H. destruct (H sf Hsf) as [Hn Hok].
    rewrite Forall_forall in Hok. auto. }
  split; [exact Hfound|].
  intros H1 Hlong.
  destruct (find_in_shards (shards ms) nm) as [[t sf]|] eqn:E; [|done].
  destruct (Hfound t sf eq_refl) as (_ & _ & _ & Hok).
  apply find_in_shards_elem in E as (_ & _ & Hn).
  destruct Hok as [Hnul Hfit _ _ _ _ _]. rewrite Hnul in Hn.
  rewrite Hn in Hfit. lia.
Qed.

End Lookup.

Lemma lookup_in_a_discovered_set_witness :
  exists ms w',
    multi_safetensors_open 16 8 256 "m" two_shard_world = Done (Some ms) w'
    /\ exists t sf,
         multi_safetensors_find ms "w" = Some (t, sf)
         /\ descriptor_ok 256 t.
Proof.
  eexists _, _.
  match goal with |- ?E /\ _ => assert (H : E) by (vm_compute; reflexivity) end.
  split; [exact H|]. eexists _, _.
  match goal with |- ?E /\ _ => assert (Hf : E) by (vm_compute; reflexivity) end.
  split; [exact Hf|].
  apply (proj1 (lookup_in_a_discovered_set _ _ _ _ "w" _ _ _ H) _ _ Hf).
Defined.

Local Open Scope Z_scope.

(** ** Reading back a written header *)

Lemma number_digits d :
  number d = true ->
  all_digits d = true /\ exists c d', d = String c d' /\ is_digit c = true.
Proof.
  unfold number. intros [Hd Hn]%andb_true_iff. split; [done|].
  destruct d as [|c d']; [done|]. cbn in Hd.
  apply andb_true_iff in Hd as [Hc _]. by exists c, d'.
Qed.

Lemma shape_loop_separated ds :
  forall free t rest,
    forallb number ds = true -> (length ds <= free)%nat ->
    shape_loop free (comma_separated ds (String "]" rest)) t
    = (String "]" rest,
       foldl push_dim t ((fun d => wrap_s64 (decimal d)) <$> ds)).
Proof.
  induction ds as [|d ds IH]; intros free t rest Hds Hlen.
  - cbn [comma_separated fmap list_fmap foldl]. by destruct free.
  - cbn [forallb] in Hds. apply andb_true_iff in Hds as [Hd Hds].
    apply number_digits in Hd as (Hd & c & d' & -> & Hc).
    destruct free as [|free]; [cbn in Hlen; lia|].
    cbn [length] in Hlen.
    set (tail := match ds with
                 | [] => String "]" rest
                 | _ :: _ => String "," (comma_separated ds (String "]" rest))
                 end).
    assert (Htail : is_digit (peek tail) = false
                    /\ is_space (peek tail) = false
                    /\ is_char (peek tail) "-" = false)
      by (subst tail; by destruct ds).
    destruct Htail as (Ht1 & Ht2 & Ht3).
    change (comma_separated (String c d' :: ds) (String "]" rest))
      with (String c d' +:+ tail).
    cbn [shape_loop].
    assert (Hp : peek (String c d' +:+ tail) = c) by done.
    rewrite Hp.
    assert (is_char c NUL = false /\ is_char c "]" = false
            /\ is_space c = false) as (-> & H2 & H3).
    { repeat split; [| |unfold is_space; rewrite !orb_false_iff; repeat split];
        apply is_char_neq; intros ->; vm_compute in Hc; discriminate Hc. }
    cbn [orb]. rewrite H2.
    rewrite skip_whitespace_id by (by rewrite Hp).
    rewrite Hp, H2.
    rewrite (parse_int_digits _ tail Hd Ht1 Ht2 Ht3).
    rewrite (skip_whitespace_id tail Ht2).
    cbn [fmap list_fmap foldl].
    subst tail. destruct ds as [|d2 ds].
    + cbn [peek is_char Ascii.eqb Bool.eqb].
      by rewrite (IH free _ rest) by (done || cbn; lia).
    + cbn [peek is_char Ascii.eqb Bool.eqb advance].
      by rewrite (IH free _ rest) by (done || cbn in *; lia).
Qed.

Lemma entry_value_dtype s rest t :
  plain s = true -> (String.length s < 32)%nat ->
  entry_value "dtype" (String DQUOTE (s +:+ String DQUOTE rest)) t
  = Ok (rest, set_dtype t (parse_dtype s)).
Proof.
  intros Hs Hl. unfold entry_value.
  change (streq "dtype" "dtype") with true. cbn match.
  by rewrite parse_string_quoted.
Qed.

Lemma entry_value_shape ds rest t :
  forallb number ds = true -> (length ds <= 8)%nat ->
  entry_value "shape" (String "[" (comma_separated ds (String "]" rest))) t
  = Ok (rest, foldl push_dim (set_ndim t 0)
                    ((fun d => wrap_s64 (decimal d)) <$> ds)).
Proof.
  intros Hds Hl. unfold entry_value.
  change (streq "shape" "dtype") with false.
  change (streq "shape" "shape") with true.
  cbn [peek advance is_char Ascii.eqb Bool.eqb negb].
  by rewrite shape_loop_separated.
Qed.

Ltac entry_step :=
  cbn [res_bind skip_comma skip_whitespace is_space is_char Ascii.eqb
       Bool.eqb orb peek advance DQUOTE];
  erewrite entry_loop_member; [|done|done|reflexivity];
  cbn [skip_whitespace is_space is_char Ascii.eqb Bool.eqb orb DQUOTE].

Lemma parse_tensor_entry_text dtype_str dims s e more t :
  plain dtype_str = true -> (String.length dtype_str < 32)%nat ->
  forallb number dims = true -> (length dims <= 8)%nat ->
  all_digits s = true -> all_digits e = true ->
  parse_tensor_entry (entry_text dtype_str dims s e more) t
  = Ok (more,
        set_offsets
          (foldl push_dim
                 (mk_tensor (name t) (parse_dtype dtype_str) 0 (shape t) 0 0)
                 ((fun d => wrap_s64 (decimal d)) <$> dims))
          (decimal s mod 2^64) ((decimal e - decimal s) mod 2^64)).
Proof.
  intros Hd Hdl Hds Hn Hs He.
  unfold parse_tensor_entry, entry_text, quoted.
  cbn -[entry_loop String.length Z.pow Z.modulo comma_separated].
  rewrite !length_String.
  entry_step. rewrite entry_value_dtype by done.
  entry_step. rewrite entry_value_shape by done.
  entry_step. rewrite entry_value_data_offsets by done.
  cbn [res_bind skip_comma skip_whitespace is_space is_char Ascii.eqb
       Bool.eqb orb peek advance].
  rewrite entry_loop_end by done.
  cbn [res_bind peek is_char Ascii.eqb Bool.eqb advance]. reflexivity.
Qed.

Lemma plain_cstr s : plain s = true -> cstr s = s.
Proof.
  induction s as [|c s IH]; [done|]. cbn [plain cstr].
  intros [Hc Hs]%andb_true_iff. unfold plain_char in Hc.
  apply negb_true_iff in Hc. rewrite !orb_false_iff in Hc.
  destruct Hc as [[-> _] _]. by rewrite IH.
Qed.

Lemma foldl_push_dim_fields vs :
  forall t,
    name (foldl push_dim t vs) = name t
    /\ dtype (foldl push_dim t vs) = dtype t
    /\ data_offset (foldl push_dim t vs) = data_offset t
    /\ data_size (foldl push_dim t vs) = data_size t.
Proof.
  induction vs as [|v vs IH]; intros t; [done|]. cbn [foldl].
  destruct (IH (push_dim t v)) as (-> & -> & -> & ->). done.
Qed.

Lemma entry_descriptor name_size e :
  valid_entry e = true ->
  parse_tensor_entry
    (entry_text (e_dtype e) (e_dims e) (e_start e) (e_end e) "")
    (fresh_slot name_size (e_name e))
  = Ok ("", descriptor_of name_size e)
  /\ forall more,
       parse_tensor_entry
         (entry_text (e_dtype e) (e_dims e) (e_start e) (e_end e) more)
         (fresh_slot name_size (e_name e))
       = Ok (more, descriptor_of name_size e).
Proof.
  unfold valid_entry. rewrite !andb_true_iff.
  intros [[[[[[[[H1 H2] H3] H4] H5] H6] H7] H8] H9].
  apply Nat.ltb_lt in H2, H5. apply Nat.leb_le in H7.
  assert (forall more,
            parse_tensor_entry
              (entry_text (e_dtype e) (e_dims e) (e_start e) (e_end e) more)
              (fresh_slot name_size (e_name e))
            = Ok (more, descriptor_of name_size e)) as H; [|by split].
  intros more. rewrite parse_tensor_entry_text by done.
  do 2 f_equal. unfold descriptor_of, set_offsets, fresh_slot.
  cbn [name shape].
  set (t0 := mk_tensor _ _ 0 _ 0 0).
  destruct (foldl_push_dim_fields ((fun d => wrap_s64 (decimal d)) <$> e_dims e) t0)
    as (-> & -> & _ & _).
  destruct (foldl_push_dim ((fun d => wrap_s64 (decimal d)) <$> e_dims e) t0)
    as [-> ->].
  { subst t0. cbn [ndim shape]. rewrite length_fmap, length_replicate. lia. }
  subst t0. cbn [name dtype ndim shape].
  rewrite plain_cstr by done. rewrite length_fmap, take_0, drop_replicate.
  cbn [app Nat.add]. reflexivity.
Qed.

Lemma comma_separated_length ds :
  forall more,
    (String.length more <= String.length (comma_separated ds more))%nat.
Proof.
  induction ds as [|d ds IH]; intros more; cbn [comma_separated]; [done|].
  rewrite length_append. destruct ds as [|d' ds]; [lia|].
  rewrite length_String. specialize (IH more). lia.
Qed.

Lemma entry_text_length dtype_str dims s e more :
  (String.length more
   < String.length (entry_text dtype_str dims s e more))%nat.
Proof.
  unfold entry_text, quoted. cbn [dq String.append is_char Ascii.eqb Bool.eqb].
  repeat (rewrite ?length_String, ?length_append).
  match goal with |- context [comma_separated dims ?m] =>
    pose proof (comma_separated_length dims m) as H end.
  repeat (rewrite ?length_String, ?length_append in H). lia.
Qed.

Lemma append_assoc a b c : (a +:+ b) +:+ c = a +:+ b +:+ c.
Proof. induction a as [|x a IH]; [done|]. cbn. by rewrite IH. Qed.

Lemma comma_separated_app ds :
  forall more tail,
    comma_separated ds more +:+ tail = comma_separated ds (more +:+ tail).
Proof.
  induction ds as [|d ds IH]; intros more tail; [done|].
  cbn [comma_separated]. rewrite append_assoc.
  destruct ds as [|d' ds]; [done|].
  cbn [String.append]. by rewrite IH.
Qed.

Lemma entry_text_app dtype_str dims s e more tail :
  entry_text dtype_str dims s e more +:+ tail
  = entry_text dtype_str dims s e (more +:+ tail).
Proof.
  unfold entry_text, quoted.
  cbn [dq String.append is_char Ascii.eqb Bool.eqb].
  rewrite append_assoc. cbn [String.append].
  rewrite comma_separated_app. cbn [String.append].
  rewrite !append_assoc. cbn [String.append].
  by rewrite !append_assoc.
Qed.

Section RoundTrip.

Variable SAFETENSORS_MAX_TENSORS : nat.
Variable NAME_SIZE : nat.

Lemma header_loop_entries_tail es :
  forall acc f tail,
    forallb valid_entry es = true ->
    (String.length (entries_text es +:+ tail) < f)%nat ->
    header_loop SAFETENSORS_MAX_TENSORS NAME_SIZE f (entries_text es +:+ tail)
                acc
    = Ok (acc ++ take (SAFETENSORS_MAX_TENSORS - length acc)
                      (descriptor_of NAME_SIZE <$> es)).
Proof.
  induction es as [|e es IH]; intros acc f tail Hes Hf.
  - destruct f as [|f]; [lia|].
    cbn [entries_text String.append header_loop peek is_char Ascii.eqb
         Bool.eqb orb fmap list_fmap].
    by rewrite take_nil, app_nil_r.
  - destruct f as [|f]; [lia|].
    cbn [forallb] in Hes. apply andb_true_iff in Hes as [He Hes].
    destruct (length acc <? SAFETENSORS_MAX_TENSORS)%nat eqn:Elt.
    2:{ apply Nat.ltb_ge in Elt. cbn [header_loop].
        replace (length acc <? SAFETENSORS_MAX_TENSORS)%nat with false
          by (symmetry; by apply Nat.ltb_ge).
        rewrite orb_true_r.
        replace (SAFETENSORS_MAX_TENSORS - length acc)%nat with 0%nat by lia.
        by rewrite take_0, app_nil_r. }
    apply Nat.ltb_lt in Elt.
    pose proof He as Hv. unfold valid_entry in Hv.
    rewrite !andb_true_iff in Hv.
    destruct Hv as [[[[[[[[H1 H2] H3] _] _] _] _] _] _].
    apply Nat.ltb_lt in H2. apply negb_true_iff in H3.
    cbn [entries_text] in Hf |- *. unfold quoted in Hf |- *.
    cbn [String.append] in Hf |- *.
    rewrite append_assoc in Hf |- *. cbn [String.append] in Hf |- *.
    rewrite entry_text_app in Hf |- *.
    erewrite header_loop_entry;
      [| done | done | done | by apply parse_string_quoted | done].
    rewrite (proj2 (entry_descriptor NAME_SIZE e He)). cbn [res_bind].
    assert (Hlist :
      (acc ++ [descriptor_of NAME_SIZE e])
      ++ take (SAFETENSORS_MAX_TENSORS
               - length (acc ++ [descriptor_of NAME_SIZE e]))
              (descriptor_of NAME_SIZE <$> es)
      = acc ++ take (SAFETENSORS_MAX_TENSORS - length acc)
                    (descriptor_of NAME_SIZE <$> e :: es)).
    { rewrite fmap_cons, length_app. cbn [length].
      replace (SAFETENSORS_MAX_TENSORS - length acc)%nat
        with (S (SAFETENSORS_MAX_TENSORS - (length acc + 1))) by lia.
      cbn [take]. by rewrite <- app_assoc. }
    rewrite <- Hlist.
    rewrite !length_String, length_append, !length_String in Hf.
    match type of Hf with context [entry_text ?a ?b ?c ?d ?m] =>
      pose proof (entry_text_length a b c d m) as Hlen end.
    destruct es as [|e' es].
    + change (skip_comma ("}" +:+ tail)) with (entries_text [] +:+ tail).
      apply IH; [done|].
      cbn [entries_text String.append] in Hf, Hlen |- *.
      rewrite length_String in Hlen |- *. lia.
    + cbn [String.append] in Hf, Hlen |- *. unfold skip_comma.
      cbn [skip_whitespace is_space is_char Ascii.eqb Bool.eqb orb peek
           advance].
      apply IH; [done|]. rewrite length_String in Hlen. lia.
Qed.

Lemma append_nil_r a : a +:+ "" = a.
Proof. induction a as [|x a IH]; [done|]. cbn. by rewrite IH. Qed.

Lemma header_loop_entries es acc f :
  forallb valid_entry es = true ->
  (String.length (entries_text es) < f)%nat ->
  header_loop SAFETENSORS_MAX_TENSORS NAME_SIZE f (entries_text es) acc
  = Ok (acc ++ take (SAFETENSORS_MAX_TENSORS - length acc)
                    (descriptor_of NAME_SIZE <$> es)).
Proof.
  intros Hes Hf. rewrite <- (append_nil_r (entries_text es)) in Hf |- *.
  by apply header_loop_entries_tail.
Qed.

End RoundTrip.

Lemma truncate_all n : forall s, (String.length s <= n)%nat -> truncate n s = s.
Proof.
  induction n as [|n IH]; intros [|c s] H; cbn [truncate]; try done.
  - rewrite length_String in H. lia.
  - rewrite length_String in H. rewrite IH by lia. done.
Qed.

Section RoundTrip2.

Variable SAFETENSORS_MAX_TENSORS : nat.
Variable NAME_SIZE : nat.

Lemma find_written es :
  forall e,
    forallb valid_entry es = true ->
    Forall (fun e => (String.length (e_name e) < NAME_SIZE)%nat) es ->
    NoDup (e_name <$> es) ->
    e ∈ es ->
    find_in_tensors (descriptor_of NAME_SIZE <$> es) (e_name e)
    = Some (descriptor_of NAME_SIZE e).
Proof.
  induction es as [|e0 es IH]; intros e Hv Hfit Hnd He;
    [by apply elem_of_nil in He|].
  cbn [forallb] in Hv. apply andb_true_iff in Hv as [Hv0 Hv].
  apply Forall_cons in Hfit as [Hfit0 Hfit].
  rewrite fmap_cons in Hnd. apply NoDup_cons in Hnd as [Hnot Hnd].
  assert (Hplain : forall x, valid_entry x = true -> cstr (e_name x) = e_name x).
  { intros x Hx. unfold valid_entry in Hx. rewrite !andb_true_iff in Hx.
    apply plain_cstr. tauto. }
  assert (He_valid : valid_entry e = true).
  { apply elem_of_cons in He as [->|He]; [done|].
    rewrite forallb_forall in Hv. apply Hv. by apply list_elem_of_In. }
  rewrite fmap_cons. cbn [find_in_tensors descriptor_of name].
  fold (descriptor_of NAME_SIZE e0).
  rewrite truncate_all by lia.
  destruct (streq (e_name e0) (e_name e)) eqn:E.
  - apply streq_true in E. rewrite !Hplain in E by done.
    apply elem_of_cons in He as [->|He]; [done|].
    destruct Hnot. rewrite E. by apply list_elem_of_fmap_2.
  - apply elem_of_cons in He as [->|He].
    + apply streq_false in E. done.
    + by apply IH.
Qed.


(** X23. After such a header is parsed, every tensor is found under the
    name it was written with, provided the names are distinct and fit the
    [name] array and the entries fit the table. *)
Theorem written_tensor_is_found_by_name
    (es : list written_entry) (e : written_entry)
    (sf : safetensors_file_t) (b : nat) :
  forallb valid_entry es = true ->
  (length es <= SAFETENSORS_MAX_TENSORS)%nat ->
  Forall (fun e => (String.length (e_name e) < NAME_SIZE)%nat) es ->
  NoDup (e_name <$> es) ->
  e ∈ es ->
  parse_header SAFETENSORS_MAX_TENSORS NAME_SIZE (header_text es)
  = Ok (tensors sf) ->
  multi_safetensors_find (mk_ms b [sf] 1) (e_name e)
  = Some (descriptor_of NAME_SIZE e, sf).
Proof.
  intros Hes Hlen Hfit Hnd He. unfold parse_header, header_text.
  cbn [skip_whitespace is_space is_char Ascii.eqb Bool.eqb orb peek advance
       negb].
  rewrite header_loop_entries by (done || lia).
  cbn [length app]. rewrite Nat.sub_0_r.
  rewrite take_ge by (by rewrite length_fmap).
  intros [= Ht]. unfold multi_safetensors_find.
  cbn [num_shards shards take find_in_shards]. rewrite <- Ht.
  by rewrite find_written.
Qed.

End RoundTrip2.


Lemma written_tensor_is_found_by_name_witness :
  multi_safetensors_find
    (mk_ms 0 [mk_sf 1 None (2%nat, "") 0 0 None
                    (descriptor_of 256 <$> sample_entries)] 1)
    "b"
  = Some (mk_tensor "b" DTYPE_F32 0 [0; 0; 0; 0; 0; 0; 0; 0] 12 4,
          mk_sf 1 None (2%nat, "") 0 0 None
                (descriptor_of 256 <$> sample_entries)).
Proof.
  apply (written_tensor_is_found_by_name
           16 256 sample_entries (mk_written "b" "F32" [] "12" "16")
           (mk_sf 1 None (2%nat, "") 0 0 None
                  (descriptor_of 256 <$> sample_entries)) 0).
  - reflexivity.
  - cbn. lia.
  - repeat constructor; vm_compute; lia.
  - cbn. apply NoDup_cons. split; [|apply NoDup_singleton].
    intros H%list_elem_of_singleton. discriminate H.
  - apply elem_of_cons. right. apply elem_of_cons. by left.
  - vm_compute. reflexivity.
Defined.

(** ** Members of an entry *)

Lemma member_text_length m more :
  (String.length more < String.length (member_text m more))%nat.
Proof.
  destruct m as [s|dims|s e]; unfold member_text, quoted;
    cbn [dq String.append is_char Ascii.eqb Bool.eqb];
    repeat (rewrite ?length_String, ?length_append); try lia.
  pose proof (comma_separated_length dims (String "]" more)) as H.
  rewrite length_String in H. lia.
Qed.

Lemma entry_loop_one_member m tail t f :
  valid_member m = true ->
  entry_loop (S f) (member_text m tail) t
  = entry_loop f (skip_comma tail) (apply_member t m).
Proof.
  intros Hm. destruct m as [s|dims|s e]; cbn [valid_member] in Hm;
    apply andb_true_iff in Hm as [H1 H2];
    unfold member_text, quoted, apply_member;
    cbn [dq String.append is_char Ascii.eqb Bool.eqb];
    (erewrite entry_loop_member; [|done|done|reflexivity]);
    cbn [skip_whitespace is_space is_char Ascii.eqb Bool.eqb orb DQUOTE].
  - apply Nat.ltb_lt in H2. by rewrite entry_value_dtype.
  - apply Nat.leb_le in H2. by rewrite entry_value_shape.
  - by rewrite entry_value_data_offsets.
Qed.

Lemma entry_loop_members ms :
  forall t f more,
    forallb valid_member ms = true ->
    (String.length (members_text ms more) < f)%nat ->
    entry_loop f (members_text ms more) t
    = Ok (String "}" more, foldl apply_member t ms).
Proof.
  induction ms as [|m ms IH]; intros t f more Hms Hf;
    (destruct f as [|f]; [lia|]).
  - cbn [members_text foldl]. by rewrite entry_loop_end.
  - cbn [forallb] in Hms. apply andb_true_iff in Hms as [Hm Hms].
    cbn [members_text foldl] in Hf |- *.
    match type of Hf with context [member_text m ?tl] =>
      pose proof (member_text_length m tl) as Hl end.
    destruct ms as [|m' ms].
    + rewrite entry_loop_one_member by done.
      change (skip_comma (String "}" more)) with (members_text [] more).
      apply IH; [done|]. cbn [members_text]. lia.
    + rewrite entry_loop_one_member by done.
      rewrite length_String in Hl.
      assert (skip_comma (String "," (members_text (m' :: ms) more))
              = members_text (m' :: ms) more) as ->.
      { unfold skip_comma.
        cbn [skip_whitespace is_space is_char Ascii.eqb Bool.eqb orb peek
             advance]. reflexivity. }
      apply IH; [done|lia].
Qed.

(** X24. The members of an entry may come in any order, and each may be
    missing or repeated: the descriptor is the cleared slot (type
    [DTYPE_UNKNOWN], no dimension, offset and size 0) with every member
    applied in the order of the text.  A missing member is not an error, and
    of a repeated member the last one counts. *)
Theorem members_are_applied_in_order
    (ms : list member) (more : string) (t : safetensor_t) :
  forallb valid_member ms = true ->
  parse_tensor_entry (String "{" (members_text ms more)) t
  = Ok (more,
        foldl apply_member
              (mk_tensor (name t) DTYPE_UNKNOWN 0 (shape t) 0 0) ms).
Proof.
  intros Hms. unfold parse_tensor_entry.
  cbn [skip_whitespace is_space is_char Ascii.eqb Bool.eqb orb peek advance
       negb].
  rewrite entry_loop_members by (done || lia).
  cbn [res_bind peek is_char Ascii.eqb Bool.eqb advance]. reflexivity.
Qed.

Lemma members_are_applied_in_order_witness :
  parse_tensor_entry
    (String "{" (members_text [MOffsets "4" "8"; MDtype "F32"; MDtype "BF16"]
                              " tail"))
    (mk_tensor "w" DTYPE_F32 3 (replicate 8 7) 1 1)
  = Ok (" tail", mk_tensor "w" DTYPE_BF16 0 (replicate 8 7) 4 4).
Proof.
  exact (members_are_applied_in_order
           [MOffsets "4" "8"; MDtype "F32"; MDtype "BF16"] " tail"
           (mk_tensor "w" DTYPE_F32 3 (replicate 8 7) 1 1) eq_refl).
Defined.

(** ** The layout of an archive *)

Lemma le_bytes_length n : forall v, String.length (le_bytes n v) = n.
Proof.
  induction n as [|n IH]; intros v; cbn [le_bytes]; [done|].
  by rewrite length_String, IH.
Qed.

Lemma code_byte v : 0 <= v < 256 -> code (ascii_of_N (Z.to_N v)) = v.
Proof.
  intros H. unfold code. rewrite N_ascii_embedding by lia. lia.
Qed.

Lemma le_uint_le_bytes n :
  forall v rest,
    0 <= v -> le_uint n (le_bytes n v +:+ rest) = v mod 256 ^ Z.of_nat n.
Proof.
  induction n as [|n IH]; intros v rest Hv.
  - cbn. by rewrite Z.mod_1_r.
  - cbn [le_bytes String.append le_uint].
    rewrite code_byte by (apply Z.mod_pos_bound; lia).
    rewrite IH by (apply Z.div_pos; lia).
    rewrite Nat2Z.inj_succ, Z.pow_succ_r by lia.
    rewrite (Z.rem_mul_r v 256 (256 ^ Z.of_nat n)) by lia. reflexivity.
Qed.

Lemma skipn_string_app a :
  forall k b, skipn_string (String.length a + k) (a +:+ b) = skipn_string k b.
Proof.
  induction a as [|c a IH]; intros k b; [done|].
  rewrite length_String. cbn [Nat.add skipn_string String.append]. apply IH.
Qed.

Lemma truncate_app a : forall b, truncate (String.length a) (a +:+ b) = a.
Proof.
  induction a as [|c a IH]; intros b; [by destruct b|].
  rewrite length_String. cbn [truncate String.append]. by rewrite IH.
Qed.

Section Archive.

Variable SAFETENSORS_MAX_TENSORS : nat.
Variable NAME_SIZE : nat.

(** X25. A file laid out as an archive, the length of the header in 8
    little-endian bytes, the header, then the data block, is opened with
    that header: [header_size] is its length, [header_json] is its text, the
    table is what the header parses to, and [safetensors_data] of a
    descriptor points [data_offset] bytes into the data block, for every
    offset that keeps the pointer sum below [2^64]. *)
Theorem archive_is_opened_with_its_header
    (p : string) (w : world) (header data_block : string)
    (ts : list safetensor_t) :
  w_files w !! p = Some (archive header data_block) ->
  Z.of_nat (String.length header) < 2^64 ->
  (3 <= w_budget w)%nat ->
  parse_header SAFETENSORS_MAX_TENSORS NAME_SIZE header = Ok ts ->
  exists sf w',
    safetensors_open SAFETENSORS_MAX_TENSORS NAME_SIZE p w
    = Done (Some sf) w'
    /\ header_size sf = Z.of_nat (String.length header)
    /\ snd <$> header_json sf = Some header
    /\ tensors sf = ts
    /\ forall t,
         0 <= data_offset t ->
         8 + Z.of_nat (String.length header) + data_offset t < 2^64 ->
         skipn_string (Z.to_nat (safetensors_data sf t)) (snd (data sf))
         = skipn_string (Z.to_nat (data_offset t)) data_block.
Proof.
  intros Hf Hlen Hb Hp.
  assert (Hsize : le_uint 8 (f_bytes (archive header data_block))
                  = Z.of_nat (String.length header)).
  { unfold archive. cbn [f_bytes]. rewrite le_uint_le_bytes by lia.
    apply Z.mod_small. change (256 ^ Z.of_nat 8) with (2^64). lia. }
  assert (Hskip : forall k,
            skipn_string (8 + k) (f_bytes (archive header data_block))
            = skipn_string k (header +:+ data_block)).
  { intros k. unfold archive. cbn [f_bytes].
    rewrite <- (le_bytes_length 8 (Z.of_nat (String.length header))) at 1.
    apply skipn_string_app. }
  assert (Htotal : String.length (f_bytes (archive header data_block))
                   = (8 + String.length header + String.length data_block)%nat).
  { unfold archive. cbn [f_bytes].
    rewrite !length_append, le_bytes_length. lia. }
  unfold safetensors_open, sys_open. cbn [w_files]. rewrite Hf.
  cbn [acquire]. change (f_fstat_ok (archive header data_block)) with true.
  change (f_mmap_ok (archive header data_block)) with true. cbn [negb].
  rewrite Hsize, Htotal.
  replace (_ <? 8) with false by (symmetry; apply Z.ltb_ge; lia).
  replace (_ >? _) with false
    by (symmetry; apply not_true_is_false; rewrite Z.gtb_lt; lia).
  destruct (w_budget w) as [|[|[|b]]] eqn:Eb; try lia.
  cbn [acquire release malloc w_budget w_files w_dirs w_next w_live w_stderr
       w_opens].
  rewrite Nat2Z.id.
  change (skipn_string 8 ?b) with (skipn_string (8 + 0) b).
  rewrite (Hskip 0%nat). cbn [skipn_string].
  rewrite truncate_app, Hp.
  eexists _, _. split; [reflexivity|].
  cbn [header_size header_json tensors data fmap option_fmap option_map snd].
  repeat split. intros t Ht Hfit. unfold safetensors_data, wrap_u64.
  cbn [header_size]. rewrite Z.mod_small by lia.
  replace (Z.to_nat (8 + Z.of_nat (String.length header) + data_offset t))
    with (8 + (String.length header + Z.to_nat (data_offset t)))%nat by lia.
  by rewrite Hskip, skipn_string_app.
Qed.

End Archive.

Lemma archive_is_opened_with_its_header_witness :
  exists sf w',
    safetensors_open 16 256 "m.safetensors" good_world = Done (Some sf) w'
    /\ header_size sf = 55
    /\ tensors sf = [mk_tensor "w" DTYPE_BF16 1 [2; 0; 0; 0; 0; 0; 0; 0] 0 4].
Proof.
  destruct (archive_is_opened_with_its_header
              16 256 "m.safetensors" good_world
              (dq "{'w':{'dtype':'BF16','shape':[2],'data_offsets':[0,4]}}")
              "abcd"
              [mk_tensor "w" DTYPE_BF16 1 [2; 0; 0; 0; 0; 0; 0; 0] 0 4])
    as (sf & w' & Ho & Hs & _ & Ht & _).
  - reflexivity.
  - vm_compute. reflexivity.
  - vm_compute. lia.
  - vm_compute. reflexivity.
  - exists sf, w'. split; [exact Ho|]. split; [exact Hs | exact Ht].
Defined.

(** ** Files that are refused *)

Section Refused.

Variable SAFETENSORS_MAX_TENSORS : nat.
Variable NAME_SIZE : nat.

(** X26. A path that names no file, or a file whose header region does not
    start, after white space, with an opening brace (an empty header
    included), is refused: [safetensors_open] returns [NULL] and the process
    holds what it held before. *)
Theorem file_without_an_object_is_refused (p : string) (w : world) :
  (forall f,
     w_files w !! p = Some f ->
     is_char (peek (skip_whitespace
                      (truncate (Z.to_nat (le_uint 8 (f_bytes f)))
                                (skipn_string 8 (f_bytes f))))) "{"
     = false) ->
  exists w',
    safetensors_open SAFETENSORS_MAX_TENSORS NAME_SIZE p w = Done None w'
    /\ w_live w' = w_live w.
Proof.
  intros Hobj.
  assert (exists w',
            safetensors_open SAFETENSORS_MAX_TENSORS NAME_SIZE p w
            = Done None w') as [w' Ho].
  { unfold safetensors_open, sys_open. cbn [w_files].
    destruct (w_files w !! p) as [f|] eqn:Ef; [|by eexists].
    specialize (Hobj f eq_refl).
    destruct (acquire Fd _) as [fd w1].
    destruct (negb _); [by eexists|]. destruct (_ <? 8); [by eexists|].
    destruct (f_mmap_ok f); [|by eexists].
    destruct (acquire Mapping _) as [m w2].
    destruct (_ >? _); [by eexists|].
    destruct (malloc _) as [[b|] w3]; [|by eexists].
    destruct (malloc _) as [dup w4].
    destruct (malloc _) as [[h|] w5]; [|by eexists].
    unfold parse_header. rewrite Hobj. cbn [negb]. by eexists. }
  exists w'. split; [done|].
  by apply safetensors_open_resources in Ho as (_ & _ & Hl).
Qed.

End Refused.

Lemma file_without_an_object_is_refused_witness :
  exists w',
    safetensors_open 16 256 "m.safetensors" bad_header_world = Done None w'
    /\ w_live w' = [Heap 4; Heap 2]%nat.
Proof.
  apply (file_without_an_object_is_refused 16 256 "m.safetensors"
           bad_header_world).
  intros f Hf. vm_compute in Hf. injection Hf as <-.
  vm_compute. reflexivity.
Defined.

(** ** Reading back a written data block *)

Lemma skipn_string_exact a b n :
  String.length a = n -> skipn_string n (a +:+ b) = b.
Proof.
  intros <-. rewrite <- (Nat.add_0_r (String.length a)).
  by rewrite skipn_string_app.
Qed.

Lemma read_le_block width vs :
  forall rest,
    Forall (fun v => 0 <= v < 256 ^ Z.of_nat width) vs ->
    read_le width (length vs)
            (foldr (fun v s => le_bytes width v +:+ s) "" vs +:+ rest)
    = Some vs.
Proof.
  induction vs as [|v vs IH]; intros rest Hvs; [done|].
  apply Forall_cons in Hvs as [Hv Hvs].
  cbn [length foldr read_le]. rewrite append_assoc.
  rewrite length_append, le_bytes_length.
  replace (_ <? width)%nat with false by (symmetry; apply Nat.ltb_ge; lia).
  rewrite skipn_string_exact by apply le_bytes_length.
  rewrite IH by done. cbn.
  rewrite le_uint_le_bytes by lia. by rewrite Z.mod_small.
Qed.

(** X27. Elements written to the data block are fetched back: when the
    bytes at [safetensors_data] are the little-endian values [vs], 4 bytes
    each for F32 and 2 bytes each for BF16, and the descriptor counts as
    many elements, [safetensors_get_f32] returns a new block with the same
    values, those of BF16 moved to the upper half of their word. *)
Theorem written_elements_are_fetched
    (sf : safetensors_file_t) (t : safetensor_t) (w : world)
    (vs : list Z) (rest : string) :
  dtype t = DTYPE_F32 \/ dtype t = DTYPE_BF16 ->
  Forall (fun v => 0 <= v < 256 ^ Z.of_nat (element_width (dtype t))) vs ->
  safetensor_numel t = Z.of_nat (length vs) ->
  (0 < length vs)%nat -> Z.of_nat (length vs) < 2^62 ->
  w_budget w <> 0%nat ->
  skipn_string (Z.to_nat (safetensors_data sf t)) (snd (data sf))
  = data_block (dtype t) vs +:+ rest ->
  exists out w',
    safetensors_get_f32 sf t w = Done (Some (out, widen (dtype t) <$> vs)) w'
    /\ w_live w' = Heap out :: w_live w.
Proof.
  intros Hd Hvs Hn Hpos _ Hb Hsrc. unfold safetensors_get_f32.
  rewrite Hn, Hsrc, Nat2Z.id.
  replace (_ <=? 0) with false by (symmetry; apply Z.leb_gt; lia).
  unfold malloc. destruct (w_budget w) as [|b]; [done|].
  cbn [acquire]. unfold data_block.
  destruct Hd as [Hd|Hd]; rewrite Hd in *; cbn [element_width] in *;
    rewrite read_le_block by done; eexists _, _.
  - split.
    + unfold widen. by rewrite list_fmap_id.
    + reflexivity.
  - split; reflexivity.
Qed.


Lemma written_elements_are_fetched_witness :
  exists out w',
    safetensors_get_f32
      (mk_sf 1 None (2%nat, le_bytes 8 2 +:+ "{}" +:+ "abcd") 14 2 None [])
      (mk_tensor "w" DTYPE_BF16 1 [2; 0; 0; 0; 0; 0; 0; 0] 0 4) busy_world
    = Done (Some (out, [bf16_to_f32 25185; bf16_to_f32 25699])) w'
    /\ w_live w' = Heap out :: w_live busy_world.
Proof.
  apply (written_elements_are_fetched
           (mk_sf 1 None (2%nat, le_bytes 8 2 +:+ "{}" +:+ "abcd") 14 2 None [])
           (mk_tensor "w" DTYPE_BF16 1 [2; 0; 0; 0; 0; 0; 0; 0] 0 4)
           busy_world [25185; 25699] "").
  - by right.
  - repeat constructor; vm_compute; discriminate.
  - vm_compute. reflexivity.
  - cbn. lia.
  - vm_compute. reflexivity.
  - vm_compute. discriminate.
  - vm_compute. reflexivity.
Defined.

(** ** The bound on ["shape"], anywhere in a header *)

Lemma entry_loop_members_then ms :
  forall t f tail,
    forallb valid_member ms = true ->
    (String.length (members_then ms tail) < f)%nat ->
    entry_loop f (members_then ms tail) t
    = entry_loop (S (String.length tail)) tail (foldl apply_member t ms).
Proof.
  induction ms as [|m ms IH]; intros t f tail Hms Hf.
  - cbn [members_then foldr foldl] in *. apply entry_loop_fuel; lia.
  - destruct f as [|f]; [lia|].
    cbn [forallb] in Hms. apply andb_true_iff in Hms as [Hm Hms].
    cbn [members_then foldr foldl] in Hf |- *.
    fold (members_then ms tail) in Hf |- *.
    pose proof (member_text_length m (String "," (members_then ms tail)))
      as Hl.
    rewrite length_String in Hl.
    rewrite entry_loop_one_member by done.
    assert (skip_comma (String "," (members_then ms tail))
            = members_then ms tail) as -> by done.
    apply IH; [done|lia].
Qed.

Lemma entry_loop_ninth ds more t f :
  length ds = 8%nat -> forallb all_digits ds = true ->
  starts_number more = true -> (1 < f)%nat ->
  entry_loop f (dq "'shape':[" +:+ shape_elems ds more) t = Fail.
Proof.
  intros Hds Hdig Hmore Hf.
  destruct f as [|[|f]]; [lia | lia |].
  cbn -[entry_loop String.length shape_elems].
  erewrite entry_loop_member; [|done|done|reflexivity].
  cbn [skip_whitespace is_space is_char Ascii.eqb Bool.eqb orb].
  unfold entry_value.
  change (streq "shape" "dtype") with false.
  change (streq "shape" "shape") with true.
  cbn [peek advance is_char Ascii.eqb Bool.eqb negb].
  rewrite <- Hds at 1. rewrite shape_loop_elems by done.
  rewrite (starts_number_not_bracket more Hmore).
  cbn [res_bind]. by rewrite entry_loop_number.
Qed.

Lemma apply_member_shape t m :
  valid_member m = true -> length (shape t) = 8%nat ->
  length (shape (apply_member t m)) = 8%nat.
Proof.
  intros Hm Ht. destruct m as [s|dims|s e]; cbn [apply_member]; try done.
  cbn [valid_member] in Hm. apply andb_true_iff in Hm as [_ Hl].
  apply Nat.leb_le in Hl.
  destruct (foldl_push_dim ((fun d => wrap_s64 (decimal d)) <$> dims)
                           (set_ndim t 0)) as [_ ->].
  { cbn. rewrite length_fmap. lia. }
  cbn [ndim set_ndim shape]. rewrite take_0. cbn [app Nat.add].
  rewrite length_app, length_fmap, length_drop. cbn [shape]. lia.
Qed.

Lemma foldl_apply_member_shape ms :
  forall t,
    forallb valid_member ms = true -> length (shape t) = 8%nat ->
    length (shape (foldl apply_member t ms)) = 8%nat.
Proof.
  induction ms as [|m ms IH]; intros t Hms Ht; [done|].
  cbn [forallb] in Hms. apply andb_true_iff in Hms as [Hm Hms].
  cbn [foldl]. apply IH; [done|]. by apply apply_member_shape.
Qed.

Lemma apply_shape_member t dims :
  forallb number dims = true -> (length dims <= 8)%nat ->
  length (shape t) = 8%nat ->
  ndim (apply_member t (MShape dims)) = length dims
  /\ take (length dims) (shape (apply_member t (MShape dims)))
     = (fun d => wrap_s64 (decimal d)) <$> dims.
Proof.
  intros Hd Hl Ht. cbn [apply_member].
  destruct (foldl_push_dim ((fun d => wrap_s64 (decimal d)) <$> dims)
                           (set_ndim t 0)) as [-> ->].
  { cbn. rewrite length_fmap. lia. }
  cbn [ndim set_ndim shape]. rewrite take_0, length_fmap. cbn [app Nat.add].
  split; [done|].
  rewrite take_app_le by (rewrite length_fmap; lia).
  apply take_ge. by rewrite length_fmap.
Qed.

Section NinthElement.

Variable SAFETENSORS_MAX_TENSORS : nat.
Variable NAME_SIZE : nat.

Lemma header_loop_entries_then es :
  forall acc f tail,
    forallb valid_entry es = true ->
    (String.length (entries_then es tail) < f)%nat ->
    (length acc + length es <= SAFETENSORS_MAX_TENSORS)%nat ->
    header_loop SAFETENSORS_MAX_TENSORS NAME_SIZE f (entries_then es tail) acc
    = header_loop SAFETENSORS_MAX_TENSORS NAME_SIZE
                  (S (String.length tail)) tail
                  (acc ++ (descriptor_of NAME_SIZE <$> es)).
Proof.
  induction es as [|e es IH]; intros acc f tail Hes Hf Hcap.
  - cbn [entries_then foldr fmap list_fmap] in *. rewrite app_nil_r.
    apply header_loop_fuel; lia.
  - destruct f as [|f]; [lia|].
    cbn [forallb] in Hes. apply andb_true_iff in Hes as [He Hes].
    cbn [length] in Hcap.
    pose proof He as Hv. unfold valid_entry in Hv.
    rewrite !andb_true_iff in Hv.
    destruct Hv as [[[[[[[[H1 H2] H3] _] _] _] _] _] _].
    apply Nat.ltb_lt in H2. apply negb_true_iff in H3.
    cbn [entries_then foldr] in Hf |- *.
    fold (entries_then es tail) in Hf |- *. unfold quoted in Hf |- *.
    erewrite header_loop_entry;
      [| lia | done | done | by apply parse_string_quoted | done].
    rewrite (proj2 (entry_descriptor NAME_SIZE e He)). cbn [res_bind].
    assert (skip_comma (String "," (entries_then es tail))
            = entries_then es tail) as -> by done.
    rewrite !length_String, length_append, !length_String in Hf.
    match type of Hf with context [entry_text ?a ?b ?c ?d ?m] =>
      pose proof (entry_text_length a b c d m) as Hlen end.
    rewrite length_String in Hlen.
    rewrite IH; [|done|lia|rewrite length_app; cbn; lia].
    by rewrite fmap_cons, <- app_assoc.
Qed.

(** C3, as the code has it.  When the array of ["shape"] has a ninth
    element, the first eight are stored and the loop stops in front of the
    ninth; the ninth is then read as the next key, which fails: the entry is
    rejected and with it the whole header.  This holds whatever members
    stand before ["shape"] in the entry and whatever entries stand before it
    in the header, as long as the table has a slot left for it.  An array of
    at most eight elements parses, anywhere among the members, and [ndim]
    is the number of its elements. *)
Theorem shape_beyond_eight_is_rejected
    (es : list written_entry) (nm : string) (ms : list member)
    (ds : list string) (more : string) (t : safetensor_t) :
  forallb valid_entry es = true ->
  (length es < SAFETENSORS_MAX_TENSORS)%nat ->
  plain nm = true -> (String.length nm < 256)%nat ->
  streq nm "__metadata__" = false ->
  forallb valid_member ms = true ->
  length ds = 8%nat -> forallb all_digits ds = true ->
  starts_number more = true ->
  length (shape t) = 8%nat ->
  let entry :=
    String "{" (members_then ms (dq "'shape':[" +:+ shape_elems ds more)) in
  (let '(p, t') := shape_loop 8 (shape_elems ds more) (set_ndim t 0) in
   p = more /\ ndim t' = 8%nat /\
   shape t' = (fun d => wrap_s64 (decimal d)) <$> ds) /\
  parse_tensor_entry entry t = Fail /\
  parse_header SAFETENSORS_MAX_TENSORS NAME_SIZE
    (String "{" (entries_then es (quoted nm (String ":" entry))))
  = Fail /\
  (forall dims ms' rest,
     forallb number dims = true -> (length dims <= 8)%nat ->
     forallb valid_member ms' = true ->
     let t' := apply_member (foldl apply_member (cleared t) ms) (MShape dims) in
     parse_tensor_entry
       (String "{" (members_text (ms ++ MShape dims :: ms') rest)) t
     = Ok (rest, foldl apply_member t' ms')
     /\ ndim t' = length dims
     /\ take (length dims) (shape t')
        = (fun d => wrap_s64 (decimal d)) <$> dims).
Proof.
  intros Hes Hcap Hnm Hlen Hmeta Hms Hds Hdig Hmore Hshape entry.
  assert (Hentry : forall t0, parse_tensor_entry entry t0 = Fail).
  { intros t0. subst entry. unfold parse_tensor_entry.
    cbn [skip_whitespace is_space is_char Ascii.eqb Bool.eqb orb peek advance
         negb].
    rewrite entry_loop_members_then by (done || lia).
    rewrite entry_loop_ninth; [done | done | done | done |].
    rewrite length_append.
    change (String.length (dq "'shape':[")) with 9%nat. lia. }
  split; [|split; [|split]].
  - assert (Hloop : shape_loop 8 (shape_elems ds more) (set_ndim t 0)
                    = (more, foldl push_dim (set_ndim t 0)
                                   ((fun d => wrap_s64 (decimal d)) <$> ds)))
      by (rewrite <- Hds at 1; by apply shape_loop_elems).
    rewrite Hloop.
    destruct (foldl_push_dim ((fun d => wrap_s64 (decimal d)) <$> ds)
                             (set_ndim t 0)) as [Hn Hs].
    { cbn. rewrite length_fmap. lia. }
    split; [done|]. rewrite Hn, Hs, length_fmap, Hds. cbn [ndim set_ndim].
    split; [done|]. rewrite take_0. cbn [app Nat.add].
    rewrite drop_ge by (cbn; lia). by rewrite app_nil_r.
  - apply Hentry.
  - unfold parse_header.
    cbn [skip_whitespace is_space is_char Ascii.eqb Bool.eqb orb peek advance
         negb].
    rewrite header_loop_entries_then by (done || cbn; lia).
    unfold quoted. cbn [app].
    erewrite header_loop_entry;
      [| rewrite length_fmap; lia | done | done
       | by apply parse_string_quoted | done].
    by rewrite Hentry.
  - intros dims ms' rest Hdims Hl Hms' t'.
    assert (Hall : forallb valid_member (ms ++ MShape dims :: ms') = true).
    { rewrite forallb_app, Hms. cbn [forallb valid_member andb].
      rewrite Hdims, Hms'. by apply Nat.leb_le in Hl as ->. }
    split.
    + unfold parse_tensor_entry.
      cbn [skip_whitespace is_space is_char Ascii.eqb Bool.eqb orb peek
           advance negb].
      rewrite entry_loop_members by (done || lia).
      cbn [res_bind peek is_char Ascii.eqb Bool.eqb advance].
      by rewrite foldl_app.
    + apply apply_shape_member; [done|done|].
      by apply foldl_apply_member_shape.
Qed.

End NinthElement.

Lemma shape_beyond_eight_is_rejected_witness :
  parse_header 16 256
    (dq "{'w':" +:+ nine_dim_entry +:+ dq ",'v':" +:+ one_dim_entry +:+ "}")
  = Fail.
Proof.
  exact (proj1 (proj2 (proj2
    (shape_beyond_eight_is_rejected 16 256 [] "w" [MDtype "F32"]
       ["1"; "2"; "3"; "4"; "5"; "6"; "7"; "8"]
       (dq "9],'data_offsets':[0,4]},'v':" +:+ one_dim_entry +:+ "}")
       (mk_tensor "" DTYPE_F32 0 (replicate 8 0) 0 0)
       eq_refl ltac:(cbn; lia) eq_refl ltac:(vm_compute; lia) eq_refl
       eq_refl eq_refl eq_refl eq_refl eq_refl)))).
Defined.

(** ** The order in which shards are opened *)

Local Open Scope nat_scope.

Section Order.

Variable SAFETENSORS_MAX_TENSORS : nat.
Variable SAFETENSORS_MAX_SHARDS : nat.
Variable NAME_SIZE : nat.

Lemma open_shards_order model_dir names :
  forall ms w r w',
    open_shards SAFETENSORS_MAX_TENSORS NAME_SIZE model_dir names ms w
    = Done r w' ->
    exists new,
      Forall2 (fun sf nm => snd <$> path sf = Some (shard_path model_dir nm))
              new (take (length new) names)
      /\ w_opens w'
         = reverse (shard_path model_dir
                    <$> take (length new + match r with Some _ => 0 | None => 1 end) names)
           ++ w_opens w
      /\ match r with
         | Some ms' =>
             shards ms' = shards ms ++ new /\ length new = length names
         | None => length new < length names
         end.
Proof.
  induction names as [|nm names IH]; intros ms w r w'; cbn [open_shards].
  - intros [= <- <-]. exists []. split; [constructor|]. split; [done|].
    by rewrite app_nil_r.
  - fold (shard_path model_dir nm).
    destruct (safetensors_open _ _ _ w) as [[sf|] w1|] eqn:E; [| |done].
    + pose proof (safetensors_open_trace _ _ _ _ _ _ E) as (_ & _ & Ho & _).
      apply safetensors_open_resources in E as (_ & _ & _ & _ & _ & Hp).
      intros (new & Hf & Hopens & Hr)%IH. exists (sf :: new).
      split; [cbn [length take]; by constructor|]. split.
      * rewrite Hopens, Ho. cbn [length Nat.add take fmap list_fmap].
        by rewrite reverse_cons, <- app_assoc.
      * cbn [shards] in Hr. destruct r as [ms'|].
        -- destruct Hr as [-> Hl]. rewrite <- app_assoc. cbn [length].
           split; [done|lia].
        -- cbn [length]. lia.
    + apply safetensors_open_trace in E as (_ & _ & Ho & _).
      intros [= <- <-]. exists []. split; [constructor|]. split.
      * etrans; [apply quiet_opens, (multi_safetensors_close_quiet (Some ms))|].
        cbn [fprintf_stderr w_opens take fmap list_fmap length Nat.add].
        by rewrite Ho.
      * cbn [length]. lia.
Qed.

(** C6, as the code has it.  The scan collects the first
    [SAFETENSORS_MAX_SHARDS] matching entries of the listing.  The names
    collected are put in ascending [strcmp] order, and when
    [model.safetensors] does not open, the shards are opened in exactly
    that order: a set that is
    returned holds one handle for every collected name, opened in sorted
    order, and a failure stops at the first name that does not open.  The
    order in which the names were collected does not show in the result,
    nor does the order of a listing whose matching entries fit the shard
    table. *)
Theorem shards_are_opened_in_sorted_order
    (model_dir : string) (w w1 w2 : world) (b : nat)
    (entries other : list string) :
  let names := qsort_names (scan_dir SAFETENSORS_MAX_SHARDS entries []) in
  Sorted name_le names /\
  names ≡ₚ scan_dir SAFETENSORS_MAX_SHARDS entries [] /\
  scan_dir SAFETENSORS_MAX_SHARDS entries []
  = take SAFETENSORS_MAX_SHARDS
         ((fun e => snprintf 256 (cstr e)) <$> filter matching entries) /\
  (scan_dir SAFETENSORS_MAX_SHARDS other []
   ≡ₚ scan_dir SAFETENSORS_MAX_SHARDS entries [] ->
   qsort_names (scan_dir SAFETENSORS_MAX_SHARDS other []) = names) /\
  (other ≡ₚ entries ->
   length (filter matching entries) <= SAFETENSORS_MAX_SHARDS ->
   qsort_names (scan_dir SAFETENSORS_MAX_SHARDS other []) = names) /\
  (malloc w = (Some b, w1) ->
   safetensors_open SAFETENSORS_MAX_TENSORS NAME_SIZE
                    (fast_path model_dir) w1 = Done None w2 ->
   w_dirs w !! cstr model_dir = Some entries ->
   names <> [] ->
   forall r w',
     multi_safetensors_open SAFETENSORS_MAX_TENSORS SAFETENSORS_MAX_SHARDS
                            NAME_SIZE model_dir w = Done r w' ->
     exists sfs,
       Forall2 (fun sf nm => snd <$> path sf = Some (shard_path model_dir nm))
               sfs (take (length sfs) names)
       /\ w_opens w'
          = reverse (shard_path model_dir
                     <$> take (length sfs + match r with Some _ => 0 | None => 1 end) names)
            ++ fast_path model_dir :: w_opens w
       /\ match r with
          | Some ms =>
              shards ms = sfs /\ length sfs = length names
              /\ num_shards ms = length names
              /\ w_opens w'
                 = reverse (shard_path model_dir <$> names)
                   ++ fast_path model_dir :: w_opens w
          | None => length sfs < length names
          end) /\
  (2 <= SAFETENSORS_MAX_SHARDS ->
   qsort_names (scan_dir SAFETENSORS_MAX_SHARDS [shard2; shard1] [])
   = [shard1; shard2] /\
   qsort_names (scan_dir SAFETENSORS_MAX_SHARDS [shard1; shard2] [])
   = [shard1; shard2]).
Proof.
  intros names. split; [apply Sorted_merge_sort, _|].
  split; [apply merge_sort_Permutation|].
  split; [|split; [|split; [|split]]].
  - rewrite scan_dir_take. cbn [app length]. by rewrite Nat.sub_0_r.
  - intros Hperm. apply qsort_names_perm; [by apply scan_dir_nul_free|done].
  - intros Hperm Hcap. apply qsort_names_perm.
    + by apply scan_dir_nul_free.
    + rewrite !scan_dir_under_capacity; cbn [length app].
      * by rewrite Hperm.
      * lia.
      * rewrite Hperm. lia.
  - intros Hm Hopen Hdir Hne r w'. unfold multi_safetensors_open.
    rewrite Hm. fold (fast_path model_dir). rewrite Hopen.
    pose proof (malloc_quiet _ _ _ Hm) as (Hf1 & Hd1 & Ho1 & He1).
    apply safetensors_open_trace in Hopen as (_ & Hd2 & Ho2 & He2).
    rewrite Hd2, Hd1, Hdir. cbn [acquire].
    assert (length (scan_dir SAFETENSORS_MAX_SHARDS entries []) <> 0) as Hlen.
    { intros H0. apply Hne. apply length_zero_iff_nil.
      subst names. by rewrite qsort_names_length. }
    apply Nat.eqb_neq in Hlen. rewrite Hlen. fold names.
    destruct (open_shards _ _ _ _ _ _) as [r0 w3|] eqn:Hloop; [|done].
    apply open_shards_order in Hloop as (new & Hf & Hopens & Hr).
    cbn [release w_opens] in Hopens. rewrite Ho2, Ho1 in Hopens.
    intros Hres. destruct r0 as [ms0|]; injection Hres as <- <-.
    + exists new. destruct Hr as [Hsh Hl]. cbn [shards app] in Hsh.
      split; [done|]. split; [done|]. cbn [shards num_shards].
      repeat split; try done.
      rewrite Hopens, Hl, Nat.add_0_r. by rewrite firstn_all.
    + by exists new.
  - intros Hcap. rewrite !scan_dir_under_capacity by (vm_compute; lia).
    split; vm_compute; reflexivity.
Qed.

End Order.

Lemma shards_are_opened_in_sorted_order_witness :
  exists ms w',
    multi_safetensors_open 16 8 256 "m" two_shard_world = Done (Some ms) w'
    /\ num_shards ms = 2
    /\ w_opens w' = ["m/" +:+ shard2; "m/" +:+ shard1; "m/model.safetensors"].
Proof.
  eexists _, _.
  match goal with |- ?E /\ _ => assert (H : E) by (vm_compute; reflexivity) end.
  split; [exact H|].
  assert (exists w2,
            safetensors_open 16 256 (fast_path "m")
                             (snd (malloc two_shard_world))
            = Done None w2) as (w2 & E2)
    by (vm_compute; eauto).
  destruct (shards_are_opened_in_sorted_order
              16 8 256 "m" two_shard_world (snd (malloc two_shard_world)) w2 5
              [shard2; "."; shard1] [])
    as (_ & _ & _ & _ & _ & Hrun & _).
  assert (qsort_names (scan_dir 8 [shard2; "."; shard1] []) <> []) as Hne
    by (vm_compute; discriminate).
  destruct (Hrun eq_refl E2 eq_refl Hne _ _ H)
    as (sfs & _ & _ & _ & _ & Hn & Ho).
  split; [exact Hn | exact Ho].
Defined.

(** C6 does not hold beyond the capacity of the shard table: of nine shards
    in a table of eight, the listing order decides which eight are opened. *)
Lemma listing_order_decides_beyond_capacity :
  reverse nine_shards ≡ₚ nine_shards /\
  exists ms1 w1 ms2 w2,
    multi_safetensors_open 16 8 256 "m" (nine_shard_world nine_shards)
    = Done (Some ms1) w1 /\
    multi_safetensors_open 16 8 256 "m"
                           (nine_shard_world (reverse nine_shards))
    = Done (Some ms2) w2 /\
    w_opens w1
    = reverse (String.append "m/" <$> take 8 nine_shards)
      ++ ["m/model.safetensors"] /\
    w_opens w2
    = reverse (String.append "m/" <$> drop 1 nine_shards)
      ++ ["m/model.safetensors"] /\
    w_opens w1 <> w_opens w2.
Proof.
  split; [apply reverse_Permutation|].
  eexists _, _, _, _.
  split; [vm_compute; reflexivity|].
  split; [vm_compute; reflexivity|].
  split; [vm_compute; reflexivity|].
  split; [vm_compute; reflexivity|].
  vm_compute. discriminate.
Qed.

Local Open Scope Z_scope.

(** ** A key that does not fit the key buffer *)

